(** * Perceptual colour engine of the palette extractor

    A shallow embedding of [core/color_ops.py] and [core/extractor.py].

    Conventions.
    - Python [int]s are [Z]; a [uint8] array cell is a [Z] in [0,255] and
      [astype(np.uint8)] on an integer array is reduction modulo 256.
    - Python [str]s are [string]s of ASCII characters.
    - Floating-point quantities of [color_ops] are read over the real numbers
      [R]: [np.sqrt], [np.sin], [np.cos], [np.exp] and [**] are the functions
      of the same name of the Standard Library, and the [float32] casts are
      the identity.  This is the idealised reading; a statement about it is
      kept only where the arrays the program computes satisfy it as well.
      [deltaE76], which uses nothing but IEEE operations, is also given on
      binary32 floats (module [Binary32]), and the contrast code on binary64
      floats (module [Binary64]).  Counts and weights of the extractor are
      exact rationals.  The one place where binary64 rounding decides an
      integer, the frame size [int(w * scale)], is evaluated on primitive
      floats.
    - [np.array(x, dtype=np.uint8)] on Python integers is the one of
      NumPy 2: an integer outside [0,255] raises [OverflowError].
    - A Python exception is [None]. *)

From Stdlib Require Import ZArith QArith Qround Qabs List Bool Ascii String Lia Lra.
From Stdlib Require Import Reals Permutation Sorted.
From Stdlib Require Uint63 PrimFloat FloatOps SpecFloat.
Import ListNotations.

Local Open Scope Z_scope.

(** ** Option as the exception monad *)

Definition bind {A B} (m : option A) (k : A -> option B) : option B :=
  match m with
  | Some x => k x
  | None => None
  end.

Notation "x <- m ;; k" := (bind m (fun x => k))
  (at level 61, m at next level, right associativity).
Notation "' p <- m ;; k" := (bind m (fun x => let 'p := x in k))
  (at level 61, p pattern, m at next level, right associativity).

(** ** Colours *)

(** [Tuple[int, int, int]], and one row of an [(N,3)] integer array. *)
Definition rgb : Type := Z * Z * Z.

Definition is_uint8 (z : Z) : Prop := 0 <= z <= 255.

Definition valid_rgb (c : rgb) : Prop :=
  let '(r, g, b) := c in is_uint8 r /\ is_uint8 g /\ is_uint8 b.

Definition astype_uint8 (z : Z) : Z := z mod 256.

Definition astype_uint8_px (c : rgb) : rgb :=
  let '(x, y, z) := c in (astype_uint8 x, astype_uint8 y, astype_uint8 z).

(** ** Hexadecimal helpers *)

Section Hex.

Definition ascii_code (c : ascii) : Z := Z.of_nat (nat_of_ascii c).

(** The ASCII characters that [int] strips from both ends. *)
Definition is_space (c : ascii) : bool :=
  let n := ascii_code c in
  ((9 <=? n) && (n <=? 13)) || (n =? 32).

(** Value of one base-16 digit, either case. *)
Definition hex_val (c : ascii) : option Z :=
  let n := ascii_code c in
  if (48 <=? n) && (n <=? 57) then Some (n - 48)
  else if (97 <=? n) && (n <=? 102) then Some (n - 87)
  else if (65 <=? n) && (n <=? 70) then Some (n - 55)
  else None.

Fixpoint lstrip_by (p : ascii -> bool) (s : string) : string :=
  match s with
  | String c rest => if p c then lstrip_by p rest else s
  | EmptyString => s
  end.

Fixpoint rev_string (s acc : string) : string :=
  match s with
  | String c rest => rev_string rest (String c acc)
  | EmptyString => acc
  end.

Definition strip_space (s : string) : string :=
  let t := lstrip_by is_space s in
  rev_string (lstrip_by is_space (rev_string t "")) "".

(** Digits of [int(_, 16)]: single underscores may separate digits;
    [started] records that a digit (or the base prefix) came just before,
    [seen] that at least one digit was read. *)
Fixpoint int16_digits (s : string) (acc : Z) (started seen : bool) : option Z :=
  match s with
  | EmptyString => if started && seen then Some acc else None
  | String c rest =>
      if Ascii.eqb c "_" then
        if started then int16_digits rest acc false seen else None
      else
        match hex_val c with
        | Some d => int16_digits rest (16 * acc + d) true true
        | None => None
        end
  end.

Definition int16_unsigned (s : string) : option Z :=
  match s with
  | String "0" (String "x" rest) | String "0" (String "X" rest) =>
      match rest with
      | EmptyString => None
      | _ => int16_digits rest 0 true false
      end
  | _ => int16_digits s 0 false false
  end.

(** [int(s, 16)] on an ASCII string; [None] is [ValueError]. *)
Definition int16 (s : string) : option Z :=
  match strip_space s with
  | String "+" rest => int16_unsigned rest
  | String "-" rest => option_map Z.opp (int16_unsigned rest)
  | t => int16_unsigned t
  end.

(** The slice [h[i:i+2]]. *)
Definition slice2 (h : string) (i : nat) : string := substring i 2 h.

Definition is_hash (c : ascii) : bool := Ascii.eqb c "#".

Definition hex_to_rgb (hex_str : string) : option rgb :=
  let h := lstrip_by is_hash hex_str in
  r <- int16 (slice2 h 0) ;;
  g <- int16 (slice2 h 2) ;;
  b <- int16 (slice2 h 4) ;;
  Some (r, g, b).

Definition hex_char (d : Z) : ascii :=
  if d <? 10 then ascii_of_nat (Z.to_nat (48 + d))
  else ascii_of_nat (Z.to_nat (87 + d)).

(** Lowercase base-16 digits of a non-negative integer, most significant
    first, at least one digit. *)
Fixpoint hex_digits (fuel : nat) (n : Z) (acc : string) : string :=
  let acc' := String (hex_char (n mod 16)) acc in
  match fuel with
  | O => acc'
  | S f => if n / 16 =? 0 then acc' else hex_digits f (n / 16) acc'
  end.

Definition to_hex (n : Z) : string := hex_digits (Z.to_nat (Z.log2 n)) n "".

(** [format(n, "02x")]: sign-aware zero padding to width two. *)
Definition format_02x (n : Z) : string :=
  if n <? 0 then String "-" (to_hex (- n))
  else
    let s := to_hex n in
    if (String.length s <? 2)%nat then String "0" s else s.

Definition rgb_to_hex (c : rgb) : string :=
  let '(r, g, b) := c in
  String "#" (format_02x r ++ format_02x g ++ format_02x b).

(** [str.lower] on ASCII. *)
Definition lower_char (c : ascii) : ascii :=
  let n := ascii_code c in
  if (65 <=? n) && (n <=? 90) then ascii_of_nat (Z.to_nat (n + 32)) else c.

Fixpoint lower (s : string) : string :=
  match s with
  | String c rest => String (lower_char c) (lower rest)
  | EmptyString => EmptyString
  end.

Definition upper_char (c : ascii) : ascii :=
  let n := ascii_code c in
  if (97 <=? n) && (n <=? 122) then ascii_of_nat (Z.to_nat (n - 32)) else c.

Fixpoint upper (s : string) : string :=
  match s with
  | String c rest => String (upper_char c) (upper rest)
  | EmptyString => EmptyString
  end.

Definition is_hex_digit (c : ascii) : bool :=
  match hex_val c with Some _ => true | None => false end.

(** A well-formed colour literal: ["#"] followed by exactly six base-16
    digits. *)
Definition well_formed_hex (s : string) : bool :=
  match s with
  | String h (String a (String b (String c (String d (String e (String f EmptyString)))))) =>
      is_hash h && forallb is_hex_digit [a; b; c; d; e; f]
  | _ => false
  end.

End Hex.

(** ** External numerical routines

    [cv2] and [numpy.random] are not part of the repository.  Their calls
    are modelled by the argument checks they document, written out below,
    around the numerical kernels collected in this interface. *)

Class OpenCV : Type := {
  (** Per-pixel transform of [cv2.cvtColor(_, cv2.COLOR_BGR2LAB)] on an
      8-bit image, from a (B, G, R) cell to an (L, a, b) cell.  OpenCV
      documents the result as 8-bit again, with L* scaled by 255/100 and
      a*, b* shifted by 128; white, of L* = 100 and a* = b* = 0, is
      therefore stored as (255, 128, 128). *)
  bgr2lab_8u : rgb -> rgb;
  bgr2lab_8u_uint8 : forall p, valid_rgb p -> valid_rgb (bgr2lab_8u p);
  bgr2lab_8u_white : bgr2lab_8u (255, 255, 255) = (255, 128, 128);

  (** [cv2.resize(arr, (w', h'), interpolation=cv2.INTER_AREA)] on an
      [h]x[w] frame, flattened row by row. *)
  resize_area : list rgb -> Z -> Z -> Z -> Z -> list rgb;
  resize_area_length : forall px h w w' h',
    0 < w' -> 0 < h' ->
    List.length (resize_area px h w w' h') = Z.to_nat (h' * w');

  (** Centres found by [cv2.kmeans(data, K, None, criteria, 3,
      cv2.KMEANS_PP_CENTERS)]: [K] rows of [dims] float32 values. *)
  kmeans_centers : list rgb -> Z -> list (list Q);
  kmeans_centers_rows : forall data K,
    0 < K -> List.length (kmeans_centers data K) = Z.to_nat K;
  kmeans_centers_cols : forall data K,
    Forall (fun c => List.length c = if (List.length data =? 1)%nat then 1%nat else 3%nat)
           (kmeans_centers data K)
}.

Class NumpyRandom : Type := {
  (** [np.random.default_rng(seed).choice(n, size=size, replace=False)]. *)
  rng_choice : Z -> nat -> nat -> list nat;
  rng_choice_length : forall seed n size,
    (size <= n)%nat -> List.length (rng_choice seed n size) = size;
  rng_choice_range : forall seed n size,
    (size <= n)%nat -> Forall (fun i => (i < n)%nat) (rng_choice seed n size)
}.

(** ** [color_ops]: conversion and distances *)

Section ColorOps.
Context {cv : OpenCV}.
Local Open Scope R_scope.

(** One row of an [(N,3)] float array: [L*, a*, b*]. *)
Definition lab : Type := R * R * R.

(** [cv2.cvtColor(img, cv2.COLOR_BGR2LAB)] on a one-row 8-bit image;
    OpenCV rejects an empty source. *)
Definition cvtColor_BGR2LAB (row : list rgb) : option (list rgb) :=
  match row with
  | [] => None
  | _ => Some (map bgr2lab_8u row)
  end.

Definition reverse_channels (c : rgb) : rgb :=
  let '(x, y, z) := c in (z, y, x).

Definition astype_float32 (c : rgb) : lab :=
  let '(x, y, z) := c in (IZR x, IZR y, IZR z).

Definition rgb_to_lab (rgb_arr : list rgb) : option (list lab) :=
  let bgr := map astype_uint8_px (map reverse_channels rgb_arr) in
  lab8 <- cvtColor_BGR2LAB bgr ;;
  Some (map astype_float32 lab8).

(** One cell of [deltaE76]. *)
Definition deltaE76_cell (p q : lab) : R :=
  let '(L1, a1, b1) := p in
  let '(L2, a2, b2) := q in
  sqrt ((L1 - L2) ^ 2 + (a1 - a2) ^ 2 + (b1 - b2) ^ 2).

Definition deltaE76 (lab1 lab2 : list lab) : list (list R) :=
  map (fun p => map (fun q => deltaE76_cell p q) lab2) lab1.

(** [np.arctan2] on real arguments. *)
Definition arctan2 (y x : R) : R :=
  if Rlt_dec 0 x then atan (y / x)
  else if Rlt_dec x 0 then
    if Rle_dec 0 y then atan (y / x) + PI else atan (y / x) - PI
  else if Rlt_dec 0 y then PI / 2
  else if Rlt_dec y 0 then - (PI / 2)
  else 0.

Definition deg2rad (d : R) : R := d * (PI / 180).
Definition rad2deg (r : R) : R := r * (180 / PI).

(** The nested [_atan2]: the angle of [np.arctan2], plus a full turn when
    it is negative. *)
Definition _atan2 (y x : R) : R :=
  let ang := arctan2 y x in
  if Rlt_dec ang 0 then ang + 2 * PI else ang.

Definition chroma (a b : R) : R := sqrt (a ^ 2 + b ^ 2).

Definition G_factor (C_bar : R) : R :=
  let C_bar7 := C_bar ^ 7 in
  0.5 * (1 - sqrt (C_bar7 / (C_bar7 + 25 ^ 7))).

Definition dhp_wrap (h1p h2p : R) : R :=
  let dhp := h2p - h1p in
  let dhp := if Rgt_dec dhp PI then dhp - 2 * PI else dhp in
  if Rlt_dec dhp (- PI) then dhp + 2 * PI else dhp.

Definition hp_mean (h1p h2p : R) : R :=
  let hp_bar := (h1p + h2p) / 2 in
  let hp_bar := if Rgt_dec (Rabs (h1p - h2p)) PI then hp_bar + PI else hp_bar in
  if Rge_dec hp_bar (2 * PI) then hp_bar - 2 * PI else hp_bar.

Definition T_term (hp_bar : R) : R :=
  1
  - 0.17 * cos (hp_bar - deg2rad 30)
  + 0.24 * cos (2 * hp_bar)
  + 0.32 * cos (3 * hp_bar + deg2rad 6)
  - 0.20 * cos (4 * hp_bar - deg2rad 63).

Definition SL_term (Lp_bar : R) : R :=
  1 + (0.015 * (Lp_bar - 50) ^ 2) / sqrt (20 + (Lp_bar - 50) ^ 2).

Definition RC_term (Cp_bar : R) : R :=
  2 * sqrt (Cp_bar ^ 7 / (Cp_bar ^ 7 + 25 ^ 7)).

Definition RT_term (hp_bar Cp_bar : R) : R :=
  let delta_theta := deg2rad 30 * exp (- (((rad2deg hp_bar - 275) / 25) ^ 2)) in
  - sin (2 * delta_theta) * RC_term Cp_bar.

(** The quantity under the final square root of [deltaE2000]. *)
Definition dE2000_radicand (p q : lab) : R :=
  let '(L1, a1, b1) := p in
  let '(L2, a2, b2) := q in
  let C1 := chroma a1 b1 in
  let C2 := chroma a2 b2 in
  let C_bar := (C1 + C2) / 2 in
  let G := G_factor C_bar in
  let a1p := (1 + G) * a1 in
  let a2p := (1 + G) * a2 in
  let C1p := chroma a1p b1 in
  let C2p := chroma a2p b2 in
  let h1p := _atan2 b1 a1p in
  let h2p := _atan2 b2 a2p in
  let dLp := L1 - L2 in
  let dCp := C1p - C2p in
  let dhp := dhp_wrap h1p h2p in
  let dHp := 2 * sqrt (C1p * C2p) * sin (dhp / 2) in
  let Lp_bar := (L1 + L2) / 2 in
  let Cp_bar := (C1p + C2p) / 2 in
  let hp_bar := hp_mean h1p h2p in
  let T := T_term hp_bar in
  let SL := SL_term Lp_bar in
  let SC := 1 + 0.045 * Cp_bar in
  let SH := 1 + 0.015 * Cp_bar * T in
  let RT := RT_term hp_bar Cp_bar in
  let kL := 1 in
  let kC := 1 in
  let kH := 1 in
  (dLp / (kL * SL)) ^ 2 +
  (dCp / (kC * SC)) ^ 2 +
  (dHp / (kH * SH)) ^ 2 +
  RT * (dCp / (kC * SC)) * (dHp / (kH * SH)).

(** One cell of [deltaE2000]. *)
Definition deltaE2000_cell (p q : lab) : R := sqrt (dE2000_radicand p q).

Definition deltaE2000 (lab1 lab2 : list lab) : list (list R) :=
  map (fun p => map (fun q => deltaE2000_cell p q) lab2) lab1.

End ColorOps.

(** ** Index selection shared by both modules *)

(** [np.argmin] on a one-dimensional array: the first index that holds the
    minimum; [None] on an empty array ([ValueError]). *)
Fixpoint argmin_from {A} (ltb : A -> A -> bool) (best : A) (besti i : nat)
    (l : list A) : nat :=
  match l with
  | [] => besti
  | x :: t =>
      if ltb x best then argmin_from ltb x i (S i) t
      else argmin_from ltb best besti (S i) t
  end.

Definition argmin {A} (ltb : A -> A -> bool) (l : list A) : option nat :=
  match l with
  | [] => None
  | x :: t => Some (argmin_from ltb x 0%nat 1%nat t)
  end.

(** The cell [m[i, j]] of a two-dimensional array. *)
Definition entry {A} (m : list (list A)) (i j : nat) : option A :=
  row <- nth_error m i ;; nth_error row j.

Definition Rltb (x y : R) : bool := if Rlt_dec x y then true else false.

(** Monadic map: the first failure aborts. *)
Fixpoint mapM {A B} (f : A -> option B) (l : list A) : option (list B) :=
  match l with
  | [] => Some []
  | x :: t => y <- f x ;; ys <- mapM f t ;; Some (y :: ys)
  end.

(** [np.array(rows, dtype=np.uint8)] on rows of Python integers:
    [OverflowError] as soon as one integer lies outside [0,255]. *)
Definition fits_uint8 (n : Z) : bool := (0 <=? n) && (n <=? 255).

Definition fits_uint8_px (c : rgb) : bool :=
  let '(r, g, b) := c in fits_uint8 r && fits_uint8 g && fits_uint8 b.

Definition np_array_uint8 (rows : list rgb) : option (list rgb) :=
  if forallb fits_uint8_px rows then Some rows else None.

(** ** [color_ops]: matching and accessibility *)

Record TWEntry : Type := { tw_name : string; tw_shade : Z; tw_hex : string }.

Record TWMatch : Type := { name : string; shade : Z; hex : string; deltaE : R }.

Section Matching.
Context {cv : OpenCV}.
Local Open Scope R_scope.

Definition is_de2000 (method : string) : bool :=
  let m := upper method in
  String.eqb m "DE2000" || String.eqb m "CIEDE2000" || String.eqb m "DE00".

(** Row 0 of the distance matrix selected by [method]. *)
Definition distances (method : string) (rgb_lab tw_lab : list lab)
  : option (list R) :=
  if is_de2000 method then nth_error (deltaE2000 rgb_lab tw_lab) 0
  else nth_error (deltaE76 rgb_lab tw_lab) 0.

Definition nearest_tailwind (c : rgb) (tw_entries : list TWEntry)
    (tw_lab : list lab) (method : string) : option TWMatch :=
  arr <- np_array_uint8 [c] ;;
  rgb_lab <- rgb_to_lab arr ;;
  dists <- distances method rgb_lab tw_lab ;;
  k <- argmin Rltb dists ;;
  entry <- nth_error tw_entries k ;;
  d <- nth_error dists k ;;
  Some {| name := tw_name entry; shade := tw_shade entry;
          hex := tw_hex entry; deltaE := d |}.

Definition _srgb_to_lin (c : R) : R :=
  let c := c / 255 in
  if Rle_dec c (0.04045 * 255) then c / 12.92
  else Rpower ((c + 0.055 * 255) / (1.055 * 255)) 2.4.

Definition relative_luminance (c : rgb) : R :=
  let '(r, g, b) := c in
  let R_ := _srgb_to_lin (IZR r) in
  let G_ := _srgb_to_lin (IZR g) in
  let B_ := _srgb_to_lin (IZR b) in
  0.2126 * R_ + 0.7152 * G_ + 0.0722 * B_.

Definition contrast_ratio (rgb1 rgb2 : rgb) : R :=
  let L1 := relative_luminance rgb1 in
  let L2 := relative_luminance rgb2 in
  let '(L1, L2) := if Rge_dec L1 L2 then (L1, L2) else (L2, L1) in
  (L1 + 0.05) / (L2 + 0.05).

Definition ideal_text_color (bg : rgb) : rgb :=
  let black := (0, 0, 0)%Z in
  let white := (255, 255, 255)%Z in
  if Rge_dec (contrast_ratio bg white) (contrast_ratio bg black)
  then white else black.

End Matching.

(** ** [extractor]: dominant colours *)

(** [np.array(img)] for an RGB image: [height] x [width] pixels, flattened
    row by row. *)
Record image : Type := { height : Z; width : Z; pixels : list rgb }.

Definition well_formed_image (img : image) : Prop :=
  0 <= height img /\ 0 <= width img /\
  List.length (pixels img) = Z.to_nat (height img * width img) /\
  Forall valid_rgb (pixels img).

Definition non_empty_image (img : image) : Prop :=
  0 < height img /\ 0 < width img.

(** Binary64 arithmetic of the scale factor.  [float_of_int] is exact for
    magnitudes below 2^53; [int_of_float] is Python's [int], truncation
    towards zero (the scale is a quotient by a non-zero integer, hence
    finite). *)
Definition float_of_int (z : Z) : PrimFloat.float :=
  if z <? 0 then PrimFloat.opp (PrimFloat.of_uint63 (Uint63.of_Z (- z)))
  else PrimFloat.of_uint63 (Uint63.of_Z z).

Definition int_of_float (f : PrimFloat.float) : Z :=
  match FloatOps.Prim2SF f with
  | SpecFloat.S754_finite s m e =>
      let v := if 0 <=? e then Z.pos m * 2 ^ e else Z.pos m / 2 ^ (- e) in
      if s then - v else v
  | _ => 0
  end.

(** The [dsize] handed to [cv2.resize]: [(int(w * scale), int(h * scale))]. *)
Definition scaled_size (h w max_side : Z) : Z * Z :=
  let scale := PrimFloat.div (float_of_int max_side) (float_of_int (Z.max h w)) in
  (int_of_float (PrimFloat.mul (float_of_int w) scale),
   int_of_float (PrimFloat.mul (float_of_int h) scale)).

(** [(-weights).argsort()] is modelled by a stable insertion sort of the
    indices; NumPy leaves the order of equal keys open, and nothing below
    depends on it. *)
Fixpoint insert_key (x : Q * nat) (l : list (Q * nat)) : list (Q * nat) :=
  match l with
  | [] => [x]
  | y :: t => if Qle_bool (fst x) (fst y) then x :: l else y :: insert_key x t
  end.

Definition sort_keys (l : list (Q * nat)) : list (Q * nat) :=
  fold_right insert_key [] l.

Definition argsort (keys : list Q) : list nat :=
  map snd (sort_keys (combine keys (seq 0 (List.length keys)))).

(** [np.bincount(labels, minlength=k)]. *)
Definition bincount (labels : list nat) (minlength : nat) : list Z :=
  let n := match labels with
           | [] => minlength
           | _ => Nat.max minlength (S (list_max labels))
           end in
  map (fun j => Z.of_nat (count_occ Nat.eq_dec labels j)) (seq 0 n).

Definition sumZ (l : list Z) : Z := fold_right Z.add 0 l.
Definition sumQ (l : list Q) : Q := fold_right Qplus (0 # 1)%Q l.

(** [a[idx]] with an index array; an index out of range raises. *)
Definition take {A} (a : list A) (idx : list nat) : option (list A) :=
  mapM (nth_error a) idx.

Section Extractor.
Context {cv : OpenCV} {rng : NumpyRandom}.

(** [cv2.resize] rejects a target size with a dimension that is not
    positive. *)
Definition cv_resize (px : list rgb) (h w w' h' : Z) : option (list rgb) :=
  if (0 <? w') && (0 <? h') then Some (resize_area px h w w' h') else None.

(** The optional downscale; the result is [arr.reshape(-1, 3)]. *)
Definition downscale (img : image) (max_side : Z) : option (list rgb) :=
  let h := height img in
  let w := width img in
  if Z.max h w >? max_side then
    if Z.max h w =? 0 then None
    else
      let '(w', h') := scaled_size h w max_side in
      cv_resize (pixels img) h w w' h'
  else Some (pixels img).

(** Subsampling for clustering speed. *)
Definition subsample (px : list rgb) (sample seed : Z) : option (list rgb) :=
  if Z.of_nat (List.length px) >? sample then
    if sample <? 0 then None
    else take px (rng_choice seed (List.length px) (Z.to_nat sample))
  else Some px.

(** [cv2.kmeans] reads a one-row matrix as a list of scalars, and rejects
    a cluster count that is not positive or exceeds the number of samples. *)
Definition cv_kmeans (data : list rgb) (K : Z) : option (list (list Q)) :=
  let rows := Z.of_nat (List.length data) in
  let N := if rows =? 1 then 3 else rows in
  if (0 <? K) && (K <=? N) then Some (kmeans_centers data K) else None.

(** [x.clip(0, 255).astype(np.uint8)] on one float32 value. *)
Definition clip_uint8 (x : Q) : Z :=
  let lo := if Qle_bool x 0 then (0 # 1)%Q else x in
  let hi := if Qle_bool 255 lo then (255 # 1)%Q else lo in
  Qfloor hi.

(** A centre row against the three channels of a pixel, under NumPy
    broadcasting of the last axis. *)
Definition broadcast3 (c : list Z) : option rgb :=
  match c with
  | [x] => Some (x, x, x)
  | [x; y; z] => Some (x, y, z)
  | _ => None
  end.

Definition sqdist (p c : rgb) : Z :=
  let '(r1, g1, b1) := p in
  let '(r2, g2, b2) := c in
  (r1 - r2) ^ 2 + (g1 - g2) ^ 2 + (b1 - b2) ^ 2.

(** [labels = d2.argmin(axis=1)]. *)
Definition assign_labels (frame : list rgb) (centers : list (list Z))
  : option (list nat) :=
  cs <- mapM broadcast3 centers ;;
  mapM (fun p => argmin Z.ltb (map (sqdist p) cs)) frame.

Definition cluster_counts (frame : list rgb) (centers : list (list Z)) (k : Z)
  : option (list Z) :=
  labels <- assign_labels frame centers ;;
  Some (bincount labels (Z.to_nat k)).

Definition normalize (counts : list Z) : list Q :=
  let total := sumZ counts in
  map (fun c => (inject_Z c / inject_Z total)%Q) counts.

Definition kmeans_colors (img : image) (k sample seed max_side : Z)
  : option (list (list Z) * list Q) :=
  frame <- downscale img max_side ;;
  data <- subsample frame sample seed ;;
  centers_f <- cv_kmeans data k ;;
  let centers := map (map clip_uint8) centers_f in
  counts <- cluster_counts frame centers k ;;
  let weights := normalize counts in
  let order := argsort (map Qopp weights) in
  cs <- take centers order ;;
  ws <- take weights order ;;
  Some (cs, ws).

(** The defaults of the signature: [sample=400_000, seed=42, max_side=1024]. *)
Definition kmeans_colors_default (img : image) (k : Z) :=
  kmeans_colors img k 400000 42 1024.

End Extractor.

(** ** The accessibility helpers in binary64

    The same three functions on primitive floats, with Python's float
    power as a parameter, to evaluate the code bit for bit. *)

Module Binary64.
Import PrimFloat.
Local Set Warnings "-inexact-float".
Section Pow.
Variable pow : float -> float -> float.
Local Open Scope float_scope.

Definition _srgb_to_lin (c : float) : float :=
  let c := c / 255 in
  if c <=? 0.04045 * 255 then c / 12.92
  else pow ((c + 0.055 * 255) / (1.055 * 255)) 2.4.

Definition relative_luminance (c : rgb) : float :=
  let '(r, g, b) := c in
  let R_ := _srgb_to_lin (float_of_int r) in
  let G_ := _srgb_to_lin (float_of_int g) in
  let B_ := _srgb_to_lin (float_of_int b) in
  0.2126 * R_ + 0.7152 * G_ + 0.0722 * B_.

Definition contrast_ratio (rgb1 rgb2 : rgb) : float :=
  let L1 := relative_luminance rgb1 in
  let L2 := relative_luminance rgb2 in
  let '(L1, L2) := if L2 <=? L1 then (L1, L2) else (L2, L1) in
  (L1 + 0.05) / (L2 + 0.05).

End Pow.

(** [c / 255 / 12.92], and the double nearest to 2.547987616099071. *)
Definition linear_part (c : float) : float := (c / 255 / 12.92)%float.
Definition black_on_white : float := 0x1.4624754ce116fp+1%float.

End Binary64.

(** ** [deltaE76] on binary32 floats

    [deltaE76] subtracts, squares, adds and takes a square root, all of
    them correctly rounded IEEE operations, so its float32 arithmetic is
    that of [SpecFloat] at precision 24.  The sum over the last axis adds
    the three squares from left to right. *)

Module Binary32.
Import SpecFloat.

Definition prec : Z := 24.
Definition emax : Z := 128.
Definition emin : Z := SpecFloat.emin prec emax.

Definition float32 : Type := spec_float.

Definition add : float32 -> float32 -> float32 := SFadd prec emax.
Definition sub : float32 -> float32 -> float32 := SFsub prec emax.
Definition mul : float32 -> float32 -> float32 := SFmul prec emax.
Definition sqrt : float32 -> float32 := SFsqrt prec emax.

(** [np.float32(n)] for an integer [n]. *)
Definition of_int (n : Z) : float32 := binary_normalize prec emax n 0 false.

(** One row of an [(N,3)] float32 array. *)
Definition lab : Type := (float32 * float32 * float32)%type.

Definition astype_float32 (c : rgb) : lab :=
  let '(x, y, z) := c in (of_int x, of_int y, of_int z).

(** [x ** 2] on a float array is [x * x]. *)
Definition square (x : float32) : float32 := mul x x.

(** One cell of [deltaE76]. *)
Definition deltaE76_cell (p q : lab) : float32 :=
  let '(L1, a1, b1) := p in
  let '(L2, a2, b2) := q in
  sqrt (add (add (square (sub L1 L2)) (square (sub a1 a2))) (square (sub b1 b2))).

Definition deltaE76 (lab1 lab2 : list lab) : list (list float32) :=
  map (fun p => map (fun q => deltaE76_cell p q) lab2) lab1.

(** Neither NaN nor infinite. *)
Definition is_finite (x : float32) : bool :=
  match x with
  | S754_zero _ | S754_finite _ _ _ => true
  | _ => false
  end.

Definition finite_lab (p : lab) : Prop :=
  let '(L, a, b) := p in
  is_finite L = true /\ is_finite a = true /\ is_finite b = true.

(** [x >= 0]: not NaN, sign bit clear. *)
Definition nonneg (x : float32) : bool :=
  match x with
  | S754_zero false | S754_finite false _ _ | S754_infinity false => true
  | _ => false
  end.

(** [x > 0]. *)
Definition is_positive (x : float32) : bool :=
  match x with
  | S754_finite false _ _ | S754_infinity false => true
  | _ => false
  end.

(** [+0.0] and [2.0 ** -100]. *)
Definition pos_zero : float32 := S754_zero false.
Definition tiny : float32 := S754_finite false 8388608 (-123).

(** The sign bit of a float that is not NaN. *)
Definition sign_is (s : bool) (x : float32) : bool :=
  match x with
  | S754_zero s' | S754_finite s' _ _ | S754_infinity s' => Bool.eqb s s'
  | S754_nan => false
  end.

Definition not_nan (x : float32) : bool :=
  match x with S754_nan => false | _ => true end.

(** [x > 0] with an exponent of at least [emin], as every float32 in
    canonical form has. *)
Definition pos_fin (x : float32) : bool :=
  match x with
  | S754_finite false _ e => emin <=? e
  | S754_infinity false => true
  | _ => false
  end.

Definition zero_or_pos (x : float32) : Prop := x = pos_zero \/ pos_fin x = true.

End Binary32.

(** ** Executable stand-ins for the external routines

    The theorems below hold for every [OpenCV] and [NumpyRandom].  To run
    the definitions on concrete inputs the interface is instantiated with
    simple kernels: an opponent-colour encoding for the 8-bit Lab
    transform, nearest-neighbour resampling, the first distinct samples as
    cluster centres, and the first indices as the random choice. *)

Definition simple_lab_8u (p : rgb) : rgb :=
  let '(b, g, r) := p in
  ((r + g + b) / 3, 128 + (r - g) / 2, 128 + (g - b) / 2).

Definition simple_resize (px : list rgb) (h w w' h' : Z) : list rgb :=
  flat_map
    (fun i =>
       map (fun j =>
              nth (Z.to_nat ((Z.of_nat i * h / h') * w + Z.of_nat j * w / w'))
                  px (0, 0, 0))
           (seq 0 (Z.to_nat w')))
    (seq 0 (Z.to_nat h')).

Definition rgb_eq_dec (x y : rgb) : {x = y} + {x <> y}.
Proof. repeat decide equality. Defined.

Definition simple_rows (data : list rgb) : list (list Q) :=
  match data with
  | [(x, y, z)] => [[inject_Z x]; [inject_Z y]; [inject_Z z]]
  | _ => map (fun '(x, y, z) => [inject_Z x; inject_Z y; inject_Z z])
             (nodup rgb_eq_dec data)
  end.

Definition simple_kmeans (data : list rgb) (K : Z) : list (list Q) :=
  let rows := simple_rows data in
  let dflt := if (List.length data =? 1)%nat then [0%Q] else [0%Q; 0%Q; 0%Q] in
  map (fun j => nth (j mod List.length rows) rows dflt) (seq 0 (Z.to_nat K)).

Definition simple_choice (seed : Z) (n size : nat) : list nat :=
  seq 0 (Nat.min size n).



(** Two small images: the 2x2 red and blue square, and a single row of
    two pixels. *)
Definition red_blue_2x2 : image :=
  {| height := 2; width := 2;
     pixels := [(255, 0, 0); (255, 0, 0); (0, 0, 255); (0, 0, 255)] |}.

Definition two_pixels : image :=
  {| height := 1; width := 2; pixels := [(255, 0, 0); (0, 0, 255)] |}.

(** A grey strip, one pixel high and 2000 wide. *)
Definition thin_image : image :=
  {| height := 1; width := 2000; pixels := repeat (128, 128, 128) 2000 |}.

(** Width and height of the frame that is clustered and weighted. *)
Definition frame_size (img : image) (max_side : Z) : Z * Z :=
  if Z.max (height img) (width img) >? max_side
  then scaled_size (height img) (width img) max_side
  else (width img, height img).

(** ** [ui] and [main]: contrast tiers and ordering *)

Section Tiers.
Local Open Scope R_scope.

Definition wcag_class (ratio : R) : string :=
  if Rge_dec ratio 7.0 then "ok"%string
  else if Rge_dec ratio 4.5 then "ok"%string
  else if Rge_dec ratio 3.0 then "warn"%string
  else "fail"%string.

Definition wcag_label (ratio : R) : string :=
  if Rge_dec ratio 7.0 then "AAA"%string
  else if Rge_dec ratio 4.5 then "AA"%string
  else if Rge_dec ratio 3.0 then "AA (Large)"%string
  else "N/A"%string.

(** Python's [max(a, b)]: the first argument unless the second is larger. *)
Definition py_max (a b : R) : R := if Rgt_dec b a then b else a.

(** The tier computed inline by [main] for one extracted colour. *)
Definition main_wcag (c : rgb) : string :=
  let cr_b := contrast_ratio c (0, 0, 0)%Z in
  let cr_w := contrast_ratio c (255, 255, 255)%Z in
  let best_cr := py_max cr_b cr_w in
  if Rge_dec best_cr 7 then "AAA"%string
  else if Rge_dec best_cr 4.5 then "AA"%string
  else if Rge_dec best_cr 3 then "AA (Large)"%string
  else "N/A"%string.

End Tiers.

(** [sorted(items, key=...)]: Python's sort is stable, so its result is
    the one of a stable insertion sort. *)
Fixpoint insert_by {A} (key : A -> Q) (x : A) (l : list A) : list A :=
  match l with
  | [] => [x]
  | y :: t => if Qle_bool (key x) (key y) then x :: l else y :: insert_by key x t
  end.

Definition sorted_by {A} (key : A -> Q) (l : list A) : list A :=
  fold_right (insert_by key) [] l.

(** The ["weight (desc)"] ordering of [main] on (centre, weight) pairs. *)
Definition sort_by_weight_desc (items : list (list Z * Q)) : list (list Z * Q) :=
  sorted_by (fun it => Qopp (snd it)) items.

(** ** [tailwind]: the reference palette *)

(** *** A backtracking matcher for the regular expressions of [re]

    Alternatives are tried left to right, [Star] is greedy, and
    [re_search] returns the captures of the leftmost match. *)

Inductive regex : Type :=
| Chr (c : ascii)
| Dot
| Cls (cs : list ascii)
| Str (w : string)
| Seq (r1 r2 : regex)
| Alt (r1 r2 : regex)
| Star (r : regex)
| Grp (n : nat) (r : regex).

Definition captures : Type := list (nat * string).

Fixpoint strip_prefix (w s : string) : option string :=
  match w with
  | EmptyString => Some s
  | String c w' =>
      match s with
      | String d s' => if Ascii.eqb c d then strip_prefix w' s' else None
      | EmptyString => None
      end
  end.

Definition newline : ascii := ascii_of_nat 10.

Fixpoint star_loop (fuel : nat)
    (step : string -> captures -> (string -> captures -> option captures)
            -> option captures)
    (s : string) (caps : captures)
    (k : string -> captures -> option captures) : option captures :=
  match fuel with
  | O => k s caps
  | S f =>
      match step s caps
              (fun s' caps' =>
                 if (String.length s' <? String.length s)%nat
                 then star_loop f step s' caps' k else None) with
      | Some r => Some r
      | None => k s caps
      end
  end.

Fixpoint re_match (r : regex) (s : string) (caps : captures)
    (k : string -> captures -> option captures) : option captures :=
  match r with
  | Chr c =>
      match s with
      | String d t => if Ascii.eqb c d then k t caps else None
      | EmptyString => None
      end
  | Dot =>
      match s with
      | String d t => if Ascii.eqb d newline then None else k t caps
      | EmptyString => None
      end
  | Cls cs =>
      match s with
      | String d t => if existsb (Ascii.eqb d) cs then k t caps else None
      | EmptyString => None
      end
  | Str w =>
      match strip_prefix w s with
      | Some t => k t caps
      | None => None
      end
  | Seq r1 r2 => re_match r1 s caps (fun s' caps' => re_match r2 s' caps' k)
  | Alt r1 r2 =>
      match re_match r1 s caps k with
      | Some c => Some c
      | None => re_match r2 s caps k
      end
  | Star r1 => star_loop (S (String.length s)) (re_match r1) s caps k
  | Grp n r1 =>
      re_match r1 s caps
        (fun s' caps' =>
           k s' ((n, substring 0 (String.length s - String.length s') s) :: caps'))
  end.

Fixpoint re_search (r : regex) (s : string) : option captures :=
  match re_match r s [] (fun _ caps => Some caps) with
  | Some caps => Some caps
  | None =>
      match s with
      | String _ t => re_search r t
      | EmptyString => None
      end
  end.

Fixpoint group (n : nat) (caps : captures) : option string :=
  match caps with
  | [] => None
  | (m, w) :: t => if (m =? n)%nat then Some w else group n t
  end.

(** The pattern of [_extract_js_object], a raw string in which every
    backslash is doubled: each [\\] stands for one literal backslash, so
    [\\.] is a backslash followed by any character, [\\s*] a backslash
    followed by letters s, and [[\\s\\S]] the class of the backslash and
    the letters s and S. *)
Definition js_object_pattern : regex :=
  Seq (Grp 1 (Alt (Seq (Str "module\")
                    (Seq Dot
                    (Seq (Str "exports\")
                    (Seq (Star (Chr "s")) (Chr "=")))))
                  (Seq (Str "export\")
                    (Seq (Chr "s")
                    (Seq (Star (Chr "s")) (Str "default"))))))
      (Seq (Chr "\")
      (Seq (Star (Chr "s"))
           (Grp 2 (Seq (Str "\{")
                  (Seq (Star (Cls ["\"; "s"; "S"]%char))
                       (Str "\}")))))).

(** [None] is the [ValueError] raised when nothing matches. *)
Definition _extract_js_object (js_text : string) : option string :=
  caps <- re_search js_object_pattern js_text ;;
  group 2 caps.

(** *** Palettes *)

(** [Dict[str, Dict[int, str]]], in insertion order. *)
Definition palette : Type := list (string * list (Z * string)).

Definition FALLBACK_TAILWIND : palette :=
  [ ("slate", [(200, "#e2e8f0"); (400, "#94a3b8"); (600, "#475569")]);
    ("gray", [(200, "#e5e7eb"); (400, "#9ca3af"); (600, "#4b5563")]);
    ("zinc", [(200, "#e4e4e7"); (400, "#a1a1aa"); (600, "#52525b")]);
    ("neutral", [(200, "#e5e5e5"); (400, "#a3a3a3"); (600, "#525252")]);
    ("stone", [(200, "#e7e5e4"); (400, "#a8a29e"); (600, "#57534e")]);
    ("red", [(200, "#fecaca"); (400, "#f87171"); (600, "#dc2626")]);
    ("orange", [(200, "#fed7aa"); (400, "#fb923c"); (600, "#ea580c")]);
    ("amber", [(200, "#fde68a"); (400, "#f59e0b"); (600, "#d97706")]);
    ("yellow", [(200, "#fef08a"); (400, "#facc15"); (600, "#ca8a04")]);
    ("lime", [(200, "#d9f99d"); (400, "#84cc16"); (600, "#65a30d")]);
    ("green", [(200, "#bbf7d0"); (400, "#22c55e"); (600, "#16a34a")]);
    ("emerald", [(200, "#a7f3d0"); (400, "#10b981"); (600, "#059669")]);
    ("teal", [(200, "#99f6e4"); (400, "#14b8a6"); (600, "#0d9488")]);
    ("cyan", [(200, "#a5f3fc"); (400, "#22d3ee"); (600, "#0891b2")]);
    ("sky", [(200, "#bae6fd"); (400, "#38bdf8"); (600, "#0284c7")]);
    ("blue", [(200, "#bfdbfe"); (400, "#60a5fa"); (600, "#2563eb")]);
    ("indigo", [(200, "#c7d2fe"); (400, "#818cf8"); (600, "#4f46e5")]);
    ("violet", [(200, "#ddd6fe"); (400, "#a78bfa"); (600, "#7c3aed")]);
    ("purple", [(200, "#e9d5ff"); (400, "#c084fc"); (600, "#9333ea")]);
    ("fuchsia", [(200, "#fad6ff"); (400, "#e879f9"); (600, "#c026d3")]);
    ("pink", [(200, "#fbcfe8"); (400, "#f472b6"); (600, "#db2777")]);
    ("rose", [(200, "#fecdd3"); (400, "#fb7185"); (600, "#e11d48")]) ]%string.

Definition CDN_CANDIDATES : list string :=
  [ "https://cdn.jsdelivr.net/npm/tailwindcss@3.4.10/src/public/colors.js";
    "https://unpkg.com/tailwindcss@3.4.10/src/public/colors.js";
    "https://raw.githubusercontent.com/tailwindlabs/tailwindcss/master/src/public/colors.js"
  ]%string.

(** A value of the parsed object: a nested object, whose members are kept
    as (key, [str(value)]) pairs, or anything else. *)
Inductive jvalue : Type :=
| JObject (members : list (string * string))
| JOther.

(** The network and the JSON5 parser.  [http_get url] is the body of a
    successful response, [None] when [requests.get] or
    [raise_for_status] raises; [json5_loads text] is the parsed object,
    [None] when parsing raises or the value has no [items]. *)
Class Web : Type := {
  http_get : string -> option string;
  json5_loads : string -> option (list (string * jvalue))
}.

(** Digits of [int(s)] in base ten, with the underscore rule of
    [int16_digits]. *)
Definition dec_val (c : ascii) : option Z :=
  let n := ascii_code c in
  if (48 <=? n) && (n <=? 57) then Some (n - 48) else None.

Fixpoint int10_digits (s : string) (acc : Z) (started seen : bool) : option Z :=
  match s with
  | EmptyString => if started && seen then Some acc else None
  | String c rest =>
      if Ascii.eqb c "_" then
        if started then int10_digits rest acc false seen else None
      else
        match dec_val c with
        | Some d => int10_digits rest (10 * acc + d) true true
        | None => None
        end
  end.

(** [int(s)] on an ASCII string. *)
Definition int10 (s : string) : option Z :=
  match strip_space s with
  | String "+" rest => int10_digits rest 0 false false
  | String "-" rest => option_map Z.opp (int10_digits rest 0 false false)
  | t => int10_digits t 0 false false
  end.

(** [d[k] = v] on a dict kept in insertion order. *)
Fixpoint dict_set {K V} (eqb : K -> K -> bool) (k : K) (v : V)
    (d : list (K * V)) : list (K * V) :=
  match d with
  | [] => [(k, v)]
  | (k', v') :: t =>
      if eqb k' k then (k, v) :: t else (k', v') :: dict_set eqb k v t
  end.

(** [d.pop(k, None)]. *)
Definition dict_pop {K V} (eqb : K -> K -> bool) (k : K) (d : list (K * V))
  : list (K * V) :=
  filter (fun kv => negb (eqb (fst kv) k)) d.

(** [{int(s): str(hx) for s, hx in shades.items()}]. *)
Fixpoint int_keys (members : list (string * string)) (acc : list (Z * string))
  : option (list (Z * string)) :=
  match members with
  | [] => Some acc
  | (s, hx) :: t => n <- int10 s ;; int_keys t (dict_set Z.eqb n hx acc)
  end.

(** The body of the [try] block after parsing. *)
Fixpoint keep_objects (raw : list (string * jvalue))
  : option palette :=
  match raw with
  | [] => Some []
  | (name, JObject members) :: t =>
      shades <- int_keys members [] ;;
      rest <- keep_objects t ;;
      Some ((name, shades) :: rest)
  | (_, JOther) :: t => keep_objects t
  end.

Definition drop_aliases (p : palette) : palette :=
  dict_pop String.eqb "blueGray"%string
    (dict_pop String.eqb "warmGray"%string
       (dict_pop String.eqb "lightBlue"%string p)).

Section Fetch.
Context {web : Web}.

(** One pass of the loop body; [None] is any exception, which the loop
    swallows. *)
Definition try_url (url : string) : option palette :=
  text <- http_get url ;;
  obj_text <- _extract_js_object text ;;
  raw <- json5_loads obj_text ;;
  p <- keep_objects raw ;;
  Some (drop_aliases p).

Fixpoint fetch_from (urls : list string) : palette :=
  match urls with
  | [] => FALLBACK_TAILWIND
  | url :: rest =>
      match try_url url with
      | Some p => p
      | None => fetch_from rest
      end
  end.

Definition fetch_tailwind_full_palette : palette := fetch_from CDN_CANDIDATES.

End Fetch.

Section Build.
Context {cv : OpenCV}.

(** The two lists filled by the nested loops, entry by entry. *)
Definition palette_entries (p : palette) : list TWEntry :=
  flat_map (fun '(name, shades) =>
              map (fun '(shade, hx) =>
                     {| tw_name := name; tw_shade := shade; tw_hex := hx |})
                  shades) p.

Definition build_entries_and_lab (p : palette)
  : option (list TWEntry * list lab) :=
  let entries := palette_entries p in
  rgbs <- mapM (fun e => hex_to_rgb (tw_hex e)) entries ;;
  rgb_arr <- np_array_uint8 rgbs ;;
  lab_arr <- rgb_to_lab rgb_arr ;;
  Some (entries, lab_arr).

Definition build_tailwind_entries_and_lab_remote {web : Web}
  : option (list TWEntry * list lab) :=
  build_entries_and_lab fetch_tailwind_full_palette.

End Build.

(** ** Ranges and sample data used below *)

Fixpoint zrange (n : nat) (start : Z) : list Z :=
  match n with
  | O => []
  | S m => start :: zrange m (start + 1)
  end.

(** The widths 1025 .. 65535. *)
Definition wide_sides : list Z := zrange (Z.to_nat 64511) 1025.

(** [int(w * (1024 / w))]. *)
Definition long_side (w : Z) : Z :=
  int_of_float
    (PrimFloat.mul (float_of_int w)
       (PrimFloat.div (float_of_int 1024) (float_of_int w))).

(** [c in s]. *)
Fixpoint has_char (c : ascii) (s : string) : bool :=
  match s with
  | EmptyString => false
  | String d t => Ascii.eqb c d || has_char c t
  end.

(** A page as the CDNs serve it. *)
Definition colors_js : string :=
  "module.exports = { inherit: 'inherit', red: { 500: '#ef4444' } }".

Definition sample_web : Web := {|
  http_get := fun _ => Some colors_js;
  json5_loads := fun _ => None
|}.

(** * Verification *)

(** ** Hex round trips *)

Section HexFacts.

Definition all_ascii : list ascii := map ascii_of_nat (seq 0 256).

Lemma all_ascii_complete (c : ascii) : In c all_ascii.
Proof.
  unfold all_ascii. rewrite <- (ascii_nat_embedding c).
  apply in_map, in_seq. pose proof (nat_ascii_bounded c). lia.
Qed.

Definition all_uint8 : list Z := map Z.of_nat (seq 0 256).

Lemma all_uint8_complete (n : Z) : is_uint8 n -> In n all_uint8.
Proof.
  intros [Hlo Hhi]. unfold all_uint8. rewrite <- (Z2Nat.id n Hlo).
  apply in_map, in_seq. lia.
Qed.

(** A channel prints as two hex digits that read back as the channel. *)
Definition channel_ok (n : Z) : bool :=
  match format_02x n with
  | String a (String b EmptyString) =>
      is_hex_digit a && is_hex_digit b &&
      match int16 (String a (String b EmptyString)) with
      | Some m => m =? n
      | None => false
      end
  | _ => false
  end.

Lemma channel_ok_all : forallb channel_ok all_uint8 = true.
Proof. vm_compute. reflexivity. Qed.

Lemma format_02x_channel (n : Z) :
  is_uint8 n ->
  exists a b, format_02x n = String a (String b EmptyString) /\
              is_hex_digit a = true /\
              int16 (String a (String b EmptyString)) = Some n.
Proof.
  intros Hn. pose proof channel_ok_all as Hall.
  rewrite forallb_forall in Hall.
  specialize (Hall n (all_uint8_complete n Hn)). unfold channel_ok in Hall.
  destruct (format_02x n) as [|a [|b [|? ?]]]; try discriminate.
  exists a, b. apply andb_prop in Hall as [Hab Hint].
  apply andb_prop in Hab as [Ha _].
  destruct (int16 (String a (String b EmptyString))) as [m|]; try discriminate.
  apply Z.eqb_eq in Hint. subst m. auto.
Qed.

(** Two hex digits read as a channel that prints as their lower case. *)
Definition digits_ok (a b : ascii) : bool :=
  if is_hex_digit a && is_hex_digit b then
    match int16 (String a (String b EmptyString)) with
    | Some n =>
        String.eqb (format_02x n)
                   (String (lower_char a) (String (lower_char b) EmptyString))
    | None => false
    end
  else true.

Lemma digits_ok_all :
  forallb (fun a => forallb (digits_ok a) all_ascii) all_ascii = true.
Proof. vm_compute. reflexivity. Qed.

Lemma int16_two_digits (a b : ascii) :
  is_hex_digit a = true -> is_hex_digit b = true ->
  exists n, int16 (String a (String b EmptyString)) = Some n /\
            format_02x n =
            String (lower_char a) (String (lower_char b) EmptyString).
Proof.
  intros Ha Hb. pose proof digits_ok_all as Hall.
  rewrite forallb_forall in Hall.
  specialize (Hall a (all_ascii_complete a)).
  rewrite forallb_forall in Hall.
  specialize (Hall b (all_ascii_complete b)).
  unfold digits_ok in Hall. rewrite Ha, Hb in Hall. simpl in Hall.
  destruct (int16 (String a (String b EmptyString))) as [n|]; try discriminate.
  exists n. split; [reflexivity|]. now apply String.eqb_eq.
Qed.

Lemma hex_digit_not_hash (a : ascii) : is_hex_digit a = true -> is_hash a = false.
Proof.
  intros Ha. unfold is_hash. destruct (Ascii.eqb_spec a "#"); [|reflexivity].
  subst a. discriminate Ha.
Qed.

Lemma lower_hash : lower_char "#" = "#"%char.
Proof. reflexivity. Qed.

End HexFacts.

(** C10. Hex encoding and decoding are mutually inverse: decoding the
    encoding of a colour with channels in [0,255] gives the colour back, and
    encoding the decoding of a well-formed ["#rrggbb"] literal gives the
    literal in lower case. *)
Theorem hex_round_trip (c : rgb) (s : string) :
  valid_rgb c -> well_formed_hex s = true ->
  hex_to_rgb (rgb_to_hex c) = Some c /\
  option_map rgb_to_hex (hex_to_rgb s) = Some (lower s).
Proof.
  intros Hc Hs. split.
  - destruct c as [[r g] b]. destruct Hc as (Hr & Hg & Hb).
    destruct (format_02x_channel r Hr) as (r1 & r2 & Er & Hr1 & Ir).
    destruct (format_02x_channel g Hg) as (g1 & g2 & Eg & _ & Ig).
    destruct (format_02x_channel b Hb) as (b1 & b2 & Eb & _ & Ib).
    unfold rgb_to_hex, hex_to_rgb. rewrite Er, Eg, Eb. cbn [append lstrip_by].
    change (is_hash "#") with true. cbn iota.
    rewrite (hex_digit_not_hash r1 Hr1).
    unfold slice2. cbn [substring]. rewrite Ir, Ig, Ib. reflexivity.
  - destruct s as [|h [|a [|b [|c' [|d [|e [|f [|? ?]]]]]]]]; try discriminate.
    unfold well_formed_hex in Hs. apply andb_prop in Hs as [Hh Hs].
    apply Ascii.eqb_eq in Hh. subst h. cbn [forallb] in Hs.
    repeat match type of Hs with
           | (_ && _)%bool = true => apply andb_prop in Hs as [? Hs]
           end.
    destruct (int16_two_digits a b) as (n1 & I1 & F1); trivial.
    destruct (int16_two_digits c' d) as (n2 & I2 & F2); trivial.
    destruct (int16_two_digits e f) as (n3 & I3 & F3); trivial.
    unfold hex_to_rgb. cbn [lstrip_by]. change (is_hash "#") with true. cbn iota.
    rewrite (hex_digit_not_hash a) by trivial.
    unfold slice2. cbn [substring]. rewrite I1, I2, I3. cbn [bind option_map].
    unfold rgb_to_hex. rewrite F1, F2, F3. cbn [append lower].
    rewrite lower_hash. reflexivity.
Qed.

Lemma hex_round_trip_witness :
  hex_to_rgb (rgb_to_hex (239, 68, 68)) = Some (239, 68, 68) /\
  option_map rgb_to_hex (hex_to_rgb "#EF4444") = Some (lower "#EF4444").
Proof.
  apply (hex_round_trip (239, 68, 68) "#EF4444").
  - unfold valid_rgb, is_uint8. lia.
  - reflexivity.
Defined.

(** ** Accessibility *)

Section ContrastFacts.
Local Open Scope R_scope.

(** After the division by 255 the argument is at most 1, far below the
    threshold [0.04045 * 255]: the power branch is never reached for a
    channel in [0,255]. *)
Lemma srgb_to_lin_linear (c : R) :
  c <= 255 -> _srgb_to_lin c = c / 255 / 12.92.
Proof.
  intros Hc. unfold _srgb_to_lin.
  destruct (Rle_dec (c / 255) (0.04045 * 255)) as [_|Hn]; [reflexivity|].
  exfalso. apply Hn. lra.
Qed.

Lemma IZR_uint8 (z : Z) : is_uint8 z -> 0 <= IZR z <= 255.
Proof. intros [Hlo Hhi]. split; apply IZR_le; assumption. Qed.

Lemma relative_luminance_linear (c : rgb) :
  valid_rgb c ->
  relative_luminance c =
  (0.2126 * IZR (fst (fst c)) + 0.7152 * IZR (snd (fst c))
   + 0.0722 * IZR (snd c)) / 255 / 12.92.
Proof.
  destruct c as [[r g] b]. intros (Hr & Hg & Hb).
  apply IZR_uint8 in Hr, Hg, Hb. unfold relative_luminance. cbn [fst snd].
  rewrite !srgb_to_lin_linear by lra. lra.
Qed.

Lemma relative_luminance_bounds (c : rgb) :
  valid_rgb c -> 0 <= relative_luminance c <= 1 / 12.92.
Proof.
  intros Hc. rewrite (relative_luminance_linear c Hc).
  destruct c as [[r g] b]. destruct Hc as (Hr & Hg & Hb).
  apply IZR_uint8 in Hr, Hg, Hb. cbn [fst snd]. lra.
Qed.

(** The divisor of [contrast_ratio] is positive on valid colours. *)
Lemma contrast_divisor_pos (c : rgb) :
  valid_rgb c -> 0 < relative_luminance c + 0.05.
Proof. intros Hc. pose proof (relative_luminance_bounds c Hc). lra. Qed.

Lemma contrast_ratio_self (c : rgb) :
  valid_rgb c -> contrast_ratio c c = 1.
Proof.
  intros Hc. pose proof (contrast_divisor_pos c Hc) as Hpos.
  unfold contrast_ratio.
  destruct (Rge_dec (relative_luminance c) (relative_luminance c));
    field; lra.
Qed.

Lemma ratio_ge_1 (x y : R) : 0 <= y -> x >= y -> 1 <= (x + 0.05) / (y + 0.05).
Proof.
  intros Hy Hxy. apply (Rmult_le_reg_r (y + 0.05)); [lra|].
  unfold Rdiv. rewrite Rmult_assoc, Rinv_l by lra. lra.
Qed.

Lemma ratio_le_max (x y : R) :
  0 <= y -> x <= 1 / 12.92 -> (x + 0.05) / (y + 0.05) <= 823 / 323.
Proof.
  intros Hy Hx. apply (Rmult_le_reg_r (y + 0.05)); [lra|].
  unfold Rdiv at 1. rewrite Rmult_assoc, Rinv_l by lra. lra.
Qed.

(** No pair of valid colours reaches a ratio of 3. *)
Lemma contrast_ratio_upper (c1 c2 : rgb) :
  valid_rgb c1 -> valid_rgb c2 -> contrast_ratio c1 c2 <= 823 / 323.
Proof.
  intros H1 H2.
  pose proof (relative_luminance_bounds c1 H1) as B1.
  pose proof (relative_luminance_bounds c2 H2) as B2.
  unfold contrast_ratio.
  destruct (Rge_dec (relative_luminance c1) (relative_luminance c2));
    apply ratio_le_max; lra.
Qed.

End ContrastFacts.

(** C2. On pure black against pure white [contrast_ratio] returns 823/323
    (about 2.548), not 21: the channel is divided by 255 before it is
    compared with the threshold scaled by 255, so the gamma branch is dead
    and white has luminance 1/12.92. *)
Theorem contrast_ratio_black_white :
  contrast_ratio (0, 0, 0) (255, 255, 255) = (823 / 323)%R /\
  contrast_ratio (0, 0, 0) (255, 255, 255) <> 21%R.
Proof.
  assert (Hb : valid_rgb (0, 0, 0)) by (unfold valid_rgb, is_uint8; lia).
  assert (Hw : valid_rgb (255, 255, 255)) by (unfold valid_rgb, is_uint8; lia).
  assert (E : contrast_ratio (0, 0, 0) (255, 255, 255) = (823 / 323)%R).
  { unfold contrast_ratio.
    rewrite (relative_luminance_linear _ Hb), (relative_luminance_linear _ Hw).
    cbn [fst snd].
    match goal with |- context [Rge_dec ?x ?y] => destruct (Rge_dec x y) as [Hge|_] end.
    - exfalso. lra.
    - lra. }
  split; [exact E|]. rewrite E. lra.
Qed.

(** The same evaluation in binary64, whatever the power function: the
    result is the double nearest to 2.547987616099071, and on each of the
    256 channel values [_srgb_to_lin] returns [c / 255 / 12.92]. *)
Lemma contrast_ratio_black_white_binary64
    (pow : PrimFloat.float -> PrimFloat.float -> PrimFloat.float) :
  Binary64.contrast_ratio pow (0, 0, 0) (255, 255, 255) = Binary64.black_on_white.
Proof. vm_compute. reflexivity. Qed.

Lemma srgb_to_lin_linear_binary64
    (pow : PrimFloat.float -> PrimFloat.float -> PrimFloat.float) (n : Z) :
  is_uint8 n ->
  Binary64._srgb_to_lin pow (float_of_int n) =
  Binary64.linear_part (float_of_int n).
Proof.
  intros Hn. apply all_uint8_complete in Hn.
  unfold all_uint8 in Hn. cbn [seq map] in Hn.
  repeat (destruct Hn as [<- | Hn]; [vm_compute; reflexivity|]).
  destruct Hn.
Qed.

(** C9. For valid colours the contrast ratio does not depend on the order
    of its arguments and is at least 1. *)
Theorem contrast_ratio_sym_ge_1 (c1 c2 : rgb) :
  valid_rgb c1 -> valid_rgb c2 ->
  contrast_ratio c1 c2 = contrast_ratio c2 c1 /\
  (1 <= contrast_ratio c1 c2)%R.
Proof.
  intros H1 H2.
  pose proof (relative_luminance_bounds c1 H1) as B1.
  pose proof (relative_luminance_bounds c2 H2) as B2.
  unfold contrast_ratio.
  destruct (Rge_dec (relative_luminance c1) (relative_luminance c2)) as [G12|G12];
    destruct (Rge_dec (relative_luminance c2) (relative_luminance c1)) as [G21|G21].
  - assert (E : relative_luminance c1 = relative_luminance c2) by lra.
    rewrite E. split; [reflexivity|]. apply ratio_ge_1; lra.
  - split; [reflexivity|]. apply ratio_ge_1; lra.
  - split; [reflexivity|]. apply ratio_ge_1; lra.
  - exfalso. lra.
Qed.

Lemma contrast_ratio_sym_ge_1_witness :
  contrast_ratio (239, 68, 68) (0, 0, 0) = contrast_ratio (0, 0, 0) (239, 68, 68) /\
  (1 <= contrast_ratio (239, 68, 68)%Z (0, 0, 0)%Z)%R.
Proof.
  apply (contrast_ratio_sym_ge_1 (239, 68, 68) (0, 0, 0));
    unfold valid_rgb, is_uint8; lia.
Defined.

(** ** The stand-ins satisfy the interface *)

Section StandIns.

Lemma simple_lab_8u_uint8 (p : rgb) : valid_rgb p -> valid_rgb (simple_lab_8u p).
Proof.
  destruct p as [[b g] r]. unfold valid_rgb, is_uint8, simple_lab_8u.
  intros (Hb & Hg & Hr). Z.div_mod_to_equations. lia.
Qed.

Lemma flat_map_length_const {A B} (f : A -> list B) (n : nat) (l : list A) :
  (forall x, List.length (f x) = n) ->
  List.length (flat_map f l) = (List.length l * n)%nat.
Proof.
  intros Hf. induction l as [|x t IH]; [reflexivity|].
  cbn [flat_map]. rewrite length_app, Hf, IH. reflexivity.
Qed.

Lemma simple_resize_length (px : list rgb) (h w w' h' : Z) :
  0 < w' -> 0 < h' ->
  List.length (simple_resize px h w w' h') = Z.to_nat (h' * w').
Proof.
  intros Hw Hh. unfold simple_resize.
  rewrite (flat_map_length_const _ (Z.to_nat w')).
  - rewrite length_seq. rewrite Z2Nat.inj_mul by lia. reflexivity.
  - intros i. rewrite length_map, length_seq. reflexivity.
Qed.

Lemma simple_kmeans_rows (data : list rgb) (K : Z) :
  0 < K -> List.length (simple_kmeans data K) = Z.to_nat K.
Proof. intros _. unfold simple_kmeans. now rewrite length_map, length_seq. Qed.

Lemma simple_rows_cols (data : list rgb) :
  Forall (fun c => List.length c = if (List.length data =? 1)%nat then 1%nat else 3%nat)
         (simple_rows data).
Proof.
  assert (Hgen : forall l : list rgb,
             Forall (fun c : list Q => List.length c = 3%nat)
                    (map (fun '(x, y, z) => [inject_Z x; inject_Z y; inject_Z z]) l)).
  { intros l. apply Forall_forall. intros c Hc. apply in_map_iff in Hc.
    destruct Hc as ([[x y] z] & <- & _). reflexivity. }
  unfold simple_rows. destruct data as [|[[x y] z] [|q t]].
  - constructor.
  - repeat constructor.
  - apply Hgen.
Qed.

Lemma simple_kmeans_cols (data : list rgb) (K : Z) :
  Forall (fun c => List.length c = if (List.length data =? 1)%nat then 1%nat else 3%nat)
         (simple_kmeans data K).
Proof.
  unfold simple_kmeans. apply Forall_forall. intros c Hc.
  apply in_map_iff in Hc. destruct Hc as (j & <- & _).
  pose proof (simple_rows_cols data) as Hrows. rewrite Forall_forall in Hrows.
  destruct (nth_in_or_default (j mod List.length (simple_rows data))
              (simple_rows data)
              (if (List.length data =? 1)%nat then [0%Q] else [0%Q; 0%Q; 0%Q]))
    as [Hin | ->].
  - now apply Hrows.
  - destruct (List.length data =? 1)%nat; reflexivity.
Qed.

Lemma simple_choice_length (seed : Z) (n size : nat) :
  (size <= n)%nat -> List.length (simple_choice seed n size) = size.
Proof. intros H. unfold simple_choice. rewrite length_seq. lia. Qed.

Lemma simple_choice_range (seed : Z) (n size : nat) :
  (size <= n)%nat -> Forall (fun i => (i < n)%nat) (simple_choice seed n size).
Proof.
  intros H. unfold simple_choice. apply Forall_forall. intros i Hi.
  apply in_seq in Hi. lia.
Qed.

End StandIns.

Definition simple_cv : OpenCV := {|
  bgr2lab_8u := simple_lab_8u;
  bgr2lab_8u_uint8 := simple_lab_8u_uint8;
  bgr2lab_8u_white := eq_refl;
  resize_area := simple_resize;
  resize_area_length := simple_resize_length;
  kmeans_centers := simple_kmeans;
  kmeans_centers_rows := simple_kmeans_rows;
  kmeans_centers_cols := simple_kmeans_cols
|}.

Definition simple_rng : NumpyRandom := {|
  rng_choice := simple_choice;
  rng_choice_length := simple_choice_length;
  rng_choice_range := simple_choice_range
|}.

(** ** Lab conversion *)

Section LabFacts.
Context {cv : OpenCV}.

Lemma astype_uint8_range (z : Z) : is_uint8 (astype_uint8 z).
Proof.
  unfold is_uint8, astype_uint8. pose proof (Z.mod_pos_bound z 256). lia.
Qed.

Lemma astype_uint8_px_valid (c : rgb) : valid_rgb (astype_uint8_px c).
Proof.
  destruct c as [[x y] z]. cbn. repeat split; apply astype_uint8_range.
Qed.

Lemma astype_uint8_id (z : Z) : is_uint8 z -> astype_uint8 z = z.
Proof. intros H. unfold astype_uint8, is_uint8 in *. apply Z.mod_small. lia. Qed.

Lemma astype_uint8_px_id (c : rgb) : valid_rgb c -> astype_uint8_px c = c.
Proof.
  destruct c as [[x y] z]. intros (Hx & Hy & Hz). cbn.
  now rewrite !astype_uint8_id.
Qed.

Lemma astype_uint8_px_idem (c : rgb) :
  astype_uint8_px (astype_uint8_px c) = astype_uint8_px c.
Proof. apply astype_uint8_px_id, astype_uint8_px_valid. Qed.

Lemma reverse_astype_commute (c : rgb) :
  astype_uint8_px (reverse_channels c) = reverse_channels (astype_uint8_px c).
Proof. destruct c as [[x y] z]. reflexivity. Qed.

(** The conversion only sees the residues modulo 256 of its input. *)
Lemma rgb_to_lab_wraps (rgb_arr : list rgb) :
  rgb_to_lab rgb_arr = rgb_to_lab (map astype_uint8_px rgb_arr).
Proof.
  unfold rgb_to_lab. f_equal. f_equal. rewrite !map_map.
  apply map_ext. intros c.
  now rewrite !reverse_astype_commute, astype_uint8_px_idem.
Qed.

(** It fails on the empty batch only. *)
Lemma rgb_to_lab_total (rgb_arr : list rgb) :
  rgb_to_lab rgb_arr = None <-> rgb_arr = [].
Proof.
  unfold rgb_to_lab. destruct rgb_arr as [|c t]; cbn; split; congruence.
Qed.

Lemma rgb_to_lab_length (rgb_arr : list rgb) (out : list lab) :
  rgb_to_lab rgb_arr = Some out -> List.length out = List.length rgb_arr.
Proof.
  unfold rgb_to_lab. destruct rgb_arr as [|c t]; cbn; [discriminate|].
  intros [= <-]. cbn. now rewrite !length_map.
Qed.

(** Every channel of the result is the float image of an 8-bit cell: an
    integer between 0 and 255, so the a and b channels are never negative. *)
Lemma rgb_to_lab_uint8 (rgb_arr : list rgb) (out : list lab) :
  rgb_to_lab rgb_arr = Some out ->
  Forall (fun p => exists q, valid_rgb q /\ p = astype_float32 q) out.
Proof.
  unfold rgb_to_lab. destruct rgb_arr as [|c t]; cbn; [discriminate|].
  intros [= <-]. apply Forall_forall. intros p Hp.
  change (In p (map astype_float32
                  (map bgr2lab_8u
                     (map astype_uint8_px (map reverse_channels (c :: t)))))) in Hp.
  apply in_map_iff in Hp. destruct Hp as (q & <- & Hq).
  apply in_map_iff in Hq. destruct Hq as (u & <- & Hu).
  apply in_map_iff in Hu. destruct Hu as (v & <- & _).
  eexists. split; [|reflexivity]. apply bgr2lab_8u_uint8, astype_uint8_px_valid.
Qed.

End LabFacts.

(** C1. On pure white the conversion returns the 8-bit encoding
    (255, 128, 128): the L channel exceeds 100 and the a and b channels sit
    at 128 instead of 0. *)
Theorem rgb_to_lab_white {cv : OpenCV} :
  exists L a b : R,
    rgb_to_lab [(255, 255, 255)] = Some [(L, a, b)] /\
    (100 < L)%R /\ a = 128%R /\ b = 128%R.
Proof.
  exists 255%R, 128%R, 128%R. split.
  - unfold rgb_to_lab. cbn. rewrite bgr2lab_8u_white. reflexivity.
  - repeat split; lra.
Qed.

(** C8 as stated fails: a batch holding the channel value 256 is converted
    like the batch holding 0 in its place. *)
Lemma rgb_to_lab_accepts_256 :
  ~ valid_rgb (256, 0, 0) /\
  rgb_to_lab (cv := simple_cv) [(256, 0, 0)] =
  rgb_to_lab (cv := simple_cv) [(0, 0, 0)] /\
  rgb_to_lab (cv := simple_cv) [(256, 0, 0)] = Some [(0, 128, 128)%R].
Proof.
  split; [|split].
  - unfold valid_rgb, is_uint8. lia.
  - reflexivity.
  - reflexivity.
Qed.

(** C8, amended. The conversion checks no range: each channel is cast to
    uint8, that is reduced modulo 256, so a batch is converted like the
    batch of its residues, and only the empty batch is rejected. *)
Theorem rgb_to_lab_no_range_check {cv : OpenCV} (rgb_arr : list rgb) :
  rgb_to_lab rgb_arr = rgb_to_lab (map astype_uint8_px rgb_arr) /\
  (rgb_to_lab rgb_arr = None <-> rgb_arr = []).
Proof. split; [apply rgb_to_lab_wraps | apply rgb_to_lab_total]. Qed.

(** ** Distance metrics *)

Section DistanceFacts.
Local Open Scope R_scope.

Lemma sum_sq3_zero (x y z : R) : x ^ 2 + y ^ 2 + z ^ 2 = 0 -> x = 0 /\ y = 0 /\ z = 0.
Proof. intros H. repeat split; nra. Qed.

Lemma sum_sq3_nonneg (x y z : R) : 0 <= x ^ 2 + y ^ 2 + z ^ 2.
Proof.
  pose proof (pow2_ge_0 x). pose proof (pow2_ge_0 y). pose proof (pow2_ge_0 z).
  lra.
Qed.

Lemma sum_sq2_nonneg (x y : R) : 0 <= x ^ 2 + y ^ 2.
Proof. pose proof (pow2_ge_0 x). pose proof (pow2_ge_0 y). lra. Qed.

Lemma deltaE76_cell_nonneg (p q : lab) : 0 <= deltaE76_cell p q.
Proof.
  destruct p as [[L1 a1] b1], q as [[L2 a2] b2]. apply sqrt_pos.
Qed.

Lemma deltaE76_cell_zero (p q : lab) : deltaE76_cell p q = 0 <-> p = q.
Proof.
  destruct p as [[L1 a1] b1], q as [[L2 a2] b2]. unfold deltaE76_cell. split.
  - intros H. apply sqrt_eq_0 in H; [|apply sum_sq3_nonneg].
    apply sum_sq3_zero in H as (H1 & H2 & H3).
    repeat f_equal; lra.
  - intros [= -> -> ->].
    replace ((L2 - L2) ^ 2 + (a2 - a2) ^ 2 + (b2 - b2) ^ 2) with 0 by ring.
    apply sqrt_0.
Qed.

Lemma chroma_nonneg (a b : R) : 0 <= chroma a b.
Proof. apply sqrt_pos. Qed.

Lemma chroma_zero (a b : R) : chroma a b = 0 -> a = 0 /\ b = 0.
Proof.
  unfold chroma. intros H. apply sqrt_eq_0 in H; [|apply sum_sq2_nonneg].
  pose proof (pow2_ge_0 a). pose proof (pow2_ge_0 b). split; nra.
Qed.

Lemma chroma_sq (a b : R) : chroma a b ^ 2 = a ^ 2 + b ^ 2.
Proof.
  unfold chroma. rewrite <- Rsqr_pow2. apply Rsqr_sqrt, sum_sq2_nonneg.
Qed.

Lemma pow7_nonneg (x : R) : 0 <= x -> 0 <= x ^ 7.
Proof. intros H. apply pow_le, H. Qed.

Lemma pow25_7_pos : 0 < 25 ^ 7.
Proof. apply pow_lt. lra. Qed.

(** The ratio under the square roots of [G] and [RC] lies in [0,1):
    its divisor is positive. *)
Lemma ratio7_bounds (x : R) :
  0 <= x -> 0 <= x ^ 7 / (x ^ 7 + 25 ^ 7) < 1.
Proof.
  intros H. pose proof (pow7_nonneg x H) as H7. pose proof pow25_7_pos as H25.
  split.
  - apply Rle_mult_inv_pos; lra.
  - apply (Rmult_lt_reg_r (x ^ 7 + 25 ^ 7)); [lra|].
    unfold Rdiv. rewrite Rmult_assoc, Rinv_l by lra. lra.
Qed.

Lemma sqrt_ratio7_bounds (x : R) :
  0 <= x -> 0 <= sqrt (x ^ 7 / (x ^ 7 + 25 ^ 7)) < 1.
Proof.
  intros H. destruct (ratio7_bounds x H) as [Hlo Hhi]. split.
  - apply sqrt_pos.
  - rewrite <- sqrt_1. apply sqrt_lt_1_alt. lra.
Qed.

Lemma G_factor_bounds (C : R) : 0 <= C -> 0 < G_factor C <= 0.5.
Proof.
  intros H. unfold G_factor. pose proof (sqrt_ratio7_bounds C H). lra.
Qed.

Lemma RC_term_bounds (C : R) : 0 <= C -> 0 <= RC_term C < 2.
Proof.
  intros H. unfold RC_term. pose proof (sqrt_ratio7_bounds C H). lra.
Qed.

Lemma RT_term_abs (h C : R) : 0 <= C -> -2 < RT_term h C < 2.
Proof.
  intros H. unfold RT_term. pose proof (RC_term_bounds C H) as HRC.
  set (s := sin _). pose proof (SIN_bound (2 * (deg2rad 30 * exp (- (((rad2deg h - 275) / 25) ^ 2))))) as Hs.
  fold s in Hs. nra.
Qed.

Lemma T_term_lower (h : R) : 0.07 <= T_term h.
Proof.
  unfold T_term.
  pose proof (COS_bound (h - deg2rad 30)).
  pose proof (COS_bound (2 * h)).
  pose proof (COS_bound (3 * h + deg2rad 6)).
  pose proof (COS_bound (4 * h - deg2rad 63)).
  lra.
Qed.

Lemma SL_term_lower (L : R) : 1 <= SL_term L.
Proof.
  unfold SL_term. pose proof (pow2_ge_0 (L - 50)) as Hsq.
  assert (0 < sqrt (20 + (L - 50) ^ 2)) by (apply sqrt_lt_R0; lra).
  assert (0 <= 0.015 * (L - 50) ^ 2 / sqrt (20 + (L - 50) ^ 2)).
  { apply Rle_mult_inv_pos; [lra | assumption]. }
  lra.
Qed.

(** The quadratic form under the final square root is positive definite
    as soon as the rotation term is below 2 in absolute value. *)
Lemma quad_coeff_pos (RT : R) : -2 < RT < 2 -> 0 < 1 - RT ^ 2 / 4.
Proof.
  intros H.
  assert (0 < (2 - RT) * (2 + RT)) by (apply Rmult_lt_0_compat; lra).
  replace (1 - RT ^ 2 / 4) with ((2 - RT) * (2 + RT) / 4) by field. lra.
Qed.

Lemma quad_form_split (X Y Z RT : R) :
  X ^ 2 + Y ^ 2 + Z ^ 2 + RT * Y * Z =
  X ^ 2 + (Y + RT / 2 * Z) ^ 2 + (1 - RT ^ 2 / 4) * Z ^ 2.
Proof. field. Qed.

Lemma quad_form_nonneg (X Y Z RT : R) :
  -2 < RT < 2 -> 0 <= X ^ 2 + Y ^ 2 + Z ^ 2 + RT * Y * Z.
Proof.
  intros H. rewrite quad_form_split.
  pose proof (quad_coeff_pos RT H) as Hc.
  pose proof (pow2_ge_0 X). pose proof (pow2_ge_0 (Y + RT / 2 * Z)).
  assert (0 <= (1 - RT ^ 2 / 4) * Z ^ 2)
    by (apply Rmult_le_pos; [lra | apply pow2_ge_0]).
  lra.
Qed.

Lemma sq_zero (x : R) : x ^ 2 = 0 -> x = 0.
Proof.
  intros H. replace (x ^ 2) with (x * x) in H by ring.
  now apply Rmult_integral in H as [H|H].
Qed.

Lemma quad_form_zero (X Y Z RT : R) :
  -2 < RT < 2 -> X ^ 2 + Y ^ 2 + Z ^ 2 + RT * Y * Z = 0 ->
  X = 0 /\ Y = 0 /\ Z = 0.
Proof.
  intros H E. rewrite quad_form_split in E.
  pose proof (quad_coeff_pos RT H) as Hc.
  pose proof (pow2_ge_0 X) as HX.
  pose proof (pow2_ge_0 (Y + RT / 2 * Z)) as HY.
  assert (HZ2 : 0 <= (1 - RT ^ 2 / 4) * Z ^ 2)
    by (apply Rmult_le_pos; [lra | apply pow2_ge_0]).
  assert (EZ : (1 - RT ^ 2 / 4) * Z ^ 2 = 0) by lra.
  assert (EX : X ^ 2 = 0) by lra.
  assert (EY : (Y + RT / 2 * Z) ^ 2 = 0) by lra.
  apply Rmult_integral in EZ as [EZ|EZ]; [lra|].
  apply sq_zero in EZ, EX, EY. subst Z. repeat split; lra.
Qed.

Lemma div_zero_inv (x y : R) : y <> 0 -> x / y = 0 -> x = 0.
Proof.
  intros Hy H. apply (Rmult_eq_reg_r (/ y)); [|now apply Rinv_neq_0_compat].
  rewrite Rmult_0_l. exact H.
Qed.

End DistanceFacts.

(** ** Hue angles *)

Section HueFacts.
Local Open Scope R_scope.

Lemma atan_nonpos (t : R) : t <= 0 -> atan t <= 0.
Proof.
  intros [Ht | ->].
  - pose proof (atan_increasing t 0 Ht). rewrite atan_0 in *. lra.
  - rewrite atan_0. lra.
Qed.

Lemma atan_pos (t : R) : 0 < t -> 0 < atan t.
Proof. intros Ht. pose proof (atan_increasing 0 t Ht). rewrite atan_0 in *. lra. Qed.

Lemma arctan2_range (y x : R) : - PI < arctan2 y x <= PI.
Proof.
  pose proof PI_RGT_0 as Hpi. unfold arctan2.
  destruct (Rlt_dec 0 x) as [Hx|Hx].
  - pose proof (atan_bound (y / x)). lra.
  - destruct (Rlt_dec x 0) as [Hx'|Hx'].
    + pose proof (atan_bound (y / x)) as Hb.
      destruct (Rle_dec 0 y) as [Hy|Hy].
      * assert (y / x <= 0).
        { unfold Rdiv. replace 0 with (y * 0) by ring.
          apply Rmult_le_compat_l; [lra|].
          left. now apply Rinv_lt_0_compat. }
        pose proof (atan_nonpos (y / x)). lra.
      * assert (0 < y / x).
        { unfold Rdiv. replace (y * / x) with ((- y) * (- / x)) by ring.
          apply Rmult_lt_0_compat; [lra|].
          pose proof (Rinv_lt_0_compat x Hx'). lra. }
        pose proof (atan_pos (y / x)). lra.
    + destruct (Rlt_dec 0 y); [lra|]. destruct (Rlt_dec y 0); lra.
Qed.

Lemma _atan2_range (y x : R) : 0 <= _atan2 y x < 2 * PI.
Proof.
  pose proof (arctan2_range y x). unfold _atan2.
  destruct (Rlt_dec (arctan2 y x) 0); lra.
Qed.

Lemma chroma_factor (x y : R) :
  x <> 0 -> chroma x y = Rabs x * sqrt (1 + (y / x)²).
Proof.
  intros Hx. unfold chroma.
  replace (x ^ 2 + y ^ 2) with (x² * (1 + (y / x)²)) by (unfold Rsqr; field; exact Hx).
  rewrite sqrt_mult_alt by apply Rle_0_sqr.
  now rewrite sqrt_Rsqr_abs.
Qed.

Lemma sqrt_1_sq_pos (t : R) : 0 < sqrt (1 + t²).
Proof. apply sqrt_lt_R0. pose proof (Rle_0_sqr t). lra. Qed.

(** [arctan2 y x] is the angle of the point [(x, y)]. *)
Lemma arctan2_polar (y x : R) :
  chroma x y * cos (arctan2 y x) = x /\ chroma x y * sin (arctan2 y x) = y.
Proof.
  unfold arctan2.
  destruct (Rlt_dec 0 x) as [Hx|Hx].
  - rewrite chroma_factor by lra. rewrite cos_atan, sin_atan.
    pose proof (sqrt_1_sq_pos (y / x)) as Hs.
    rewrite Rabs_pos_eq by lra. split; field; lra.
  - destruct (Rlt_dec x 0) as [Hx'|Hx'].
    + pose proof (sqrt_1_sq_pos (y / x)) as Hs.
      rewrite chroma_factor by lra. rewrite Rabs_left by lra.
      destruct (Rle_dec 0 y) as [Hy|Hy].
      * rewrite neg_cos, neg_sin, cos_atan, sin_atan. split; field; lra.
      * unfold Rminus. rewrite cos_plus, sin_plus, cos_neg, sin_neg.
        rewrite cos_PI, sin_PI, cos_atan, sin_atan. split; field; lra.
    + assert (x = 0) by lra. subst x. unfold chroma.
      replace (0 ^ 2 + y ^ 2) with (y ^ 2) by ring.
      destruct (Rlt_dec 0 y) as [Hy|Hy].
      * rewrite sqrt_pow2 by lra. rewrite cos_PI2, sin_PI2. split; ring.
      * destruct (Rlt_dec y 0) as [Hy'|Hy'].
        -- rewrite cos_neg, sin_neg, cos_PI2, sin_PI2.
           replace (y ^ 2) with ((- y) ^ 2) by ring.
           rewrite sqrt_pow2 by lra. split; ring.
        -- assert (y = 0) by lra. subst y.
           replace (0 ^ 2) with 0 by ring. rewrite sqrt_0. split; ring.
Qed.

Lemma _atan2_polar (y x : R) :
  chroma x y * cos (_atan2 y x) = x /\ chroma x y * sin (_atan2 y x) = y.
Proof.
  unfold _atan2. destruct (Rlt_dec (arctan2 y x) 0) as [_|_].
  - rewrite cos_plus, sin_plus, cos_2PI, sin_2PI.
    destruct (arctan2_polar y x) as [Hc Hs]. split.
    + transitivity (chroma x y * cos (arctan2 y x)); [ring | exact Hc].
    + transitivity (chroma x y * sin (arctan2 y x)); [ring | exact Hs].
  - apply arctan2_polar.
Qed.

(** Equal chroma and equal hue angle make equal coordinates. *)
Lemma polar_inj (x1 y1 x2 y2 : R) :
  chroma x1 y1 = chroma x2 y2 -> _atan2 y1 x1 = _atan2 y2 x2 ->
  x1 = x2 /\ y1 = y2.
Proof.
  intros Hc Hh.
  destruct (_atan2_polar y1 x1) as [C1 S1].
  destruct (_atan2_polar y2 x2) as [C2 S2].
  rewrite Hc, Hh in C1, S1. split; congruence.
Qed.

Lemma dhp_wrap_range (h1 h2 : R) :
  0 <= h1 < 2 * PI -> 0 <= h2 < 2 * PI -> - PI <= dhp_wrap h1 h2 <= PI.
Proof.
  intros H1 H2. pose proof PI_RGT_0. unfold dhp_wrap.
  destruct (Rgt_dec (h2 - h1) PI);
    match goal with |- context [Rlt_dec ?a ?b] => destruct (Rlt_dec a b) end; lra.
Qed.

Lemma dhp_wrap_zero (h1 h2 : R) :
  0 <= h1 < 2 * PI -> 0 <= h2 < 2 * PI -> dhp_wrap h1 h2 = 0 -> h1 = h2.
Proof.
  intros H1 H2. pose proof PI_RGT_0. unfold dhp_wrap.
  destruct (Rgt_dec (h2 - h1) PI);
    match goal with |- context [Rlt_dec ?a ?b] => destruct (Rlt_dec a b) end; lra.
Qed.

Lemma dhp_wrap_same (h : R) : dhp_wrap h h = 0.
Proof.
  pose proof PI_RGT_0. unfold dhp_wrap.
  replace (h - h) with 0 by ring.
  destruct (Rgt_dec 0 PI); [lra|]. destruct (Rlt_dec 0 (- PI)); lra.
Qed.

(** Swapping the two hues negates the wrapped difference. *)
Lemma dhp_wrap_swap (h1 h2 : R) : dhp_wrap h2 h1 = - dhp_wrap h1 h2.
Proof.
  pose proof PI_RGT_0. unfold dhp_wrap.
  destruct (Rgt_dec (h1 - h2) PI); destruct (Rgt_dec (h2 - h1) PI);
    repeat match goal with |- context [Rlt_dec ?a ?b] => destruct (Rlt_dec a b) end;
    lra.
Qed.

Lemma hp_mean_swap (h1 h2 : R) : hp_mean h2 h1 = hp_mean h1 h2.
Proof.
  unfold hp_mean. rewrite (Rabs_minus_sym h2 h1), (Rplus_comm h2 h1). reflexivity.
Qed.

Lemma sin_half_zero (d : R) : - PI <= d <= PI -> sin (d / 2) = 0 -> d = 0.
Proof.
  intros Hd Hs. pose proof PI_RGT_0.
  assert (d / 2 = 0); [|lra].
  apply sin_inj; [lra | lra |]. now rewrite sin_0.
Qed.

End HueFacts.

(** ** CIEDE2000 *)

Section DeltaE2000Facts.
Local Open Scope R_scope.

Ltac open_radicand :=
  cbv beta iota zeta delta [dE2000_radicand].

Lemma dE2000_radicand_sym (p q : lab) :
  dE2000_radicand p q = dE2000_radicand q p.
Proof.
  destruct p as [[L1 a1] b1], q as [[L2 a2] b2]. open_radicand.
  rewrite (Rplus_comm (chroma a2 b2) (chroma a1 b1)).
  set (G := G_factor _).
  set (C1p := chroma ((1 + G) * a1) b1). set (C2p := chroma ((1 + G) * a2) b2).
  set (h1p := _atan2 b1 _). set (h2p := _atan2 b2 _).
  rewrite (hp_mean_swap h1p h2p), (dhp_wrap_swap h1p h2p).
  rewrite (Rplus_comm C2p C1p), (Rmult_comm C2p C1p), (Rplus_comm L2 L1).
  replace (- dhp_wrap h1p h2p / 2) with (- (dhp_wrap h1p h2p / 2)) by (unfold Rdiv; ring).
  rewrite sin_neg.
  set (s := sin _). set (r := sqrt _). set (RT := RT_term _ _).
  set (SL := SL_term _). set (T := T_term _).
  unfold Rdiv. ring.
Qed.

Lemma dE2000_radicand_nonneg (p q : lab) : 0 <= dE2000_radicand p q.
Proof.
  destruct p as [[L1 a1] b1], q as [[L2 a2] b2]. open_radicand.
  apply quad_form_nonneg, RT_term_abs.
  pose proof (chroma_nonneg ((1 + G_factor ((chroma a1 b1 + chroma a2 b2) / 2)) * a1) b1).
  pose proof (chroma_nonneg ((1 + G_factor ((chroma a1 b1 + chroma a2 b2) / 2)) * a2) b2).
  lra.
Qed.

Lemma dE2000_radicand_same (p : lab) : dE2000_radicand p p = 0.
Proof.
  destruct p as [[L1 a1] b1]. open_radicand.
  rewrite dhp_wrap_same.
  replace (0 / 2) with 0 by field. rewrite sin_0.
  unfold Rminus. rewrite !Rplus_opp_r. unfold Rdiv. ring.
Qed.

Lemma dE2000_radicand_zero (p q : lab) : dE2000_radicand p q = 0 -> p = q.
Proof.
  destruct p as [[L1 a1] b1], q as [[L2 a2] b2]. open_radicand.
  pose proof (chroma_nonneg a1 b1) as Hc1. pose proof (chroma_nonneg a2 b2) as Hc2.
  assert (HG : 0 < G_factor ((chroma a1 b1 + chroma a2 b2) / 2))
    by (apply G_factor_bounds; lra).
  set (G := G_factor _) in *.
  set (C1p := chroma ((1 + G) * a1) b1). set (C2p := chroma ((1 + G) * a2) b2).
  set (h1p := _atan2 b1 _). set (h2p := _atan2 b2 _).
  pose proof (chroma_nonneg ((1 + G) * a1) b1) as HC1. fold C1p in HC1.
  pose proof (chroma_nonneg ((1 + G) * a2) b2) as HC2. fold C2p in HC2.
  pose proof (T_term_lower (hp_mean h1p h2p)) as HT.
  pose proof (SL_term_lower ((L1 + L2) / 2)) as HSL.
  intros E. apply quad_form_zero in E; [|apply RT_term_abs; lra].
  destruct E as (EX & EY & EZ).
  apply div_zero_inv in EX; [|lra].
  apply div_zero_inv in EY; [|lra].
  apply div_zero_inv in EZ.
  2:{ assert (0 <= 0.015 * ((C1p + C2p) / 2) * T_term (hp_mean h1p h2p)).
      { apply Rmult_le_pos; lra. }
      lra. }
  assert (EL : L1 = L2) by lra.
  assert (EC : C1p = C2p) by lra.
  assert (Hab : (1 + G) * a1 = (1 + G) * a2 /\ b1 = b2).
  { apply Rmult_integral in EZ as [EZ|EZ].
    - assert (Hs : sqrt (C1p * C2p) = 0) by lra.
      apply sqrt_eq_0 in Hs; [|apply Rmult_le_pos; lra].
      rewrite <- EC in Hs. apply Rmult_integral in Hs.
      assert (E1 : C1p = 0) by tauto.
      assert (E2 : C2p = 0) by lra.
      apply chroma_zero in E1 as [E1a E1b].
      apply chroma_zero in E2 as [E2a E2b]. split; lra.
    - apply sin_half_zero in EZ;
        [|apply dhp_wrap_range; apply _atan2_range].
      apply dhp_wrap_zero in EZ; try apply _atan2_range.
      apply polar_inj; assumption. }
  destruct Hab as [Ha Hb].
  apply Rmult_eq_reg_l in Ha; [|lra].
  subst. reflexivity.
Qed.

Lemma deltaE2000_cell_zero (p q : lab) : deltaE2000_cell p q = 0 <-> p = q.
Proof.
  unfold deltaE2000_cell. split.
  - intros H. apply sqrt_eq_0 in H; [|apply dE2000_radicand_nonneg].
    now apply dE2000_radicand_zero.
  - intros ->. rewrite dE2000_radicand_same. apply sqrt_0.
Qed.

End DeltaE2000Facts.

(** ** [deltaE76] on binary32 floats *)

Module Binary32Facts.
Import SpecFloat Binary32.

Lemma iter_pos_inv {A} (P : A -> Prop) (f : A -> A) :
  (forall x, P x -> P (f x)) -> forall n x, P x -> P (iter_pos f n x).
Proof.
  intros Hf. induction n as [n IH|n IH|]; intros x Hx; cbn; auto.
Qed.

Lemma shr_1_nonneg (mrs : shr_record) : 0 <= shr_m mrs -> 0 <= shr_m (shr_1 mrs).
Proof.
  destruct mrs as [m r s]. cbn. destruct m as [|[p|p|]|p]; cbn; lia.
Qed.

Lemma shr_nonneg (mrs : shr_record) (e n : Z) :
  0 <= shr_m mrs -> 0 <= shr_m (fst (shr mrs e n)).
Proof.
  intros H. unfold shr. destruct n; cbn; trivial.
  apply (iter_pos_inv (fun x => 0 <= shr_m x)); trivial. apply shr_1_nonneg.
Qed.

Lemma shr_record_of_loc_m (m : Z) (l : location) : shr_m (shr_record_of_loc m l) = m.
Proof. destruct l as [|[]]; reflexivity. Qed.

Lemma shr_fexp_nonneg (m e : Z) (l : location) :
  0 <= m -> 0 <= shr_m (fst (shr_fexp prec emax m e l)).
Proof.
  intros H. unfold shr_fexp. apply shr_nonneg. now rewrite shr_record_of_loc_m.
Qed.

Lemma round_nearest_even_nonneg (m : Z) (l : location) :
  0 <= m -> 0 <= round_nearest_even m l.
Proof.
  intros H. unfold round_nearest_even. destruct l as [|[]]; try lia.
  destruct (Z.even m); lia.
Qed.

Lemma bra_sign (s : bool) (m e : Z) (l : location) :
  0 <= m -> sign_is s (binary_round_aux prec emax s m e l) = true.
Proof.
  intros H. unfold binary_round_aux.
  pose proof (shr_fexp_nonneg m e l H) as H1.
  destruct (shr_fexp prec emax m e l) as [mrs' e']. cbn [fst] in H1.
  pose proof (shr_fexp_nonneg _ e' loc_Exact
                (round_nearest_even_nonneg _ (loc_of_shr_record mrs') H1)) as H2.
  destruct (shr_fexp prec emax _ e' loc_Exact) as [mrs'' e'']. cbn [fst] in H2.
  destruct (shr_m mrs'') as [|p|p]; [| |lia].
  - cbn. apply eqb_reflx.
  - destruct (e'' <=? emax - prec); cbn; apply eqb_reflx.
Qed.


Lemma binary_round_sign (s : bool) (m : positive) (e : Z) :
  sign_is s (binary_round prec emax s m e) = true.
Proof.
  unfold binary_round. destruct (shl_align _ _ _) as [mz ez].
  apply bra_sign. lia.
Qed.

Lemma sign_is_not_nan (s : bool) (x : float32) : sign_is s x = true -> not_nan x = true.
Proof. destruct x; cbn; congruence. Qed.

Lemma sign_false_nonneg (x : float32) : sign_is false x = true -> nonneg x = true.
Proof. destruct x as [[]|[]| |[] m e]; cbn; congruence. Qed.

Lemma binary_normalize_not_nan (m e : Z) (sz : bool) :
  not_nan (binary_normalize prec emax m e sz) = true.
Proof.
  destruct m as [|p|p]; cbn [binary_normalize]; [reflexivity| |];
    eapply sign_is_not_nan, binary_round_sign.
Qed.

Lemma sub32_not_nan (x y : float32) :
  is_finite x = true -> is_finite y = true -> not_nan (sub x y) = true.
Proof.
  destruct x as [sx|sx| |sx mx ex], y as [sy|sy| |sy my ey]; cbn; try discriminate;
    intros _ _; trivial.
  - destruct sx, sy; reflexivity.
  - apply binary_normalize_not_nan.
Qed.

Lemma square32_nonneg (x : float32) : not_nan x = true -> nonneg (square x) = true.
Proof.
  destruct x as [sx|sx| |sx mx ex]; cbn; try discriminate; intros _.
  - now destruct sx.
  - now destruct sx.
  - apply sign_false_nonneg. rewrite xorb_nilpotent. apply bra_sign. lia.
Qed.

Lemma add32_nonneg (x y : float32) :
  nonneg x = true -> nonneg y = true -> nonneg (add x y) = true.
Proof.
  destruct x as [[]|[]| |[] mx ex], y as [[]|[]| |[] my ey]; cbn; try discriminate;
    intros _ _; trivial.
  apply sign_false_nonneg. apply binary_round_sign.
Qed.

Lemma sqrtrem_fst_nonneg (n : Z) : 0 <= n -> 0 <= fst (Z.sqrtrem n).
Proof.
  intros H. pose proof (Z.sqrtrem_spec n H) as Hs.
  destruct (Z.sqrtrem n) as [q r]. cbn. lia.
Qed.

Lemma sqrt32_nonneg (x : float32) : nonneg x = true -> nonneg (sqrt x) = true.
Proof.
  destruct x as [[]|[]| |[] mx ex]; cbn; try discriminate; intros _; trivial.
  apply sign_false_nonneg.
  unfold SFsqrt_core_binary.
  set (m' := match ex - 2 * _ with Z0 => Zpos mx | Zpos _ => _ | Zneg _ => 0 end).
  assert (Hm : 0 <= m').
  { unfold m'. destruct (ex - 2 * _); try lia. apply Z.shiftl_nonneg. lia. }
  pose proof (sqrtrem_fst_nonneg m' Hm) as Hq.
  destruct (Z.sqrtrem m') as [q r]. cbn [fst] in Hq.
  apply bra_sign. exact Hq.
Qed.

Lemma deltaE76_cell32_nonneg (p q : lab) :
  finite_lab p -> finite_lab q -> nonneg (deltaE76_cell p q) = true.
Proof.
  destruct p as [[L1 a1] b1], q as [[L2 a2] b2].
  intros (H1 & H2 & H3) (H4 & H5 & H6). unfold deltaE76_cell.
  apply sqrt32_nonneg. repeat apply add32_nonneg; apply square32_nonneg;
    now apply sub32_not_nan.
Qed.

Lemma sub32_self (x : float32) : is_finite x = true -> sub x x = pos_zero.
Proof.
  destruct x as [[]|[]| |s m e]; try discriminate; intros _; try reflexivity.
  unfold sub, SFsub. rewrite Z.min_id. unfold shl_align. rewrite Z.sub_diag.
  reflexivity.
Qed.

Lemma deltaE76_cell32_same (p : lab) : finite_lab p -> deltaE76_cell p p = pos_zero.
Proof.
  destruct p as [[L a] b]. intros (H1 & H2 & H3). unfold deltaE76_cell.
  rewrite !sub32_self by assumption. reflexivity.
Qed.


(** *** Strict positivity above the underflow threshold *)

Lemma pos_fin_positive (x : float32) : pos_fin x = true -> is_positive x = true.
Proof. destruct x as [[]|[]| |[] m e]; cbn; congruence. Qed.

Lemma iter_pos_nat {A} (f : A -> A) (n : positive) (x : A) :
  iter_pos f n x = Nat.iter (Pos.to_nat n) f x.
Proof.
  revert x. induction n as [n IH|n IH|]; intros x; cbn [iter_pos].
  - rewrite !IH, Pos2Nat.inj_xI.
    replace (S (2 * Pos.to_nat n)) with (S (Pos.to_nat n + Pos.to_nat n)) by lia.
    rewrite Nat.iter_succ_r, Nat.iter_add. reflexivity.
  - rewrite !IH, Pos2Nat.inj_xO.
    replace (2 * Pos.to_nat n)%nat with (Pos.to_nat n + Pos.to_nat n)%nat by lia.
    rewrite Nat.iter_add. reflexivity.
  - reflexivity.
Qed.

Lemma digits2_pos_tail (p : positive) :
  (2 <= Pos.to_nat (digits2_pos p))%nat ->
  exists q, (p = xO q \/ p = xI q) /\
            Pos.to_nat (digits2_pos p) = S (Pos.to_nat (digits2_pos q)).
Proof.
  destruct p as [q|q|]; cbn [digits2_pos]; intros H.
  - exists q. split; [now right|]. now rewrite Pos2Nat.inj_succ.
  - exists q. split; [now left|]. now rewrite Pos2Nat.inj_succ.
  - cbn in H. lia.
Qed.

Lemma iter_shr_1_pos (n : nat) (m : positive) (r s : bool) :
  (n < Pos.to_nat (digits2_pos m))%nat ->
  exists m' r' s',
    Nat.iter n shr_1 (Build_shr_record (Zpos m) r s) =
      Build_shr_record (Zpos m') r' s' /\
    Pos.to_nat (digits2_pos m') = (Pos.to_nat (digits2_pos m) - n)%nat.
Proof.
  induction n as [|n IH]; intros Hn.
  - exists m, r, s. split; [reflexivity | lia].
  - destruct IH as (m' & r' & s' & E & Hd); [lia|].
    rewrite Nat.iter_succ, E.
    destruct (digits2_pos_tail m') as (q & [-> | ->] & Hq); [lia| |];
      eexists q, _, _; (split; [reflexivity | lia]).
Qed.

Lemma fexp_spec (x : Z) : fexp prec emax x = Z.max (x - prec) emin.
Proof. reflexivity. Qed.

Lemma shr_fexp_pos (m : positive) (e : Z) (l : location) :
  emin <= e ->
  exists m' r s e',
    shr_fexp prec emax (Zpos m) e l = (Build_shr_record (Zpos m') r s, e') /\
    emin <= e'.
Proof.
  intros He. unfold shr_fexp, shr. rewrite fexp_spec. cbn [Zdigits2].
  destruct (Z.max (Zpos (digits2_pos m) + e - prec) emin - e) as [|k|k] eqn:En.
  - destruct l as [|[]]; cbn; do 4 eexists; (split; [reflexivity | exact He]).
  - assert (Hk : (Pos.to_nat k < Pos.to_nat (digits2_pos m))%nat).
    { unfold prec in En. lia. }
    rewrite iter_pos_nat.
    assert (Hrec : exists r s, shr_record_of_loc (Zpos m) l =
                               Build_shr_record (Zpos m) r s).
    { destruct l as [|[]]; cbn; eauto. }
    destruct Hrec as (r & s & ->).
    destruct (iter_shr_1_pos _ m r s Hk) as (m' & r' & s' & E & _).
    rewrite E. exists m', r', s', (e + Zpos k). split; [reflexivity | lia].
  - destruct l as [|[]]; cbn; do 4 eexists; (split; [reflexivity | exact He]).
Qed.

Lemma round_nearest_even_pos (m : positive) (l : location) :
  exists m', round_nearest_even (Zpos m) l = Zpos m'.
Proof.
  unfold round_nearest_even. destruct l as [|[]]; try (eexists; reflexivity).
  destruct (Z.even (Zpos m)); eexists; reflexivity.
Qed.

Lemma bra_pos (m : positive) (e : Z) (l : location) :
  emin <= e -> pos_fin (binary_round_aux prec emax false (Zpos m) e l) = true.
Proof.
  intros He. unfold binary_round_aux.
  destruct (shr_fexp_pos m e l He) as (m1 & r1 & s1 & e1 & -> & He1).
  cbn [shr_m].
  destruct (round_nearest_even_pos m1 (loc_of_shr_record (Build_shr_record (Zpos m1) r1 s1)))
    as (m2 & ->).
  destruct (shr_fexp_pos m2 e1 loc_Exact He1) as (m3 & r3 & s3 & e3 & -> & He3).
  cbn [shr_m]. destruct (e3 <=? emax - prec); cbn; [|reflexivity].
  now apply Z.leb_le.
Qed.

Lemma binary_round_pos (m : positive) (e : Z) :
  emin <= e -> pos_fin (binary_round prec emax false m e) = true.
Proof.
  intros He. unfold binary_round, shl_align. rewrite fexp_spec.
  destruct (Z.max (Zpos (digits2_pos m) + e - prec) emin - e) eqn:En;
    apply bra_pos; lia.
Qed.

Lemma square32_pos (s : bool) (m : positive) (e : Z) :
  emin <= e + e -> pos_fin (square (S754_finite s m e)) = true.
Proof.
  intros He. unfold square, mul, SFmul. rewrite xorb_nilpotent. now apply bra_pos.
Qed.

Lemma add32_pos_l (x y : float32) :
  pos_fin x = true -> y = pos_zero \/ pos_fin y = true -> pos_fin (add x y) = true.
Proof.
  intros Hx [-> | Hy].
  - destruct x as [[]|[]| |[] mx ex]; try discriminate; exact Hx.
  - destruct x as [[]|[]| |[] mx ex], y as [[]|[]| |[] my ey]; try discriminate;
      try reflexivity.
    cbn in Hx, Hy. apply Z.leb_le in Hx, Hy.
    unfold add, SFadd. cbn [cond_Zopp]. apply binary_round_pos.
    change emin with (-149). apply Z.min_glb; assumption.
Qed.

Lemma add32_pos_r (x y : float32) :
  x = pos_zero \/ pos_fin x = true -> pos_fin y = true -> pos_fin (add x y) = true.
Proof.
  intros [-> | Hx] Hy.
  - destruct y as [[]|[]| |[] my ey]; try discriminate; exact Hy.
  - apply add32_pos_l; auto.
Qed.

Lemma sqrt32_pos (x : float32) : pos_fin x = true -> pos_fin (sqrt x) = true.
Proof.
  destruct x as [[]|[]| |[] mx ex]; try discriminate; intros Hx; [reflexivity|].
  cbn in Hx. apply Z.leb_le in Hx.
  unfold sqrt, SFsqrt, SFsqrt_core_binary. rewrite fexp_spec. cbn [Zdigits2].
  set (e' := Z.min _ (Z.div2 ex)).
  assert (He' : emin <= e' /\ 2 * e' <= ex).
  { assert (H1 : e' <= Z.div2 ex) by apply Z.le_min_r.
    assert (H2 : emin <= e').
    { apply Z.min_glb; [apply Z.le_max_r|]. rewrite Z.div2_div.
      change emin with (-149). Z.div_mod_to_equations; lia. }
    split; [exact H2|]. rewrite Z.div2_div in H1.
    Z.div_mod_to_equations; lia. }
  destruct He' as [He1 He2].
  set (m' := match ex - 2 * e' with Z0 => Zpos mx | Zpos _ => _ | Zneg _ => 0 end).
  assert (Hm : 0 < m').
  { unfold m'. destruct (ex - 2 * e') eqn:E; try lia.
    rewrite Z.shiftl_mul_pow2 by lia.
    apply Z.mul_pos_pos; [lia | apply Z.pow_pos_nonneg; lia]. }
  pose proof (Z.sqrtrem_spec m' (Z.lt_le_incl _ _ Hm)) as Hs.
  destruct (Z.sqrtrem m') as [q r].
  assert (Hq : 0 < q) by nia.
  destruct q as [|q|q]; try lia. now apply bra_pos.
Qed.


(** *** Rows of 8-bit Lab *)

(** The difference of two bytes is [+0] for equal bytes and otherwise a
    finite float whose square stays above the underflow threshold. *)
Definition sub_ok (a b : Z) : bool :=
  match sub (of_int a) (of_int b) with
  | S754_zero false => a =? b
  | S754_finite _ _ e => negb (a =? b) && (-74 <=? e)
  | _ => false
  end.

Lemma sub_ok_all : forallb (fun a => forallb (sub_ok a) all_uint8) all_uint8 = true.
Proof. vm_compute. reflexivity. Qed.

Lemma square_sub_8u (a b : Z) :
  is_uint8 a -> is_uint8 b ->
  (a = b -> square (sub (of_int a) (of_int b)) = pos_zero) /\
  (a <> b -> pos_fin (square (sub (of_int a) (of_int b))) = true).
Proof.
  intros Ha Hb. pose proof sub_ok_all as Hall.
  rewrite forallb_forall in Hall. specialize (Hall a (all_uint8_complete a Ha)).
  rewrite forallb_forall in Hall. specialize (Hall b (all_uint8_complete b Hb)).
  unfold sub_ok in Hall.
  destruct (sub (of_int a) (of_int b)) as [[]|[]| |s m e]; try discriminate.
  - apply Z.eqb_eq in Hall. split; [reflexivity | congruence].
  - apply andb_prop in Hall as [Hne He]. apply negb_true_iff, Z.eqb_neq in Hne.
    apply Z.leb_le in He. split; [congruence|]. intros _.
    apply square32_pos. change emin with (-149). lia.
Qed.

Lemma square_sub_8u_zp (a b : Z) :
  is_uint8 a -> is_uint8 b -> zero_or_pos (square (sub (of_int a) (of_int b))).
Proof.
  intros Ha Hb. destruct (square_sub_8u a b Ha Hb) as [H0 H1].
  destruct (Z.eq_dec a b) as [E|E]; [left | right]; auto.
Qed.

Lemma add32_zp (x y : float32) : zero_or_pos x -> zero_or_pos y -> zero_or_pos (add x y).
Proof.
  intros [-> | Hx] Hy.
  - destruct Hy as [-> | Hy]; [left; reflexivity | right].
    apply add32_pos_r; [now left | exact Hy].
  - right. now apply add32_pos_l.
Qed.

Lemma deltaE76_cell32_8u (x y : rgb) :
  valid_rgb x -> valid_rgb y ->
  (x = y -> deltaE76_cell (astype_float32 x) (astype_float32 y) = pos_zero) /\
  (x <> y -> is_positive (deltaE76_cell (astype_float32 x) (astype_float32 y)) = true).
Proof.
  destruct x as [[L1 a1] b1], y as [[L2 a2] b2].
  intros (H1 & H2 & H3) (H4 & H5 & H6).
  destruct (square_sub_8u L1 L2 H1 H4) as [HL0 HL1].
  destruct (square_sub_8u a1 a2 H2 H5) as [Ha0 Ha1].
  destruct (square_sub_8u b1 b2 H3 H6) as [Hb0 Hb1].
  pose proof (square_sub_8u_zp L1 L2 H1 H4) as ZL.
  pose proof (square_sub_8u_zp a1 a2 H2 H5) as Za.
  pose proof (square_sub_8u_zp b1 b2 H3 H6) as Zb.
  unfold astype_float32, deltaE76_cell. split.
  - intros [= -> -> ->]. rewrite HL0, Ha0, Hb0 by reflexivity. reflexivity.
  - intros Hne. apply pos_fin_positive, sqrt32_pos.
    destruct (Z.eq_dec L1 L2) as [EL|EL].
    + destruct (Z.eq_dec a1 a2) as [Ea|Ea].
      * destruct (Z.eq_dec b1 b2) as [Eb|Eb]; [congruence|].
        apply add32_pos_r; [now apply add32_zp | auto].
      * apply add32_pos_l; [apply add32_pos_r; auto | exact Zb].
    + apply add32_pos_l; [apply add32_pos_l; auto | exact Zb].
Qed.

(** *** Symmetry *)

Lemma square_binary_round (s : bool) (m : positive) (e : Z) :
  square (binary_round prec emax s m e) = square (binary_round prec emax false m e).
Proof.
  unfold binary_round. destruct (shl_align _ _ _) as [mz ez].
  unfold binary_round_aux.
  destruct (shr_fexp prec emax (Zpos mz) ez loc_Exact) as [mrs' e'].
  destruct (shr_fexp prec emax _ e' loc_Exact) as [mrs'' e''].
  destruct (shr_m mrs''); [| destruct (e'' <=? emax - prec) |];
    destruct s; reflexivity.
Qed.

Lemma square_binary_normalize_opp (d e : Z) :
  square (binary_normalize prec emax (- d) e false) =
  square (binary_normalize prec emax d e false).
Proof.
  destruct d as [|p|p]; cbn [Z.opp binary_normalize]; [reflexivity| |].
  - apply square_binary_round.
  - symmetry. apply square_binary_round.
Qed.

Lemma square_sub_swap (x y : float32) : square (sub x y) = square (sub y x).
Proof.
  destruct x as [sx|sx| |sx mx ex], y as [sy|sy| |sy my ey];
    try (destruct sx, sy; reflexivity); try (destruct sx; reflexivity);
    try (destruct sy; reflexivity); try reflexivity.
  unfold sub, SFsub. rewrite (Z.min_comm ey ex).
  set (A := cond_Zopp sx _). set (B := cond_Zopp sy _).
  replace (B - A) with (- (A - B)) by lia.
  apply eq_sym, square_binary_normalize_opp.
Qed.

Lemma deltaE76_cell32_sym (p q : lab) : deltaE76_cell p q = deltaE76_cell q p.
Proof.
  destruct p as [[L1 a1] b1], q as [[L2 a2] b2]. unfold deltaE76_cell.
  now rewrite (square_sub_swap L1 L2), (square_sub_swap a1 a2), (square_sub_swap b1 b2).
Qed.

End Binary32Facts.

Lemma astype_float32_inj (x y : rgb) : astype_float32 x = astype_float32 y <-> x = y.
Proof.
  destruct x as [[x1 x2] x3], y as [[y1 y2] y3]. unfold astype_float32. split.
  - intros [= H1 H2 H3]. apply eq_IZR in H1, H2, H3. congruence.
  - intros [= -> -> ->]. reflexivity.
Qed.

(** C3. For Lab rows as [rgb_to_lab] returns them, with integer channels in
    [0,255], each metric returns its cell, both cells are non-negative, the
    quantity under the final square root of CIEDE2000 is never negative,
    and each distance is zero exactly for identical rows; evaluated on
    binary32 floats, [deltaE76] is [+0.0] for identical rows and positive
    for distinct ones.  On arbitrary finite float32 triples [deltaE76] is
    never negative nor NaN, and [+0.0] on identical triples. *)
Theorem distances_nonneg_zero_iff (x y : rgb) (u v : Binary32.lab) :
  valid_rgb x -> valid_rgb y ->
  Binary32.finite_lab u -> Binary32.finite_lab v ->
  let p := astype_float32 x in
  let q := astype_float32 y in
  let d32 := Binary32.deltaE76_cell (Binary32.astype_float32 x)
                                    (Binary32.astype_float32 y) in
  deltaE76 [p] [q] = [[deltaE76_cell p q]] /\
  deltaE2000 [p] [q] = [[deltaE2000_cell p q]] /\
  (0 <= deltaE76_cell p q)%R /\
  (0 <= dE2000_radicand p q)%R /\
  (0 <= deltaE2000_cell p q)%R /\
  (deltaE76_cell p q = 0%R <-> x = y) /\
  (deltaE2000_cell p q = 0%R <-> x = y) /\
  (d32 = Binary32.pos_zero <-> x = y) /\
  (x <> y -> Binary32.is_positive d32 = true) /\
  Binary32.nonneg (Binary32.deltaE76_cell u v) = true /\
  Binary32.deltaE76_cell u u = Binary32.pos_zero.
Proof.
  intros Hx Hy Hu Hv p q d32.
  destruct (Binary32Facts.deltaE76_cell32_8u x y Hx Hy) as [H0 H1]. fold d32 in H0, H1.
  split; [reflexivity|]. split; [reflexivity|].
  split; [apply deltaE76_cell_nonneg|].
  split; [apply dE2000_radicand_nonneg|].
  split; [apply sqrt_pos|].
  split; [rewrite deltaE76_cell_zero; apply astype_float32_inj|].
  split; [rewrite deltaE2000_cell_zero; apply astype_float32_inj|].
  split; [|split; [exact H1|split]].
  - split; [|exact H0]. intros E. destruct (rgb_eq_dec x y) as [|Hne]; [assumption|].
    apply H1 in Hne. rewrite E in Hne. discriminate Hne.
  - now apply Binary32Facts.deltaE76_cell32_nonneg.
  - now apply Binary32Facts.deltaE76_cell32_same.
Qed.

Lemma distances_nonneg_zero_iff_witness :
  deltaE76 [astype_float32 (255, 128, 128)] [astype_float32 (0, 128, 128)] =
    [[deltaE76_cell (astype_float32 (255, 128, 128)%Z)
       (astype_float32 (0, 128, 128)%Z)]] /\
  deltaE2000 [astype_float32 (255, 128, 128)] [astype_float32 (0, 128, 128)] =
    [[deltaE2000_cell (astype_float32 (255, 128, 128)%Z)
       (astype_float32 (0, 128, 128)%Z)]] /\
  (0 <= deltaE76_cell (astype_float32 (255, 128, 128)%Z)
       (astype_float32 (0, 128, 128)%Z))%R /\
  (0 <= dE2000_radicand (astype_float32 (255, 128, 128)%Z)
       (astype_float32 (0, 128, 128)%Z))%R /\
  (0 <= deltaE2000_cell (astype_float32 (255, 128, 128)%Z)
       (astype_float32 (0, 128, 128)%Z))%R /\
  (deltaE76_cell (astype_float32 (255, 128, 128)%Z)
       (astype_float32 (0, 128, 128)%Z) = 0%R <->
   (255, 128, 128) = (0, 128, 128)) /\
  (deltaE2000_cell (astype_float32 (255, 128, 128)%Z)
       (astype_float32 (0, 128, 128)%Z) = 0%R <->
   (255, 128, 128) = (0, 128, 128)) /\
  (Binary32.deltaE76_cell (Binary32.astype_float32 (255, 128, 128))
     (Binary32.astype_float32 (0, 128, 128)) = Binary32.pos_zero <->
   (255, 128, 128) = (0, 128, 128)) /\
  ((255, 128, 128) <> (0, 128, 128) ->
   Binary32.is_positive
     (Binary32.deltaE76_cell (Binary32.astype_float32 (255, 128, 128))
     (Binary32.astype_float32 (0, 128, 128))) = true) /\
  Binary32.nonneg
    (Binary32.deltaE76_cell (Binary32.tiny, Binary32.pos_zero, Binary32.pos_zero)
       (Binary32.pos_zero, Binary32.pos_zero, Binary32.pos_zero)) = true /\
  Binary32.deltaE76_cell (Binary32.tiny, Binary32.pos_zero, Binary32.pos_zero)
    (Binary32.tiny, Binary32.pos_zero, Binary32.pos_zero) = Binary32.pos_zero.
Proof.
  apply (distances_nonneg_zero_iff (255, 128, 128) (0, 128, 128)
           (Binary32.tiny, Binary32.pos_zero, Binary32.pos_zero)
           (Binary32.pos_zero, Binary32.pos_zero, Binary32.pos_zero)).
  - unfold valid_rgb, is_uint8. lia.
  - unfold valid_rgb, is_uint8. lia.
  - repeat split.
  - repeat split.
Defined.

(** On float32 the square of a small difference underflows: the triples
    [(2^-100, 0, 0)] and [(0, 0, 0)] are distinct, finite and in canonical
    form, and [deltaE76] puts them at distance [+0.0]. *)
Lemma deltaE76_underflow :
  SpecFloat.valid_binary Binary32.prec Binary32.emax Binary32.tiny = true /\
  Binary32.finite_lab (Binary32.tiny, Binary32.pos_zero, Binary32.pos_zero) /\
  (Binary32.tiny, Binary32.pos_zero, Binary32.pos_zero) <>
    (Binary32.pos_zero, Binary32.pos_zero, Binary32.pos_zero) /\
  Binary32.deltaE76
    [(Binary32.tiny, Binary32.pos_zero, Binary32.pos_zero)]
    [(Binary32.pos_zero, Binary32.pos_zero, Binary32.pos_zero)] =
  [[Binary32.pos_zero]].
Proof.
  split; [reflexivity|]. split; [repeat split|]. split; [discriminate | reflexivity].
Qed.

Section MatrixFacts.

Lemma entry_pairwise {A B} (f : A -> A -> B) (xs ys : list A) (i j : nat) :
  entry (map (fun p => map (fun q => f p q) ys) xs) i j =
  match nth_error xs i, nth_error ys j with
  | Some p, Some q => Some (f p q)
  | _, _ => None
  end.
Proof.
  unfold entry. rewrite nth_error_map.
  destruct (nth_error xs i) as [p|]; cbn; [|reflexivity].
  rewrite nth_error_map. now destruct (nth_error ys j).
Qed.

End MatrixFacts.

(** C4. CIEDE2000 is symmetric, cell by cell, and the matrix computed for
    the batches [ys], [xs] is the transpose of the matrix for [xs], [ys]. *)
Theorem deltaE2000_symmetric (p q : lab) (xs ys : list lab) (i j : nat) :
  deltaE2000_cell p q = deltaE2000_cell q p /\
  entry (deltaE2000 xs ys) i j = entry (deltaE2000 ys xs) j i.
Proof.
  assert (Hcell : forall u v, deltaE2000_cell u v = deltaE2000_cell v u).
  { intros u v. unfold deltaE2000_cell. now rewrite dE2000_radicand_sym. }
  split; [apply Hcell|].
  unfold deltaE2000. rewrite !entry_pairwise.
  destruct (nth_error xs i), (nth_error ys j); try reflexivity.
  now rewrite Hcell.
Qed.

(** ** First minimum *)

Section ArgminFacts.
Context {A : Type} (ltb : A -> A -> bool).
Hypothesis ltb_irrefl : forall x, ltb x x = false.
Hypothesis ltb_trans :
  forall x y z, ltb x y = true -> ltb y z = true -> ltb x z = true.
Hypothesis ltb_le_trans :
  forall x y z, ltb x y = true -> ltb z y = false -> ltb x z = true.

(** [k] indexes a minimum of [l], and every earlier cell is strictly
    larger. *)
Definition first_min (l : list A) (k : nat) : Prop :=
  exists m, nth_error l k = Some m /\
    (forall j x, nth_error l j = Some x -> ltb x m = false) /\
    (forall j x, (j < k)%nat -> nth_error l j = Some x -> ltb m x = true).

Lemma nth_error_snoc_cases (l : list A) (x y : A) (j : nat) :
  nth_error (l ++ [x]) j = Some y ->
  nth_error l j = Some y \/ (j = List.length l /\ y = x).
Proof.
  intros H. destruct (Nat.lt_ge_cases j (List.length l)) as [Hj|Hj].
  - left. now rewrite nth_error_app1 in H.
  - right. rewrite nth_error_app2 in H by exact Hj.
    destruct (j - List.length l)%nat as [|n] eqn:E; cbn in H.
    + injection H as <-. split; [lia | reflexivity].
    + now destruct n.
Qed.

Lemma ltb_false_trans (x y z : A) :
  ltb x y = true -> ltb z y = false -> ltb z x = false.
Proof.
  intros Hxy Hzy. destruct (ltb z x) eqn:E; [|reflexivity].
  now rewrite (ltb_trans z x y E Hxy) in Hzy.
Qed.

Lemma argmin_from_spec (l done : list A) (best : A) (besti : nat) :
  first_min done besti -> nth_error done besti = Some best ->
  first_min (done ++ l) (argmin_from ltb best besti (List.length done) l).
Proof.
  revert done best besti. induction l as [|x t IH]; intros done best besti Hmin Hbest.
  - cbn. now rewrite app_nil_r.
  - cbn [argmin_from].
    replace (done ++ x :: t) with ((done ++ [x]) ++ t) by now rewrite <- app_assoc.
    replace (S (List.length done)) with (List.length (done ++ [x]))
      by (rewrite length_app; cbn; lia).
    destruct Hmin as (m & Hm & Hall & Hbefore).
    assert (m = best) by congruence. subst m.
    destruct (ltb x best) eqn:Hx.
    + apply IH.
      * exists x. split; [|split].
        -- rewrite nth_error_app2 by lia. now rewrite Nat.sub_diag.
        -- intros j y Hj. apply nth_error_snoc_cases in Hj as [Hj | [_ ->]].
           ++ apply (ltb_false_trans x best y Hx). eapply Hall, Hj.
           ++ apply ltb_irrefl.
        -- intros j y Hlt Hj. rewrite nth_error_app1 in Hj by exact Hlt.
           apply (ltb_le_trans x best y Hx). eapply Hall, Hj.
      * rewrite nth_error_app2 by lia. now rewrite Nat.sub_diag.
    + assert (Hlen : (besti < List.length done)%nat).
      { apply nth_error_Some. congruence. }
      apply IH.
      * exists best. split; [|split].
        -- rewrite nth_error_app1 by exact Hlen. exact Hbest.
        -- intros j y Hj. apply nth_error_snoc_cases in Hj as [Hj | [_ ->]].
           ++ eapply Hall, Hj.
           ++ exact Hx.
        -- intros j y Hlt Hj. rewrite nth_error_app1 in Hj by lia.
           eapply Hbefore; eassumption.
      * rewrite nth_error_app1 by exact Hlen. exact Hbest.
Qed.

Lemma argmin_spec (l : list A) :
  l <> [] -> exists k, argmin ltb l = Some k /\ first_min l k.
Proof.
  destruct l as [|x t]; [congruence|]. intros _.
  exists (argmin_from ltb x 0%nat 1%nat t). split; [reflexivity|].
  apply (argmin_from_spec t [x] x 0%nat).
  - exists x. split; [reflexivity|]. split.
    + intros [|[|j]] y Hj; cbn in Hj; try discriminate.
      injection Hj as <-. apply ltb_irrefl.
    + intros j y Hlt. lia.
  - reflexivity.
Qed.

Lemma argmin_some (l : list A) (k : nat) :
  argmin ltb l = Some k -> first_min l k.
Proof.
  intros H. destruct l as [|x t]; [discriminate|].
  destruct (argmin_spec (x :: t)) as (k' & Hk' & Hmin); [congruence|].
  congruence.
Qed.

End ArgminFacts.

Section OrderInstances.

Lemma Rltb_irrefl (x : R) : Rltb x x = false.
Proof. unfold Rltb. destruct (Rlt_dec x x); [lra | reflexivity]. Qed.

Lemma Rltb_true (x y : R) : Rltb x y = true <-> (x < y)%R.
Proof. unfold Rltb. destruct (Rlt_dec x y); split; intros; congruence || assumption. Qed.

Lemma Rltb_false (x y : R) : Rltb x y = false <-> (y <= x)%R.
Proof.
  unfold Rltb. destruct (Rlt_dec x y); split; intros; try congruence; lra.
Qed.

Lemma Rltb_trans (x y z : R) : Rltb x y = true -> Rltb y z = true -> Rltb x z = true.
Proof. rewrite !Rltb_true. lra. Qed.

Lemma Rltb_le_trans (x y z : R) : Rltb x y = true -> Rltb z y = false -> Rltb x z = true.
Proof. rewrite !Rltb_true, Rltb_false. lra. Qed.

Lemma Zltb_le_trans (x y z : Z) : (x <? y) = true -> (z <? y) = false -> (x <? z) = true.
Proof. rewrite !Z.ltb_lt, Z.ltb_ge. lia. Qed.

Lemma Zltb_trans (x y z : Z) : (x <? y) = true -> (y <? z) = true -> (x <? z) = true.
Proof. rewrite !Z.ltb_lt. lia. Qed.

End OrderInstances.

(** ** Nearest palette entry *)

(** One distance under the metric chosen by [method]. *)
Definition distance_cell (method : string) (p q : lab) : R :=
  if is_de2000 method then deltaE2000_cell p q else deltaE76_cell p q.

Lemma fits_uint8_px_spec (c : rgb) : fits_uint8_px c = true <-> valid_rgb c.
Proof.
  destruct c as [[r g] b]. unfold fits_uint8_px, fits_uint8, valid_rgb, is_uint8.
  rewrite !andb_true_iff, !Z.leb_le. tauto.
Qed.

Lemma np_array_uint8_some (rows out : list rgb) :
  np_array_uint8 rows = Some out -> out = rows /\ Forall valid_rgb rows.
Proof.
  unfold np_array_uint8. destruct (forallb fits_uint8_px rows) eqn:E; [|discriminate].
  intros [= <-]. split; [reflexivity|]. apply Forall_forall. intros c Hc.
  rewrite forallb_forall in E. now apply fits_uint8_px_spec, E.
Qed.

Lemma np_array_uint8_valid (rows : list rgb) :
  Forall valid_rgb rows -> np_array_uint8 rows = Some rows.
Proof.
  intros H. unfold np_array_uint8.
  replace (forallb fits_uint8_px rows) with true; [reflexivity|].
  symmetry. apply forallb_forall. intros c Hc. apply fits_uint8_px_spec.
  rewrite Forall_forall in H. now apply H.
Qed.



Section NearestFacts.
Context {cv : OpenCV}.

Lemma rgb_to_lab_single (c : rgb) :
  rgb_to_lab [c] =
  Some [astype_float32 (bgr2lab_8u (astype_uint8_px (reverse_channels c)))].
Proof. reflexivity. Qed.

Lemma distances_single (method : string) (p : lab) (tw_lab : list lab) :
  distances method [p] tw_lab = Some (map (distance_cell method p) tw_lab).
Proof.
  unfold distances, distance_cell. destruct (is_de2000 method); reflexivity.
Qed.

(** What is left of [nearest_tailwind] once the colour has passed
    [np.array] and the conversion. *)
Lemma nearest_tailwind_valid (c : rgb) (tw_entries : list TWEntry)
    (tw_lab : list lab) (method : string) :
  valid_rgb c ->
  nearest_tailwind c tw_entries tw_lab method =
  (let c_lab := astype_float32 (bgr2lab_8u (astype_uint8_px (reverse_channels c))) in
   let dists := map (distance_cell method c_lab) tw_lab in
   k <- argmin Rltb dists ;;
   entry <- nth_error tw_entries k ;;
   d <- nth_error dists k ;;
   Some {| name := tw_name entry; shade := tw_shade entry;
           hex := tw_hex entry; deltaE := d |}).
Proof.
  intros Hc. unfold nearest_tailwind.
  rewrite (np_array_uint8_valid [c]) by (constructor; [exact Hc | constructor]).
  cbn [bind]. rewrite rgb_to_lab_single. cbn [bind].
  rewrite distances_single. reflexivity.
Qed.


End NearestFacts.



(** ** Lists with failure *)

Section MapMFacts.
Context {A B : Type} (f : A -> option B).

Lemma mapM_Forall2 (l : list A) (ys : list B) :
  mapM f l = Some ys -> Forall2 (fun x y => f x = Some y) l ys.
Proof.
  revert ys. induction l as [|x t IH]; intros ys H; cbn in H.
  - injection H as <-. constructor.
  - destruct (f x) as [y|] eqn:Hx; cbn in H; [|discriminate].
    destruct (mapM f t) as [ys'|]; cbn in H; [|discriminate].
    injection H as <-. constructor; [exact Hx | now apply IH].
Qed.

Lemma mapM_length (l : list A) (ys : list B) :
  mapM f l = Some ys -> List.length ys = List.length l.
Proof. intros H. symmetry. eapply Forall2_length, mapM_Forall2, H. Qed.

Lemma mapM_total (l : list A) :
  Forall (fun x => exists y, f x = Some y) l -> exists ys, mapM f l = Some ys.
Proof.
  induction 1 as [|x t [y Hy] _ [ys Hys]]; cbn.
  - now exists [].
  - rewrite Hy, Hys. cbn. now exists (y :: ys).
Qed.

Lemma mapM_map (g : A -> B) (l : list A) :
  Forall (fun x => f x = Some (g x)) l -> mapM f l = Some (map g l).
Proof.
  induction 1 as [|x t Hx _ IH]; cbn; [reflexivity|].
  rewrite Hx, IH. reflexivity.
Qed.

End MapMFacts.

Section TakeFacts.
Context {A : Type}.

Lemma take_total (a : list A) (idx : list nat) :
  Forall (fun i => (i < List.length a)%nat) idx ->
  exists out, take a idx = Some out /\ List.length out = List.length idx.
Proof.
  intros H. destruct (mapM_total (nth_error a) idx) as [out Hout].
  - eapply Forall_impl; [|exact H]. intros i Hi. cbn beta in Hi.
    destruct (nth_error a i) eqn:E; [eauto|].
    apply nth_error_None in E. lia.
  - exists out. split; [exact Hout|]. eapply mapM_length, Hout.
Qed.

End TakeFacts.

(** ** Counting *)

Section CountFacts.

Lemma sumZ_cons (x : Z) (t : list Z) : sumZ (x :: t) = x + sumZ t.
Proof. reflexivity. Qed.

(** Over a range of bins a label is counted once when it falls in the
    range and never otherwise. *)
Lemma sum_indicator (x s len : nat) :
  sumZ (map (fun j => if Nat.eq_dec x j then 1 else 0) (seq s len)) =
  if (s <=? x)%nat && (x <? s + len)%nat then 1 else 0.
Proof.
  revert s. induction len as [|len IH]; intros s; cbn [seq map].
  - destruct (Nat.leb_spec s x), (Nat.ltb_spec x (s + 0)); cbn; lia.
  - rewrite sumZ_cons, IH.
    destruct (Nat.eq_dec x s) as [E|Hne];
      destruct (Nat.leb_spec (S s) x), (Nat.leb_spec s x),
               (Nat.ltb_spec x (S s + len)), (Nat.ltb_spec x (s + S len));
      cbn; lia.
Qed.

Lemma sum_count_cons (x : nat) (t : list nat) (bins : list nat) :
  sumZ (map (fun j => Z.of_nat (count_occ Nat.eq_dec (x :: t) j)) bins) =
  sumZ (map (fun j => Z.of_nat (count_occ Nat.eq_dec t j)) bins) +
  sumZ (map (fun j => if Nat.eq_dec x j then 1 else 0) bins).
Proof.
  induction bins as [|j bins IH]; cbn [map]; [reflexivity|].
  rewrite !sumZ_cons, IH. cbn [count_occ]. destruct (Nat.eq_dec x j); lia.
Qed.

Lemma sum_count_nil (bins : list nat) :
  sumZ (map (fun j => Z.of_nat (count_occ Nat.eq_dec [] j)) bins) = 0.
Proof.
  induction bins as [|j bins IH]; cbn [map]; [reflexivity|].
  rewrite sumZ_cons, IH. reflexivity.
Qed.

Lemma sum_counts (labels : list nat) (n : nat) :
  Forall (fun l => (l < n)%nat) labels ->
  sumZ (map (fun j => Z.of_nat (count_occ Nat.eq_dec labels j)) (seq 0 n)) =
  Z.of_nat (List.length labels).
Proof.
  induction 1 as [|x t Hx _ IH].
  - apply sum_count_nil.
  - rewrite sum_count_cons, IH, sum_indicator.
    replace ((0 <=? x)%nat && (x <? 0 + n)%nat) with true.
    + cbn [List.length]. lia.
    + symmetry. apply andb_true_intro. split.
      * now apply Nat.leb_le, Nat.le_0_l.
      * now apply Nat.ltb_lt.
Qed.

Lemma list_max_below (labels : list nat) (n : nat) :
  Forall (fun l => (l < n)%nat) labels -> labels <> [] ->
  Nat.max n (S (list_max labels)) = n.
Proof.
  intros H Hne. apply Nat.max_l. apply Nat.le_succ_l.
  now apply list_max_lt.
Qed.

(** When every label is below [n], [bincount] has exactly [n] bins and
    they add up to the number of labels. *)
Lemma bincount_spec (labels : list nat) (n : nat) :
  Forall (fun l => (l < n)%nat) labels ->
  List.length (bincount labels n) = n /\
  sumZ (bincount labels n) = Z.of_nat (List.length labels).
Proof.
  intros H. unfold bincount.
  assert (E : match labels with
              | [] => n
              | _ :: _ => Nat.max n (S (list_max labels))
              end = n).
  { destruct labels as [|x t]; [reflexivity|].
    apply list_max_below; [exact H | discriminate]. }
  rewrite E. split.
  - now rewrite length_map, length_seq.
  - now apply sum_counts.
Qed.

End CountFacts.

(** ** Weights *)

Section WeightFacts.
Local Open Scope Q_scope.

Lemma sumQ_cons (x : Q) (t : list Q) : sumQ (x :: t) = x + sumQ t.
Proof. reflexivity. Qed.

Lemma sumQ_perm (l l' : list Q) : Permutation l l' -> sumQ l == sumQ l'.
Proof.
  induction 1 as [| x l l' _ IH | x y l | l l' l'' _ IH1 _ IH2].
  - reflexivity.
  - rewrite !sumQ_cons, IH. reflexivity.
  - rewrite !sumQ_cons. ring.
  - now rewrite IH1.
Qed.

Lemma sumQ_scaled (total : Z) (counts : list Z) :
  total <> 0%Z ->
  sumQ (map (fun c => inject_Z c / inject_Z total) counts) ==
  inject_Z (sumZ counts) / inject_Z total.
Proof.
  intros Ht.
  assert (Hq : ~ inject_Z total == 0).
  { intros E. apply Ht. unfold Qeq, inject_Z in E. cbn in E. lia. }
  induction counts as [|c t IH]; cbn [map].
  - cbn. field. exact Hq.
  - rewrite sumQ_cons, sumZ_cons, IH, inject_Z_plus. field. exact Hq.
Qed.

(** The normalisation divides by the total count, which must not vanish. *)
Lemma sumQ_normalize (counts : list Z) :
  sumZ counts <> 0%Z -> sumQ (normalize counts) == 1.
Proof.
  intros Ht. unfold normalize. rewrite sumQ_scaled by exact Ht.
  field. intros E. apply Ht. unfold Qeq, inject_Z in E. cbn in E. lia.
Qed.

Lemma normalize_length (counts : list Z) :
  List.length (normalize counts) = List.length counts.
Proof. unfold normalize. apply length_map. Qed.

Lemma Qopp_opp (x : Q) : Qopp (Qopp x) = x.
Proof. destruct x as [n d]. unfold Qopp. cbn. now rewrite Z.opp_involutive. Qed.

End WeightFacts.

(** ** Sorting by key *)

Section SortFacts.
Local Open Scope Q_scope.

Definition key_le (p q : Q * nat) : Prop := fst p <= fst q.

Lemma insert_key_perm (x : Q * nat) (l : list (Q * nat)) :
  Permutation (insert_key x l) (x :: l).
Proof.
  induction l as [|y t IH]; cbn [insert_key]; [reflexivity|].
  destruct (Qle_bool (fst x) (fst y)); [reflexivity|].
  rewrite IH. apply perm_swap.
Qed.

Lemma sort_keys_perm (l : list (Q * nat)) : Permutation (sort_keys l) l.
Proof.
  induction l as [|x t IH]; cbn; [reflexivity|].
  fold (sort_keys t). rewrite insert_key_perm. now constructor.
Qed.

Lemma insert_key_hd (x y : Q * nat) (l : list (Q * nat)) :
  key_le y x -> HdRel key_le y l -> HdRel key_le y (insert_key x l).
Proof.
  intros Hyx Hl. destruct l as [|z t]; cbn [insert_key].
  - now constructor.
  - destruct (Qle_bool (fst x) (fst z)); constructor; [exact Hyx|].
    now inversion Hl.
Qed.

Lemma insert_key_sorted (x : Q * nat) (l : list (Q * nat)) :
  Sorted key_le l -> Sorted key_le (insert_key x l).
Proof.
  induction 1 as [|y t Hs IH Hhd]; cbn [insert_key].
  - repeat constructor.
  - destruct (Qle_bool (fst x) (fst y)) eqn:E.
    + apply Qle_bool_iff in E. repeat constructor; assumption.
    + assert (Hyx : key_le y x).
      { unfold key_le. apply Qlt_le_weak, Qnot_le_lt.
        intros Hle. apply Qle_bool_iff in Hle. congruence. }
      constructor; [exact IH|]. now apply insert_key_hd.
Qed.

Lemma sort_keys_sorted (l : list (Q * nat)) : Sorted key_le (sort_keys l).
Proof.
  induction l as [|x t IH]; cbn; [constructor|].
  fold (sort_keys t). now apply insert_key_sorted.
Qed.

Lemma key_le_trans : Relations_1.Transitive key_le.
Proof. intros p q r. unfold key_le. apply Qle_trans. Qed.

(** Each pair built by [argsort] holds a key and the index it came from. *)
Lemma combine_seq_lookup (keys : list Q) (s : nat) (p : Q * nat) :
  In p (combine keys (seq s (List.length keys))) ->
  (s <= snd p)%nat /\ nth_error keys (snd p - s) = Some (fst p).
Proof.
  revert s. induction keys as [|k t IH]; intros s; cbn [combine seq List.length].
  - intros [].
  - intros [<- | Hin].
    + cbn [fst snd]. rewrite Nat.sub_diag. split; [lia | reflexivity].
    + destruct (IH (S s) Hin) as [Hle Hnth]. split; [lia|].
      replace (snd p - s)%nat with (S (snd p - S s)) by lia. exact Hnth.
Qed.

Lemma map_fst_combine_seq (keys : list Q) (s : nat) :
  map fst (combine keys (seq s (List.length keys))) = keys.
Proof.
  revert s. induction keys as [|k t IH]; intros s; cbn; [reflexivity|].
  now rewrite IH.
Qed.

Lemma argsort_length (keys : list Q) :
  List.length (argsort keys) = List.length keys.
Proof.
  unfold argsort. rewrite length_map.
  rewrite (Permutation_length (sort_keys_perm _)).
  rewrite length_combine, length_seq. apply Nat.min_id.
Qed.

Lemma argsort_range (keys : list Q) :
  Forall (fun i => (i < List.length keys)%nat) (argsort keys).
Proof.
  unfold argsort. apply Forall_forall. intros i Hi.
  apply in_map_iff in Hi. destruct Hi as (p & <- & Hp).
  apply (Permutation_in _ (sort_keys_perm _)) in Hp.
  apply combine_seq_lookup in Hp as [_ Hnth].
  rewrite Nat.sub_0_r in Hnth. apply nth_error_Some. congruence.
Qed.

(** Reading the weights along [argsort] of their opposites gives the
    opposites of the sorted keys. *)
Lemma take_argsort_weights (weights : list Q) :
  take weights (argsort (map Qopp weights)) =
  Some (map (fun p => Qopp (fst p))
            (sort_keys (combine (map Qopp weights)
                                (seq 0 (List.length (map Qopp weights)))))).
Proof.
  unfold take, argsort. set (ps := sort_keys _).
  assert (Hps : Forall (fun p => nth_error weights (snd p) = Some (Qopp (fst p))) ps).
  { apply Forall_forall. intros p Hp.
    apply (Permutation_in _ (sort_keys_perm _)) in Hp.
    apply combine_seq_lookup in Hp as [_ Hnth].
    rewrite Nat.sub_0_r, nth_error_map in Hnth.
    destruct (nth_error weights (snd p)) as [w|]; cbn in Hnth; [|discriminate].
    injection Hnth as <-. now rewrite Qopp_opp. }
  clearbody ps. induction Hps as [|p t Hp _ IH]; cbn; [reflexivity|].
  rewrite Hp. cbn. cbn in IH. rewrite IH. reflexivity.
Qed.

Lemma sorted_opp_descending (ps : list (Q * nat)) :
  Sorted key_le ps ->
  StronglySorted (fun x y => y <= x) (map (fun p => Qopp (fst p)) ps).
Proof.
  intros Hs. apply Sorted_StronglySorted in Hs; [|exact key_le_trans].
  induction Hs as [|p t _ IH Hall]; cbn [map]; constructor; [exact IH|].
  apply Forall_forall. intros y Hy. apply in_map_iff in Hy.
  destruct Hy as (q & <- & Hq). rewrite Forall_forall in Hall.
  apply Qopp_le_compat. now apply Hall.
Qed.

End SortFacts.

(** ** Extraction *)

Section ExtractorFacts.
Context {cv : OpenCV} {rng : NumpyRandom}.

Lemma assign_labels_spec (frame : list rgb) (centers : list (list Z))
    (labels : list nat) :
  assign_labels frame centers = Some labels ->
  List.length labels = List.length frame /\
  Forall (fun l => (l < List.length centers)%nat) labels.
Proof.
  unfold assign_labels. destruct (mapM broadcast3 centers) as [cs|] eqn:Hcs;
    cbn [bind]; [|discriminate].
  intros H. split; [eapply mapM_length, H|].
  apply mapM_Forall2 in H. apply mapM_length in Hcs.
  induction H as [|p l frame' labels' Hl _ IH]; constructor; [|exact IH].
  apply (argmin_some Z.ltb Z.ltb_irrefl Zltb_trans Zltb_le_trans) in Hl.
  destruct Hl as (m & Hm & _).
  rewrite <- Hcs, <- (length_map (sqdist p)).
  apply nth_error_Some. congruence.
Qed.

Lemma assign_labels_total (frame : list rgb) (centers : list (list Z)) :
  centers <> [] -> Forall (fun c => List.length c = 3%nat) centers ->
  exists labels, assign_labels frame centers = Some labels.
Proof.
  intros Hne Hcols. unfold assign_labels.
  destruct (mapM_total broadcast3 centers) as [cs Hcs].
  { eapply Forall_impl; [|exact Hcols]. intros c Hc. cbn beta in Hc.
    destruct c as [|x [|y [|z [|? ?]]]]; try discriminate. now exists (x, y, z). }
  rewrite Hcs. cbn [bind]. apply mapM_total.
  apply Forall_forall. intros p _.
  destruct (argmin_spec Z.ltb Z.ltb_irrefl Zltb_trans Zltb_le_trans
              (map (sqdist p) cs)) as (k & Hk & _).
  - apply mapM_length in Hcs. destruct cs; [|discriminate].
    destruct centers; [congruence | discriminate].
  - eauto.
Qed.

Lemma cluster_counts_spec (frame : list rgb) (centers : list (list Z)) (k : Z)
    (counts : list Z) :
  List.length centers = Z.to_nat k ->
  cluster_counts frame centers k = Some counts ->
  List.length counts = Z.to_nat k /\
  sumZ counts = Z.of_nat (List.length frame).
Proof.
  intros Hk. unfold cluster_counts.
  destruct (assign_labels frame centers) as [labels|] eqn:Hl; cbn [bind];
    [|discriminate].
  intros [= <-]. apply assign_labels_spec in Hl as [Hlen Hall].
  rewrite Hk in Hall. destruct (bincount_spec labels (Z.to_nat k) Hall) as [H1 H2].
  split; [exact H1 | now rewrite H2, Hlen].
Qed.

(** A successful [cv_kmeans] had a positive [K] and at least one sample. *)
Lemma cv_kmeans_inv (data : list rgb) (K : Z) (centers : list (list Q)) :
  cv_kmeans data K = Some centers ->
  0 < K /\ data <> [] /\ centers = kmeans_centers data K.
Proof.
  unfold cv_kmeans.
  destruct ((0 <? K) && _) eqn:E; [|discriminate].
  intros [= <-]. apply andb_prop in E as [E1 E2].
  apply Z.ltb_lt in E1. apply Z.leb_le in E2.
  repeat split; trivial. intros ->. cbn in E2. lia.
Qed.

Lemma subsample_nonempty (frame data : list rgb) (sample seed : Z) :
  subsample frame sample seed = Some data -> data <> [] -> frame <> [].
Proof.
  unfold subsample. intros H Hd ->. cbn [List.length] in H.
  destruct (Z.of_nat 0 >? sample) eqn:E.
  - destruct (sample <? 0) eqn:E'; [discriminate|].
    apply Z.ltb_ge in E'. apply Z.gtb_lt in E. lia.
  - now injection H as <-.
Qed.

Lemma sorted_weights_perm (weights : list Q) :
  Permutation
    (map (fun p => Qopp (fst p))
         (sort_keys (combine (map Qopp weights)
                             (seq 0 (List.length (map Qopp weights))))))
    weights.
Proof.
  rewrite (Permutation_map _ (sort_keys_perm _)).
  rewrite <- (map_map fst Qopp), map_fst_combine_seq, map_map.
  rewrite (map_ext _ (fun x => x)) by apply Qopp_opp.
  now rewrite map_id.
Qed.

End ExtractorFacts.

(** C5. Whenever extraction returns, the counts it normalised add up to the
    number of pixels of the full frame (the output of the optional
    downscale, not the clustering subsample), and the weights are a
    rearrangement of the normalised counts that sums to 1 and is sorted in
    descending order. *)
Theorem kmeans_colors_weights {cv : OpenCV} {rng : NumpyRandom}
    (img : image) (k sample seed max_side : Z)
    (cs : list (list Z)) (ws : list Q) :
  kmeans_colors img k sample seed max_side = Some (cs, ws) ->
  exists (frame : list rgb) (centers : list (list Z)) (counts : list Z),
    downscale img max_side = Some frame /\
    cluster_counts frame centers k = Some counts /\
    sumZ counts = Z.of_nat (List.length frame) /\
    0 < sumZ counts /\
    Permutation ws (normalize counts) /\
    (sumQ ws == 1)%Q /\
    (Qabs (sumQ ws - 1) <= 1 # 1000000)%Q /\
    StronglySorted (fun x y => (y <= x)%Q) ws.
Proof.
  unfold kmeans_colors.
  destruct (downscale img max_side) as [frame|]; cbn [bind]; [|discriminate].
  destruct (subsample frame sample seed) as [data|] eqn:Hdata; cbn [bind];
    [|discriminate].
  destruct (cv_kmeans data k) as [centers_f|] eqn:Hkm; cbn [bind]; [|discriminate].
  set (centers := map (map clip_uint8) centers_f).
  destruct (cluster_counts frame centers k) as [counts|] eqn:Hcounts; cbn [bind];
    [|discriminate].
  destruct (take centers _) as [cs'|]; cbn [bind]; [|discriminate].
  rewrite take_argsort_weights. cbn [bind]. intros [= _ <-].
  apply cv_kmeans_inv in Hkm as (Hk & Hne & ->).
  apply (subsample_nonempty _ _ _ _ Hdata) in Hne.
  assert (Hlen : List.length centers = Z.to_nat k).
  { unfold centers. rewrite length_map. now apply kmeans_centers_rows. }
  destruct (cluster_counts_spec _ _ _ _ Hlen Hcounts) as [_ Hsum].
  assert (Hpos : 0 < sumZ counts).
  { rewrite Hsum. destruct frame; [congruence | cbn [List.length]; lia]. }
  pose proof (sorted_weights_perm (normalize counts)) as Hperm.
  assert (Hone : (sumQ (map (fun p => Qopp (fst p))
                   (sort_keys (combine (map Qopp (normalize counts))
                      (seq 0 (List.length (map Qopp (normalize counts))))))) == 1)%Q).
  { rewrite (sumQ_perm _ _ Hperm). apply sumQ_normalize. lia. }
  exists frame, centers, counts. repeat split; trivial.
  - rewrite Hone. apply Qle_bool_iff. reflexivity.
  - apply sorted_opp_descending, sort_keys_sorted.
Qed.

Lemma kmeans_colors_weights_witness :
  exists (frame : list rgb) (centers : list (list Z)) (counts : list Z),
    downscale (cv := simple_cv) red_blue_2x2 1024 = Some frame /\
    cluster_counts frame centers 3 = Some counts /\
    sumZ counts = Z.of_nat (List.length frame) /\
    0 < sumZ counts /\
    Permutation [2 # 4; 2 # 4; 0 # 4]%Q (normalize counts) /\
    (sumQ [2 # 4; 2 # 4; 0 # 4] == 1)%Q /\
    (Qabs (sumQ [2 # 4; 2 # 4; 0 # 4] - 1) <= 1 # 1000000)%Q /\
    StronglySorted (fun x y => (y <= x)%Q) [2 # 4; 2 # 4; 0 # 4]%Q.
Proof.
  apply (kmeans_colors_weights (cv := simple_cv) (rng := simple_rng)
           red_blue_2x2 3 400000 42 1024
           [[255; 0; 0]; [0; 0; 255]; [255; 0; 0]]).
  vm_compute. reflexivity.
Defined.

(** ** Extraction returns K centres *)

Section ReturnsFacts.
Context {cv : OpenCV} {rng : NumpyRandom}.

Lemma clip_uint8_range (x : Q) : is_uint8 (clip_uint8 x).
Proof.
  unfold clip_uint8, is_uint8.
  set (lo := if Qle_bool x 0 then (0 # 1)%Q else x).
  assert (Hlo : (0 <= lo)%Q).
  { unfold lo. destruct (Qle_bool x 0) eqn:E; [apply Qle_refl|].
    apply Qlt_le_weak, Qnot_le_lt. intros H. apply Qle_bool_iff in H. congruence. }
  set (hi := if Qle_bool 255 lo then (255 # 1)%Q else lo).
  assert (Hhi : (0 <= hi /\ hi <= 255)%Q).
  { unfold hi. destruct (Qle_bool 255 lo) eqn:E.
    - split; [discriminate | apply Qle_refl].
    - split; [exact Hlo|].
      apply Qlt_le_weak, Qnot_le_lt. intros H. apply Qle_bool_iff in H. congruence. }
  destruct Hhi as [H0 H255].
  apply Qfloor_resp_le in H0, H255.
  change (Qfloor 0) with 0 in H0. change (Qfloor 255) with 255 in H255. lia.
Qed.

Lemma downscale_frame (img : image) (max_side : Z) :
  well_formed_image img -> non_empty_image img ->
  0 < fst (frame_size img max_side) -> 0 < snd (frame_size img max_side) ->
  exists frame,
    downscale img max_side = Some frame /\
    Z.of_nat (List.length frame) =
    fst (frame_size img max_side) * snd (frame_size img max_side).
Proof.
  intros (Hh & Hw & Hlen & _) [Hh' Hw']. unfold frame_size, downscale.
  destruct (Z.max (height img) (width img) >? max_side).
  - replace (Z.max (height img) (width img) =? 0) with false
      by (symmetry; apply Z.eqb_neq; lia).
    destruct (scaled_size (height img) (width img) max_side) as [w' h'].
    cbn [fst snd]. intros Hw0 Hh0. unfold cv_resize.
    replace (0 <? w') with true by (symmetry; now apply Z.ltb_lt).
    replace (0 <? h') with true by (symmetry; now apply Z.ltb_lt).
    cbn [andb]. eexists. split; [reflexivity|].
    rewrite resize_area_length by assumption. lia.
  - cbn [fst snd]. intros _ _. eexists. split; [reflexivity|].
    rewrite Hlen. lia.
Qed.

Lemma subsample_enough (frame : list rgb) (k sample seed : Z) :
  0 <= k -> k <= Z.of_nat (List.length frame) -> k <= sample ->
  exists data,
    subsample frame sample seed = Some data /\ k <= Z.of_nat (List.length data).
Proof.
  intros Hk Hn Hs. unfold subsample.
  destruct (Z.of_nat (List.length frame) >? sample) eqn:E.
  - apply Z.gtb_lt in E.
    replace (sample <? 0) with false by (symmetry; apply Z.ltb_ge; lia).
    assert (Hsz : (Z.to_nat sample <= List.length frame)%nat) by lia.
    destruct (take_total frame (rng_choice seed (List.length frame) (Z.to_nat sample)))
      as (data & Hdata & Hlen).
    + now apply rng_choice_range.
    + exists data. split; [exact Hdata|].
      rewrite Hlen, rng_choice_length by exact Hsz. lia.
  - exists frame. split; [reflexivity | exact Hn].
Qed.

Lemma cv_kmeans_enough (data : list rgb) (k : Z) :
  2 <= k -> k <= Z.of_nat (List.length data) ->
  cv_kmeans data k = Some (kmeans_centers data k) /\
  List.length (kmeans_centers data k) = Z.to_nat k /\
  Forall (fun c => List.length c = 3%nat) (kmeans_centers data k).
Proof.
  intros Hk Hn. unfold cv_kmeans.
  replace (Z.of_nat (List.length data) =? 1) with false
    by (symmetry; apply Z.eqb_neq; lia).
  replace (0 <? k) with true by (symmetry; apply Z.ltb_lt; lia).
  replace (k <=? Z.of_nat (List.length data)) with true
    by (symmetry; now apply Z.leb_le).
  cbn [andb]. split; [reflexivity|]. split.
  - apply kmeans_centers_rows. lia.
  - pose proof (kmeans_centers_cols data k) as H.
    replace (List.length data =? 1)%nat with false in H; [exact H|].
    symmetry. apply Nat.eqb_neq. lia.
Qed.

End ReturnsFacts.

(** C6 as stated fails: a well-formed, non-empty row of two pixels with
    K = 3 is rejected, because [cv2.kmeans] refuses more clusters than
    samples. *)
Lemma kmeans_colors_two_pixels :
  well_formed_image two_pixels /\ non_empty_image two_pixels /\
  3 <= 3 <= 12 /\
  kmeans_colors_default (cv := simple_cv) (rng := simple_rng) two_pixels 3 = None.
Proof.
  split; [|split; [|split]].
  - unfold well_formed_image, two_pixels. cbn.
    repeat split; try lia. repeat constructor; unfold is_uint8; lia.
  - unfold non_empty_image, two_pixels. cbn. lia.
  - lia.
  - vm_compute. reflexivity.
Qed.

(** The rejection does not depend on the clustering kernel. *)
Lemma kmeans_colors_too_few_samples {cv : OpenCV} {rng : NumpyRandom}
    (img : image) (k sample seed max_side : Z) (frame data : list rgb) :
  downscale img max_side = Some frame ->
  subsample frame sample seed = Some data ->
  (1 < List.length data)%nat -> Z.of_nat (List.length data) < k ->
  kmeans_colors img k sample seed max_side = None.
Proof.
  intros Hf Hd H1 Hlt. unfold kmeans_colors. rewrite Hf. cbn [bind].
  rewrite Hd. cbn [bind]. unfold cv_kmeans.
  replace (Z.of_nat (List.length data) =? 1) with false
    by (symmetry; apply Z.eqb_neq; lia).
  replace (k <=? Z.of_nat (List.length data)) with false
    by (symmetry; apply Z.leb_gt; lia).
  now rewrite andb_false_r.
Qed.

(** A strip whose short side scales below one pixel is rejected by the
    resize step, whatever the kernels: [int(1 * (1024 / 2000))] is 0. *)
Lemma kmeans_colors_thin_image {cv : OpenCV} {rng : NumpyRandom} (k : Z) :
  kmeans_colors_default thin_image k = None.
Proof.
  unfold kmeans_colors_default, kmeans_colors, downscale.
  cbn [height width thin_image].
  change (Z.max 1 2000 >? 1024) with true.
  change (Z.max 1 2000 =? 0) with false. cbn iota.
  replace (scaled_size 1 2000 1024) with (1024, 0) by (vm_compute; reflexivity).
  reflexivity.
Qed.

(** C6, amended. For a well-formed, non-empty image whose frame, after the
    optional downscale, has positive width and height and at least K
    pixels, with K between 3 and 12 and a subsample cap of at least K,
    extraction returns exactly K centres, each of three 8-bit channels,
    and K weights; the number of distinct colours plays no part. *)
Theorem kmeans_colors_returns_k {cv : OpenCV} {rng : NumpyRandom}
    (img : image) (k sample seed max_side : Z) :
  well_formed_image img -> non_empty_image img -> 3 <= k <= 12 ->
  0 < fst (frame_size img max_side) -> 0 < snd (frame_size img max_side) ->
  k <= fst (frame_size img max_side) * snd (frame_size img max_side) ->
  k <= sample ->
  exists (cs : list (list Z)) (ws : list Q),
    kmeans_colors img k sample seed max_side = Some (cs, ws) /\
    List.length cs = Z.to_nat k /\ List.length ws = Z.to_nat k /\
    Forall (fun c => List.length c = 3%nat /\ Forall is_uint8 c) cs.
Proof.
  intros Hwf Hne Hk Hw Hh Hpix Hcap.
  destruct (downscale_frame img max_side Hwf Hne Hw Hh) as (frame & Hframe & Hn).
  destruct (subsample_enough frame k sample seed) as (data & Hdata & Hd); try lia.
  destruct (cv_kmeans_enough data k) as (Hkm & Hrows & Hcols); try lia.
  set (centers := map (map clip_uint8) (kmeans_centers data k)).
  assert (Hlen : List.length centers = Z.to_nat k)
    by (unfold centers; now rewrite length_map).
  assert (Hc3 : Forall (fun c => List.length c = 3%nat /\ Forall is_uint8 c) centers).
  { unfold centers. apply Forall_forall. intros c Hc.
    apply in_map_iff in Hc. destruct Hc as (c0 & <- & Hc0).
    rewrite Forall_forall in Hcols. split.
    - rewrite length_map. now apply Hcols.
    - apply Forall_forall. intros z Hz. apply in_map_iff in Hz.
      destruct Hz as (q & <- & _). apply clip_uint8_range. }
  destruct (assign_labels_total frame centers) as [labels Hlabels].
  { intros E. rewrite E in Hlen. cbn in Hlen. lia. }
  { eapply Forall_impl; [|exact Hc3]. intros c Hc. exact (proj1 Hc). }
  assert (Hcounts : cluster_counts frame centers k =
                    Some (bincount labels (Z.to_nat k))).
  { unfold cluster_counts. rewrite Hlabels. reflexivity. }
  destruct (cluster_counts_spec _ _ _ _ Hlen Hcounts) as [Hclen _].
  set (weights := normalize (bincount labels (Z.to_nat k))).
  assert (Hwlen : List.length weights = Z.to_nat k)
    by (unfold weights; now rewrite normalize_length).
  set (order := argsort (map Qopp weights)).
  assert (Holen : List.length order = Z.to_nat k)
    by (unfold order; now rewrite argsort_length, length_map).
  assert (Horange : Forall (fun i => (i < Z.to_nat k)%nat) order).
  { unfold order. rewrite <- Hwlen, <- (length_map Qopp). apply argsort_range. }
  destruct (take_total centers order) as (cs & Hcs & Hcslen);
    [now rewrite Hlen|].
  destruct (take_total weights order) as (ws & Hws & Hwslen);
    [now rewrite Hwlen|].
  exists cs, ws. split; [|split; [lia | split; [lia|]]].
  - unfold kmeans_colors. rewrite Hframe. cbn [bind]. rewrite Hdata. cbn [bind].
    rewrite Hkm. cbn [bind]. fold centers. rewrite Hcounts. cbn [bind].
    fold weights. fold order. rewrite Hcs. cbn [bind]. rewrite Hws. reflexivity.
  - apply mapM_Forall2 in Hcs. rewrite Forall_forall in Hc3.
    clear - Hcs Hc3. induction Hcs as [|i c idx cs' Hi _ IH]; constructor; [|exact IH].
    apply Hc3. eapply nth_error_In, Hi.
Qed.

Lemma kmeans_colors_returns_k_witness :
  exists (cs : list (list Z)) (ws : list Q),
    kmeans_colors (cv := simple_cv) (rng := simple_rng)
      red_blue_2x2 3 400000 42 1024 = Some (cs, ws) /\
    List.length cs = Z.to_nat 3 /\ List.length ws = Z.to_nat 3 /\
    Forall (fun c => List.length c = 3%nat /\ Forall is_uint8 c) cs.
Proof.
  apply (kmeans_colors_returns_k (cv := simple_cv) (rng := simple_rng)
           red_blue_2x2 3 400000 42 1024).
  - unfold well_formed_image, red_blue_2x2. cbn.
    repeat split; try lia. repeat constructor; unfold is_uint8; lia.
  - unfold non_empty_image, red_blue_2x2. cbn. lia.
  - lia.
  - vm_compute. reflexivity.
  - vm_compute. reflexivity.
  - vm_compute. discriminate.
  - lia.
Defined.

(** * Further properties *)

(** ** Distances *)

Section MoreDistanceFacts.
Local Open Scope R_scope.

Lemma distance_cell_zero (method : string) (p q : lab) :
  distance_cell method p q = 0 <-> p = q.
Proof.
  unfold distance_cell. destruct (is_de2000 method);
    [apply deltaE2000_cell_zero | apply deltaE76_cell_zero].
Qed.

Lemma distance_cell_nonneg (method : string) (p q : lab) :
  0 <= distance_cell method p q.
Proof.
  unfold distance_cell. destruct (is_de2000 method);
    [apply sqrt_pos | apply deltaE76_cell_nonneg].
Qed.

End MoreDistanceFacts.

(** X1. The 1976 distance is symmetric, cell by cell, and the matrix
    computed for the batches [ys], [xs] is the transpose of the matrix for
    [xs], [ys]; on binary32 floats the two cells are the same float,
    whatever the inputs. *)
Theorem deltaE76_symmetric (p q : lab) (xs ys : list lab) (i j : nat)
    (u v : Binary32.lab) :
  deltaE76_cell p q = deltaE76_cell q p /\
  entry (deltaE76 xs ys) i j = entry (deltaE76 ys xs) j i /\
  Binary32.deltaE76_cell u v = Binary32.deltaE76_cell v u.
Proof.
  assert (Hcell : forall a b, deltaE76_cell a b = deltaE76_cell b a).
  { intros [[L1 a1] b1] [[L2 a2] b2]. unfold deltaE76_cell. f_equal.
    apply Rminus_diag_uniq. ring. }
  split; [apply Hcell|]. split; [|apply Binary32Facts.deltaE76_cell32_sym].
  unfold deltaE76. rewrite !entry_pairwise.
  destruct (nth_error xs i), (nth_error ys j); try reflexivity.
  now rewrite Hcell.
Qed.

(** X2. No division of [deltaE2000] is by zero on 8-bit Lab rows: for a
    mean lightness in [0,255] and a mean chroma in [0,1000] every divisor
    is positive, the three weights SL, SC and SH are at least 1, the
    factor G lies in [0, 1/2] and the rotation term strictly between -2
    and 2. *)
Theorem deltaE2000_divisors_positive (L C h : R) :
  (0 <= L <= 255)%R -> (0 <= C <= 1000)%R ->
  (0 < C ^ 7 + 25 ^ 7)%R /\
  (0 < sqrt (20 + (L - 50) ^ 2))%R /\
  (1 <= SL_term L)%R /\
  (1 <= 1 + 0.045 * C)%R /\
  (1 <= 1 + 0.015 * C * T_term h)%R /\
  (0 <= G_factor C <= 0.5)%R /\
  (-2 < RT_term h C < 2)%R.
Proof.
  intros _ [HC _]. pose proof (pow7_nonneg C HC). pose proof pow25_7_pos.
  pose proof (T_term_lower h) as HT. pose proof (pow2_ge_0 (L - 50)).
  pose proof (G_factor_bounds C HC) as HG.
  repeat split; try lra.
  - apply sqrt_lt_R0. lra.
  - apply SL_term_lower.
  - assert (0 <= 0.015 * C * T_term h)%R by (apply Rmult_le_pos; lra). lra.
  - now apply RT_term_abs.
  - now apply RT_term_abs.
Qed.

Lemma deltaE2000_divisors_positive_witness :
  (0 < 30 ^ 7 + 25 ^ 7)%R /\
  (0 < sqrt (20 + (50 - 50) ^ 2))%R /\
  (1 <= SL_term 50)%R /\
  (1 <= 1 + 0.045 * 30)%R /\
  (1 <= 1 + 0.015 * 30 * T_term 1)%R /\
  (0 <= G_factor 30 <= 0.5)%R /\
  (-2 < RT_term 1 30 < 2)%R.
Proof. apply (deltaE2000_divisors_positive 50 30 1); lra. Defined.

Lemma deltaE2000_lightness_formula (L1 L2 a b : R) :
  deltaE2000_cell (L1, a, b) (L2, a, b) =
    (Rabs (L1 - L2) / SL_term ((L1 + L2) / 2))%R /\
  (deltaE2000_cell (L1, a, b) (L2, a, b) <= Rabs (L1 - L2))%R.
Proof.
  pose proof (SL_term_lower ((L1 + L2) / 2)) as HSL.
  assert (E : deltaE2000_cell (L1, a, b) (L2, a, b) =
              (Rabs (L1 - L2) / SL_term ((L1 + L2) / 2))%R).
  { unfold deltaE2000_cell. cbv beta iota zeta delta [dE2000_radicand].
    rewrite dhp_wrap_same.
    replace (0 / 2)%R with 0%R by field. rewrite sin_0.
    set (SL := SL_term _) in *. set (C := chroma _ b).
    replace ((L1 - L2) / (1 * SL))%R with ((L1 - L2) / SL)%R by (field; lra).
    replace (C - C)%R with 0%R by ring.
    match goal with
    | |- sqrt ?x = _ => replace x with (((L1 - L2) / SL)²)%R
    end.
    - rewrite sqrt_Rsqr_abs. unfold Rdiv. rewrite Rabs_mult.
      f_equal. apply Rabs_pos_eq. left. apply Rinv_0_lt_compat. lra.
    - unfold Rsqr, Rdiv. ring. }
  split; [exact E|]. rewrite E.
  apply (Rmult_le_reg_r (SL_term ((L1 + L2) / 2))); [lra|].
  unfold Rdiv. rewrite Rmult_assoc, Rinv_l by lra.
  pose proof (Rabs_pos (L1 - L2)). nra.
Qed.

(** X5. On 8-bit Lab rows that differ in lightness only, the CIEDE2000
    distance does not depend on the common a and b channels, and it never
    exceeds the difference of the two lightnesses. *)
Theorem deltaE2000_lightness_only (L1 L2 a b a' b' : Z) :
  valid_rgb (L1, a, b) -> valid_rgb (L2, a', b') ->
  deltaE2000_cell (astype_float32 (L1, a, b)) (astype_float32 (L2, a, b)) =
  deltaE2000_cell (astype_float32 (L1, a', b')) (astype_float32 (L2, a', b')) /\
  (deltaE2000_cell (astype_float32 (L1, a, b)) (astype_float32 (L2, a, b))
   <= Rabs (IZR L1 - IZR L2))%R.
Proof.
  intros _ _. unfold astype_float32.
  destruct (deltaE2000_lightness_formula (IZR L1) (IZR L2) (IZR a) (IZR b)) as [E H].
  destruct (deltaE2000_lightness_formula (IZR L1) (IZR L2) (IZR a') (IZR b')) as [E' _].
  split; [congruence | exact H].
Qed.

Lemma deltaE2000_lightness_only_witness :
  deltaE2000_cell (astype_float32 (200, 90, 160)) (astype_float32 (40, 90, 160)) =
  deltaE2000_cell (astype_float32 (200, 128, 128)) (astype_float32 (40, 128, 128)) /\
  (deltaE2000_cell (astype_float32 (200, 90, 160)%Z) (astype_float32 (40, 90, 160)%Z)
   <= Rabs (IZR 200 - IZR 40))%R.
Proof.
  apply (deltaE2000_lightness_only 200 40 90 160 128 128);
    unfold valid_rgb, is_uint8; lia.
Defined.

(** ** Conversion and matching *)

Section MoreLabFacts.
Context {cv : OpenCV}.

Lemma rgb_to_lab_map (xs : list rgb) :
  xs <> [] ->
  rgb_to_lab xs =
  Some (map (fun c => astype_float32
                        (bgr2lab_8u (astype_uint8_px (reverse_channels c)))) xs).
Proof.
  intros Hne. unfold rgb_to_lab. destruct xs as [|c t]; [congruence|].
  cbn [map cvtColor_BGR2LAB bind]. rewrite !map_map. reflexivity.
Qed.

End MoreLabFacts.

(** X6. Matching against an empty palette fails: with no Lab rows there is
    no minimum to take, and with no entries the index found has nothing to
    select. *)
Theorem nearest_tailwind_empty {cv : OpenCV} (c : rgb)
    (tw_entries : list TWEntry) (tw_lab : list lab) (method : string) :
  nearest_tailwind c tw_entries [] method = None /\
  nearest_tailwind c [] tw_lab method = None.
Proof.
  unfold nearest_tailwind.
  destruct (np_array_uint8 [c]) as [arr|] eqn:E; cbn [bind]; [|split; reflexivity].
  apply np_array_uint8_some in E as [-> _].
  rewrite rgb_to_lab_single. cbn [bind].
  rewrite !distances_single. cbn [bind map argmin]. split; [reflexivity|].
  destruct (argmin Rltb _) as [k|]; cbn [bind]; [|reflexivity].
  now destruct k.
Qed.

Lemma exact_hit {cv : OpenCV} (c : rgb)
    (tw_entries : list TWEntry) (tw_lab : list lab) (method : string)
    (c_lab : lab) :
  valid_rgb c -> List.length tw_entries = List.length tw_lab ->
  rgb_to_lab [c] = Some [c_lab] -> In c_lab tw_lab ->
  exists (k : nat) (e : TWEntry),
    nth_error tw_lab k = Some c_lab /\
    nth_error tw_entries k = Some e /\
    (forall j, (j < k)%nat -> nth_error tw_lab j <> Some c_lab) /\
    nearest_tailwind c tw_entries tw_lab method =
      Some {| name := tw_name e; shade := tw_shade e; hex := tw_hex e;
              deltaE := 0%R |}.
Proof.
  intros Hc Hlen Hlab Hin.
  set (dists := map (distance_cell method c_lab) tw_lab).
  assert (Hd : dists <> []).
  { unfold dists. destruct tw_lab; [destruct Hin | discriminate]. }
  destruct (argmin_spec Rltb Rltb_irrefl Rltb_trans Rltb_le_trans dists Hd)
    as (k & Hk & d & Hkd & Hall & Hbefore).
  unfold dists in Hkd. rewrite nth_error_map in Hkd.
  destruct (nth_error tw_lab k) as [q|] eqn:Hq; [|discriminate].
  cbn in Hkd. injection Hkd as Hd0.
  assert (Hzero : d = 0%R).
  { apply In_nth_error in Hin as [j Hj].
    assert (Hj' : nth_error dists j = Some 0%R).
    { unfold dists. rewrite nth_error_map, Hj. cbn. f_equal.
      now apply distance_cell_zero. }
    apply Hall, Rltb_false in Hj'.
    pose proof (distance_cell_nonneg method c_lab q). lra. }
  assert (Eq : q = c_lab).
  { symmetry. apply (distance_cell_zero method). congruence. }
  subst q.
  destruct (nth_error tw_entries k) as [e|] eqn:He.
  2:{ apply nth_error_None in He.
      assert (k < List.length tw_lab)%nat by (apply nth_error_Some; congruence).
      lia. }
  exists k, e. repeat split; trivial.
  - intros j Hj Hnth.
    assert (Hj' : nth_error dists j = Some 0%R).
    { unfold dists. rewrite nth_error_map, Hnth. cbn. f_equal.
      now apply distance_cell_zero. }
    apply (Hbefore j 0%R Hj), Rltb_true in Hj'. lra.
  - rewrite (nearest_tailwind_valid c tw_entries tw_lab method Hc). cbn zeta.
    rewrite rgb_to_lab_single in Hlab. injection Hlab as ->.
    fold dists. rewrite Hk. cbn [bind].
    rewrite He. cbn [bind]. unfold dists. rewrite nth_error_map, Hq. cbn.
    rewrite Hd0, Hzero. reflexivity.
Qed.



(** ** Accessibility and tiers *)

Section MoreContrastFacts.
Local Open Scope R_scope.

Lemma relative_luminance_black : relative_luminance (0, 0, 0)%Z = 0.
Proof.
  rewrite relative_luminance_linear by (unfold valid_rgb, is_uint8; lia).
  cbn [fst snd]. lra.
Qed.

Lemma relative_luminance_white : relative_luminance (255, 255, 255)%Z = 1 / 12.92.
Proof.
  rewrite relative_luminance_linear by (unfold valid_rgb, is_uint8; lia).
  cbn [fst snd]. lra.
Qed.

Lemma contrast_vs_black (c : rgb) :
  valid_rgb c ->
  contrast_ratio c (0, 0, 0)%Z = (relative_luminance c + 0.05) / 0.05.
Proof.
  intros Hc. pose proof (relative_luminance_bounds c Hc) as B.
  unfold contrast_ratio. rewrite relative_luminance_black.
  destruct (Rge_dec (relative_luminance c) 0) as [_|Hn]; [|lra].
  f_equal. lra.
Qed.

Lemma contrast_vs_white (c : rgb) :
  valid_rgb c ->
  contrast_ratio c (255, 255, 255)%Z =
  (1 / 12.92 + 0.05) / (relative_luminance c + 0.05).
Proof.
  intros Hc. pose proof (relative_luminance_bounds c Hc) as B.
  unfold contrast_ratio. rewrite relative_luminance_white.
  destruct (Rge_dec (relative_luminance c) (1 / 12.92)) as [Hge|_]; [|reflexivity].
  assert (E : relative_luminance c = 1 / 12.92) by lra.
  rewrite E. reflexivity.
Qed.

Lemma ratio_compare (L : R) :
  0 <= L ->
  ((1 / 12.92 + 0.05) / (L + 0.05) >= (L + 0.05) / 0.05 <->
   (L + 0.05) ^ 2 <= 0.05 * (1 / 12.92 + 0.05)).
Proof.
  intros HL.
  assert (E : (1 / 12.92 + 0.05) / (L + 0.05) - (L + 0.05) / 0.05 =
              (0.05 * (1 / 12.92 + 0.05) - (L + 0.05) ^ 2) / (0.05 * (L + 0.05))).
  { field. lra. }
  assert (Hpos : 0 < / (0.05 * (L + 0.05))).
  { apply Rinv_0_lt_compat. apply Rmult_lt_0_compat; lra. }
  set (N := 0.05 * (1 / 12.92 + 0.05) - (L + 0.05) ^ 2) in *.
  unfold Rdiv in E at 3. split; intros H.
  - assert (0 <= N * / (0.05 * (L + 0.05))) by lra.
    assert (0 <= N); [|unfold N in *; lra].
    destruct (Rle_dec 0 N) as [|Hn]; [assumption|]. exfalso.
    assert (N * / (0.05 * (L + 0.05)) < 0); [|lra].
    replace 0 with (0 * / (0.05 * (L + 0.05))) by ring.
    apply Rmult_lt_compat_r; lra.
  - assert (0 <= N) by (unfold N; lra).
    assert (0 <= N * / (0.05 * (L + 0.05))) by (apply Rmult_le_pos; lra).
    lra.
Qed.

End MoreContrastFacts.

(** X8. The text colour is white exactly for the dark backgrounds, those
    of relative luminance L with (L + 0.05)^2 <= 0.05 * (1/12.92 + 0.05),
    and black for all others; it is white on black and black on white. *)
Theorem ideal_text_color_threshold (bg : rgb) :
  valid_rgb bg ->
  (((relative_luminance bg + 0.05) ^ 2 <= 0.05 * (1 / 12.92 + 0.05))%R ->
   ideal_text_color bg = (255, 255, 255)) /\
  (((relative_luminance bg + 0.05) ^ 2 > 0.05 * (1 / 12.92 + 0.05))%R ->
   ideal_text_color bg = (0, 0, 0)) /\
  ideal_text_color (0, 0, 0) = (255, 255, 255) /\
  ideal_text_color (255, 255, 255) = (0, 0, 0).
Proof.
  assert (Hgen : forall c, valid_rgb c ->
            (((relative_luminance c + 0.05) ^ 2 <= 0.05 * (1 / 12.92 + 0.05))%R ->
             ideal_text_color c = (255, 255, 255)) /\
            (((relative_luminance c + 0.05) ^ 2 > 0.05 * (1 / 12.92 + 0.05))%R ->
             ideal_text_color c = (0, 0, 0))).
  { intros c Hc. pose proof (relative_luminance_bounds c Hc) as [B _].
    pose proof (ratio_compare (relative_luminance c) B) as Hcmp.
    unfold ideal_text_color.
    rewrite (contrast_vs_white c Hc), (contrast_vs_black c Hc).
    match goal with |- context [Rge_dec ?x ?y] => destruct (Rge_dec x y) as [Hge|Hn] end.
    - split; [reflexivity|]. intros Hgt. apply Hcmp in Hge. lra.
    - split; [|reflexivity]. intros Hle. apply Hcmp in Hle. contradiction. }
  intros Hbg. destruct (Hgen bg Hbg) as [H1 H2].
  split; [exact H1|]. split; [exact H2|]. split.
  - apply Hgen; [unfold valid_rgb, is_uint8; lia|].
    rewrite relative_luminance_black. lra.
  - apply Hgen; [unfold valid_rgb, is_uint8; lia|].
    rewrite relative_luminance_white. lra.
Qed.

Lemma ideal_text_color_threshold_witness :
  (((relative_luminance (239, 68, 68)%Z + 0.05) ^ 2 <= 0.05 * (1 / 12.92 + 0.05))%R ->
   ideal_text_color (239, 68, 68) = (255, 255, 255)) /\
  (((relative_luminance (239, 68, 68)%Z + 0.05) ^ 2 > 0.05 * (1 / 12.92 + 0.05))%R ->
   ideal_text_color (239, 68, 68) = (0, 0, 0)) /\
  ideal_text_color (0, 0, 0) = (255, 255, 255) /\
  ideal_text_color (255, 255, 255) = (0, 0, 0).
Proof.
  apply (ideal_text_color_threshold (239, 68, 68)).
  unfold valid_rgb, is_uint8. lia.
Defined.

Section TierFacts.
Local Open Scope R_scope.

Lemma py_max_bound (a b m : R) : a <= m -> b <= m -> py_max a b <= m.
Proof. intros Ha Hb. unfold py_max. now destruct (Rgt_dec b a). Qed.

Lemma wcag_label_below_3 (r : R) : r < 3 -> wcag_label r = "N/A"%string.
Proof.
  intros H. unfold wcag_label.
  destruct (Rge_dec r 7.0); [lra|]. destruct (Rge_dec r 4.5); [lra|].
  destruct (Rge_dec r 3.0); [lra | reflexivity].
Qed.

Lemma wcag_class_below_3 (r : R) : r < 3 -> wcag_class r = "fail"%string.
Proof.
  intros H. unfold wcag_class.
  destruct (Rge_dec r 7.0); [lra|]. destruct (Rge_dec r 4.5); [lra|].
  destruct (Rge_dec r 3.0); [lra | reflexivity].
Qed.

End TierFacts.

(** X9. For every colour with channels in [0,255] the better of the two
    contrast ratios, against black and against white, stays below 3, so
    the tier computed by [main] is "N/A" and the card is drawn with label
    "N/A" and class "fail". *)
Theorem wcag_tier_always_na (c : rgb) :
  valid_rgb c ->
  let best := py_max (contrast_ratio c (0, 0, 0)) (contrast_ratio c (255, 255, 255)) in
  (best <= 823 / 323)%R /\
  main_wcag c = "N/A"%string /\
  wcag_label best = "N/A"%string /\
  wcag_class best = "fail"%string.
Proof.
  intros Hc best.
  assert (Hb : valid_rgb (0, 0, 0)) by (unfold valid_rgb, is_uint8; lia).
  assert (Hw : valid_rgb (255, 255, 255)) by (unfold valid_rgb, is_uint8; lia).
  assert (Hbest : (best <= 823 / 323)%R).
  { apply py_max_bound; now apply contrast_ratio_upper. }
  split; [exact Hbest|]. split; [|split].
  - unfold main_wcag. fold best.
    destruct (Rge_dec best 7); [lra|]. destruct (Rge_dec best 4.5); [lra|].
    destruct (Rge_dec best 3); [lra | reflexivity].
  - apply wcag_label_below_3. lra.
  - apply wcag_class_below_3. lra.
Qed.

Lemma wcag_tier_always_na_witness :
  let best := py_max (contrast_ratio (239, 68, 68) (0, 0, 0))
                     (contrast_ratio (239, 68, 68) (255, 255, 255)) in
  (best <= 823 / 323)%R /\
  main_wcag (239, 68, 68) = "N/A"%string /\
  wcag_label best = "N/A"%string /\
  wcag_class best = "fail"%string.
Proof.
  apply (wcag_tier_always_na (239, 68, 68)).
  unfold valid_rgb, is_uint8. lia.
Defined.

(** X10. Label and class go together for every ratio: the class is "ok"
    exactly for the labels "AAA" and "AA", "warn" exactly for
    "AA (Large)" and "fail" exactly for "N/A"; and the tier [main] computes
    inline is the label [wcag_label] gives the better of the two ratios. *)
Theorem wcag_label_class_agree (r : R) (c : rgb) :
  (wcag_class r = "ok"%string <->
   wcag_label r = "AAA"%string \/ wcag_label r = "AA"%string) /\
  (wcag_class r = "warn"%string <-> wcag_label r = "AA (Large)"%string) /\
  (wcag_class r = "fail"%string <-> wcag_label r = "N/A"%string) /\
  main_wcag c =
  wcag_label (py_max (contrast_ratio c (0, 0, 0)) (contrast_ratio c (255, 255, 255))).
Proof.
  unfold wcag_label, wcag_class, main_wcag.
  repeat match goal with
         | |- context [Rge_dec ?a ?b] => destruct (Rge_dec a b)
         end;
    repeat split; try intros H; try discriminate H;
    try (destruct H as [H | H]; discriminate H); try reflexivity; auto;
    exfalso; lra.
Qed.

(** ** Extraction, further *)

Section MoreListFacts.

Lemma Forall2_nth_error {A B} (R : A -> B -> Prop) (l : list A) (l' : list B)
    (i : nat) (x : A) (y : B) :
  Forall2 R l l' -> nth_error l i = Some x -> nth_error l' i = Some y -> R x y.
Proof.
  intros H. revert i. induction H as [|a b t t' Hab _ IH]; intros [|i] Hx Hy;
    try discriminate.
  - cbn in Hx, Hy. congruence.
  - cbn in Hx, Hy. eapply IH; eassumption.
Qed.

Lemma nth_error_combine {A B} (a : list A) (b : list B) (i : nat) (x : A) (y : B) :
  nth_error a i = Some x -> nth_error b i = Some y ->
  nth_error (combine a b) i = Some (x, y).
Proof.
  revert b i. induction a as [|a0 a IH]; intros [|b0 b] [|i] Hx Hy;
    try discriminate; cbn in *.
  - congruence.
  - now apply IH.
Qed.

Lemma take_combine {A B} (a : list A) (b : list B) (idx : list nat)
    (xs : list A) (ys : list B) :
  take a idx = Some xs -> take b idx = Some ys ->
  take (combine a b) idx = Some (combine xs ys).
Proof.
  unfold take. revert xs ys. induction idx as [|i idx IH]; intros xs ys Hx Hy;
    cbn in *.
  - injection Hx as <-. injection Hy as <-. reflexivity.
  - destruct (nth_error a i) as [x|] eqn:Ex; cbn in Hx; [|discriminate].
    destruct (mapM (nth_error a) idx) as [xs'|]; cbn in Hx; [|discriminate].
    destruct (nth_error b i) as [y|] eqn:Ey; cbn in Hy; [|discriminate].
    destruct (mapM (nth_error b) idx) as [ys'|]; cbn in Hy; [|discriminate].
    injection Hx as <-. injection Hy as <-.
    rewrite (nth_error_combine a b i x y Ex Ey). cbn.
    rewrite (IH xs' ys' eq_refl eq_refl). reflexivity.
Qed.

Lemma take_seq_self {A} (pre l : list A) :
  take (pre ++ l) (seq (List.length pre) (List.length l)) = Some l.
Proof.
  unfold take. revert pre. induction l as [|x t IH]; intros pre; cbn; [reflexivity|].
  rewrite nth_error_app2 by lia. rewrite Nat.sub_diag. cbn.
  specialize (IH (pre ++ [x])). rewrite length_app in IH. cbn in IH.
  rewrite <- app_assoc in IH. cbn in IH.
  replace (List.length pre + 1)%nat with (S (List.length pre)) in IH by lia.
  rewrite IH. reflexivity.
Qed.

Lemma take_perm {A} (l : list A) (idx idx' : list nat) (out : list A) :
  Permutation idx idx' -> take l idx = Some out ->
  exists out', take l idx' = Some out' /\ Permutation out out'.
Proof.
  unfold take. intros Hp. revert out.
  induction Hp as [| i idx idx' _ IH | i j idx | idx1 idx2 idx3 _ IH1 _ IH2];
    intros out H; cbn in *.
  - injection H as <-. now exists [].
  - destruct (nth_error l i) as [x|]; cbn in *; [|discriminate].
    destruct (mapM (nth_error l) idx) as [xs|]; cbn in *; [|discriminate].
    injection H as <-. destruct (IH xs eq_refl) as (xs' & -> & Hxs). cbn.
    exists (x :: xs'). split; [reflexivity | now constructor].
  - destruct (nth_error l j) as [y|]; cbn in *; [|discriminate].
    destruct (nth_error l i) as [x|]; cbn in *; [|discriminate].
    destruct (mapM (nth_error l) idx) as [xs|]; cbn in *; [|discriminate].
    injection H as <-. exists (x :: y :: xs). split; [reflexivity | apply perm_swap].
  - destruct (IH1 out H) as (out2 & H2 & P2).
    destruct (IH2 out2 H2) as (out3 & H3 & P3).
    exists out3. split; [exact H3 | now transitivity out2].
Qed.

Lemma map_snd_combine_seq (keys : list Q) (s : nat) :
  map snd (combine keys (seq s (List.length keys))) = seq s (List.length keys).
Proof.
  revert s. induction keys as [|k t IH]; intros s; cbn; [reflexivity|].
  now rewrite IH.
Qed.

Lemma argsort_perm (keys : list Q) :
  Permutation (argsort keys) (seq 0 (List.length keys)).
Proof.
  unfold argsort. rewrite (Permutation_map _ (sort_keys_perm _)).
  now rewrite map_snd_combine_seq.
Qed.

(** Reading a list along a permutation of its indices rearranges it. *)
Lemma take_argsort_perm {A} (l : list A) (keys : list Q) (out : list A) :
  List.length keys = List.length l ->
  take l (argsort keys) = Some out -> Permutation out l.
Proof.
  intros Hlen H.
  destruct (take_perm l _ _ out (argsort_perm keys) H) as (out' & H' & Hp).
  rewrite Hlen in H'. pose proof (take_seq_self [] l) as Hself.
  cbn in Hself. rewrite Hself in H'. injection H' as <-. exact Hp.
Qed.

Lemma sorted_by_sorted {A} (key : A -> Q) (l : list A) :
  StronglySorted (fun x y => (key x <= key y)%Q) l -> sorted_by key l = l.
Proof.
  induction 1 as [|x t _ IH Hall]; [reflexivity|].
  cbn. fold (sorted_by key t). rewrite IH.
  destruct t as [|y t']; [reflexivity|]. cbn.
  inversion Hall as [|? ? Hxy _]; subst.
  apply Qle_bool_iff in Hxy. now rewrite Hxy.
Qed.

Lemma combine_sorted {A} (R : Q -> Q -> Prop) (cs : list A) (ws : list Q) :
  StronglySorted R ws ->
  StronglySorted (fun p q => R (snd p) (snd q)) (combine cs ws).
Proof.
  intros H. revert cs. induction H as [|w t _ IH Hall]; intros [|c cs]; cbn;
    try constructor.
  - apply IH.
  - apply Forall_forall. intros [c' w'] Hin. apply in_combine_r in Hin.
    rewrite Forall_forall in Hall. cbn. now apply Hall.
Qed.

Lemma StronglySorted_weaken {A} (R R' : A -> A -> Prop) (l : list A) :
  (forall x y, R x y -> R' x y) -> StronglySorted R l -> StronglySorted R' l.
Proof.
  intros HR. induction 1 as [|x t _ IH Hall]; constructor; [exact IH|].
  eapply Forall_impl; [|exact Hall]. intros y. apply HR.
Qed.

Lemma sumZ_upper (l : list Z) (x : Z) :
  Forall (fun c => 0 <= c) l -> In x l -> x <= sumZ l.
Proof.
  induction 1 as [|c t Hc Ht IH]; intros Hin; [destruct Hin|].
  rewrite sumZ_cons.
  assert (0 <= sumZ t).
  { clear - Ht. induction Ht as [|c t Hc _ IH]; [reflexivity|].
    rewrite sumZ_cons. lia. }
  destruct Hin as [-> | Hin]; [lia|]. specialize (IH Hin). lia.
Qed.

Lemma bincount_nonneg (labels : list nat) (n : nat) :
  Forall (fun c => 0 <= c) (bincount labels n).
Proof.
  unfold bincount. apply Forall_forall. intros c Hc.
  apply in_map_iff in Hc. destruct Hc as (j & <- & _). lia.
Qed.

End MoreListFacts.

Section MoreExtractorFacts.
Context {cv : OpenCV} {rng : NumpyRandom}.

(** What a successful run went through. *)
Lemma kmeans_colors_inv (img : image) (k sample seed max_side : Z)
    (cs : list (list Z)) (ws : list Q) :
  kmeans_colors img k sample seed max_side = Some (cs, ws) ->
  exists (frame data : list rgb) (labels : list nat),
    downscale img max_side = Some frame /\
    subsample frame sample seed = Some data /\
    0 < k /\ frame <> [] /\
    let centers := map (map clip_uint8) (kmeans_centers data k) in
    let weights := normalize (bincount labels (Z.to_nat k)) in
    List.length centers = Z.to_nat k /\
    assign_labels frame centers = Some labels /\
    take centers (argsort (map Qopp weights)) = Some cs /\
    take weights (argsort (map Qopp weights)) = Some ws.
Proof.
  unfold kmeans_colors.
  destruct (downscale img max_side) as [frame|]; cbn [bind]; [|discriminate].
  destruct (subsample frame sample seed) as [data|] eqn:Hdata; cbn [bind];
    [|discriminate].
  destruct (cv_kmeans data k) as [centers_f|] eqn:Hkm; cbn [bind]; [|discriminate].
  apply cv_kmeans_inv in Hkm as (Hk & Hne & ->).
  unfold cluster_counts.
  destruct (assign_labels frame _) as [labels|] eqn:Hl; cbn [bind]; [|discriminate].
  destruct (take (map (map clip_uint8) (kmeans_centers data k)) _) as [cs'|] eqn:Hcs;
    cbn [bind]; [|discriminate].
  destruct (take (normalize _) _) as [ws'|] eqn:Hws; cbn [bind]; [|discriminate].
  intros [= <- <-]. exists frame, data, labels.
  split; [reflexivity|]. split; [exact Hdata|]. split; [exact Hk|].
  split; [eapply subsample_nonempty; eassumption|].
  cbn zeta. split; [|split; [exact Hl | split; [exact Hcs | exact Hws]]].
  rewrite length_map. now apply kmeans_centers_rows.
Qed.

End MoreExtractorFacts.

(** X11. Every pixel of the frame is labelled with the nearest centre in
    squared Euclidean RGB distance, and with the first one among equally
    near centres. *)
Theorem assign_labels_nearest (frame : list rgb) (centers : list (list Z))
    (labels : list nat) (i : nat) (p : rgb) (l : nat) :
  assign_labels frame centers = Some labels ->
  nth_error frame i = Some p -> nth_error labels i = Some l ->
  exists (cs : list rgb) (c : rgb),
    mapM broadcast3 centers = Some cs /\ nth_error cs l = Some c /\
    (forall j c', nth_error cs j = Some c' -> sqdist p c <= sqdist p c') /\
    (forall j c', (j < l)%nat -> nth_error cs j = Some c' ->
                  sqdist p c < sqdist p c').
Proof.
  unfold assign_labels.
  destruct (mapM broadcast3 centers) as [cs|]; cbn [bind]; [|discriminate].
  intros H Hp Hl. apply mapM_Forall2 in H.
  pose proof (Forall2_nth_error _ _ _ _ _ _ H Hp Hl) as Hmin. cbn beta in Hmin.
  apply (argmin_some Z.ltb Z.ltb_irrefl Zltb_trans Zltb_le_trans) in Hmin.
  destruct Hmin as (m & Hm & Hall & Hbefore).
  rewrite nth_error_map in Hm.
  destruct (nth_error cs l) as [c|] eqn:Hc; [|discriminate].
  cbn in Hm. injection Hm as <-.
  exists cs, c. repeat split; trivial.
  - intros j c' Hj. apply Z.ltb_ge. apply (Hall j).
    now rewrite nth_error_map, Hj.
  - intros j c' Hlt Hj. apply Z.ltb_lt. apply (Hbefore j); [exact Hlt|].
    now rewrite nth_error_map, Hj.
Qed.

Lemma assign_labels_nearest_witness :
  exists (cs : list rgb) (c : rgb),
    mapM broadcast3 [[255; 0; 0]; [0; 0; 255]; [255; 0; 0]] = Some cs /\
    nth_error cs 1 = Some c /\
    (forall j c', nth_error cs j = Some c' ->
                  sqdist (0, 0, 255) c <= sqdist (0, 0, 255) c') /\
    (forall j c', (j < 1)%nat -> nth_error cs j = Some c' ->
                  sqdist (0, 0, 255) c < sqdist (0, 0, 255) c').
Proof.
  apply (assign_labels_nearest (pixels red_blue_2x2)
           [[255; 0; 0]; [0; 0; 255]; [255; 0; 0]] [0; 0; 1; 1]%nat 2);
    reflexivity.
Defined.

(** X12. The centres and weights returned are a joint rearrangement of the
    clipped cluster centres and their normalised counts: each centre keeps
    its own weight. *)
Theorem kmeans_colors_pairs {cv : OpenCV} {rng : NumpyRandom}
    (img : image) (k sample seed max_side : Z)
    (cs : list (list Z)) (ws : list Q) :
  kmeans_colors img k sample seed max_side = Some (cs, ws) ->
  exists (frame data : list rgb) (counts : list Z),
    downscale img max_side = Some frame /\
    subsample frame sample seed = Some data /\
    cluster_counts frame (map (map clip_uint8) (kmeans_centers data k)) k =
      Some counts /\
    List.length cs = List.length ws /\
    Permutation (combine cs ws)
      (combine (map (map clip_uint8) (kmeans_centers data k)) (normalize counts)).
Proof.
  intros H. apply kmeans_colors_inv in H.
  destruct H as (frame & data & labels & Hf & Hd & Hk & Hne & Hlen & Hl & Hcs & Hws).
  cbn zeta in *.
  exists frame, data, (bincount labels (Z.to_nat k)).
  split; [exact Hf|]. split; [exact Hd|]. split.
  { unfold cluster_counts. rewrite Hl. reflexivity. }
  split.
  { apply mapM_length in Hcs. apply mapM_length in Hws. congruence. }
  pose proof (take_combine _ _ _ _ _ Hcs Hws) as Hboth.
  apply (take_argsort_perm _ _ _) in Hboth; [exact Hboth|].
  apply assign_labels_spec in Hl as [_ Hall]. rewrite Hlen in Hall.
  destruct (bincount_spec labels (Z.to_nat k) Hall) as [Hb _].
  rewrite length_map, length_combine, normalize_length, Hlen, Hb.
  now rewrite Nat.min_id.
Qed.

Lemma kmeans_colors_pairs_witness :
  exists (frame data : list rgb) (counts : list Z),
    downscale (cv := simple_cv) red_blue_2x2 1024 = Some frame /\
    subsample (rng := simple_rng) frame 400000 42 = Some data /\
    cluster_counts frame
      (map (map clip_uint8) (kmeans_centers (OpenCV := simple_cv) data 3)) 3 =
      Some counts /\
    List.length [[255; 0; 0]; [0; 0; 255]; [255; 0; 0]] =
    List.length [2 # 4; 2 # 4; 0 # 4]%Q /\
    Permutation
      (combine [[255; 0; 0]; [0; 0; 255]; [255; 0; 0]] [2 # 4; 2 # 4; 0 # 4]%Q)
      (combine (map (map clip_uint8) (kmeans_centers (OpenCV := simple_cv) data 3))
               (normalize counts)).
Proof.
  apply (kmeans_colors_pairs (cv := simple_cv) (rng := simple_rng)
           red_blue_2x2 3 400000 42 1024).
  vm_compute. reflexivity.
Defined.

(** X13. Every weight returned lies between 0 and 1. *)
Theorem kmeans_colors_weight_range {cv : OpenCV} {rng : NumpyRandom}
    (img : image) (k sample seed max_side : Z)
    (cs : list (list Z)) (ws : list Q) :
  kmeans_colors img k sample seed max_side = Some (cs, ws) ->
  Forall (fun w => (0 <= w /\ w <= 1)%Q) ws.
Proof.
  intros H. apply kmeans_colors_inv in H.
  destruct H as (frame & data & labels & _ & _ & Hk & Hne & Hlen & Hl & _ & Hws).
  cbn zeta in *.
  apply take_argsort_perm in Hws; [|now rewrite length_map].
  apply assign_labels_spec in Hl as [Hll Hall]. rewrite Hlen in Hall.
  destruct (bincount_spec labels (Z.to_nat k) Hall) as [_ Hsum].
  set (counts := bincount labels (Z.to_nat k)) in *.
  assert (Hpos : 0 < sumZ counts).
  { rewrite Hsum, Hll. destruct frame; [congruence | cbn [List.length]; lia]. }
  apply Forall_forall. intros w Hw.
  apply (Permutation_in _ Hws) in Hw. unfold normalize in Hw.
  apply in_map_iff in Hw. destruct Hw as (c & <- & Hc).
  pose proof (bincount_nonneg labels (Z.to_nat k)) as Hnn. fold counts in Hnn.
  pose proof (sumZ_upper counts c Hnn Hc) as Hle.
  rewrite Forall_forall in Hnn. specialize (Hnn c Hc).
  unfold Qle, Qdiv, Qmult, Qinv, inject_Z. cbn.
  destruct (sumZ counts) as [|t|t] eqn:Et; try lia. cbn. split; nia.
Qed.

Lemma kmeans_colors_weight_range_witness :
  Forall (fun w => (0 <= w /\ w <= 1)%Q) [2 # 4; 2 # 4; 0 # 4]%Q.
Proof.
  apply (kmeans_colors_weight_range (cv := simple_cv) (rng := simple_rng)
           red_blue_2x2 3 400000 42 1024
           [[255; 0; 0]; [0; 0; 255]; [255; 0; 0]]).
  vm_compute. reflexivity.
Defined.

(** X14. With the default ["weight (desc)"] ordering [main] shows the
    colours in the order the extractor returned them: the stable sort by
    descending weight changes nothing. *)
Theorem weight_sort_keeps_order {cv : OpenCV} {rng : NumpyRandom}
    (img : image) (k sample seed max_side : Z)
    (cs : list (list Z)) (ws : list Q) :
  kmeans_colors img k sample seed max_side = Some (cs, ws) ->
  sort_by_weight_desc (combine cs ws) = combine cs ws.
Proof.
  intros H. apply kmeans_colors_inv in H.
  destruct H as (frame & data & labels & _ & _ & _ & _ & _ & _ & _ & Hws).
  cbn zeta in Hws. rewrite take_argsort_weights in Hws. injection Hws as <-.
  unfold sort_by_weight_desc. apply sorted_by_sorted.
  apply (combine_sorted (fun x y => (- x <= - y)%Q)).
  pose proof (sorted_opp_descending _ (sort_keys_sorted
    (combine (map Qopp (normalize (bincount labels (Z.to_nat k))))
       (seq 0 (List.length (map Qopp (normalize (bincount labels (Z.to_nat k))))))))) as Hs.
  eapply StronglySorted_weaken; [|exact Hs].
  intros x y Hxy. cbn beta in Hxy. now apply Qopp_le_compat.
Qed.

Lemma weight_sort_keeps_order_witness :
  sort_by_weight_desc
    (combine [[255; 0; 0]; [0; 0; 255]; [255; 0; 0]] [2 # 4; 2 # 4; 0 # 4]%Q) =
  combine [[255; 0; 0]; [0; 0; 255]; [255; 0; 0]] [2 # 4; 2 # 4; 0 # 4]%Q.
Proof.
  apply (weight_sort_keeps_order (cv := simple_cv) (rng := simple_rng)
           red_blue_2x2 3 400000 42 1024).
  vm_compute. reflexivity.
Defined.

(** ** Frame sizes in binary64 *)

Section FrameSizeFacts.

Lemma zrange_In (n : nat) (start w : Z) :
  start <= w < start + Z.of_nat n -> In w (zrange n start).
Proof.
  revert start. induction n as [|n IH]; intros start H; [lia|].
  cbn [zrange]. destruct (Z.eq_dec start w) as [->|Hne]; [now left|].
  right. apply IH. lia.
Qed.

Lemma wide_sides_complete (w : Z) : 1024 < w <= 65535 -> In w wide_sides.
Proof. intros H. apply zrange_In. rewrite Z2Nat.id; lia. Qed.

Lemma strips_scale_to_zero :
  forallb (fun w => snd (scaled_size 1 w 1024) =? 0) wide_sides = true.
Proof. vm_compute. reflexivity. Qed.

Lemma long_sides_lose_at_most_one :
  forallb (fun w => (long_side w =? 1023) || (long_side w =? 1024)) wide_sides = true.
Proof. vm_compute. reflexivity. Qed.

End FrameSizeFacts.

(** X15. A strip one pixel high and 1025 to 65535 pixels wide is rejected
    under the default side limit, whatever its pixels and the other
    parameters: its height scales to [int(1 * (1024 / w))] = 0. *)
Theorem kmeans_colors_thin_strips {cv : OpenCV} {rng : NumpyRandom}
    (w : Z) (px : list rgb) (k sample seed : Z) :
  1024 < w <= 65535 ->
  kmeans_colors {| height := 1; width := w; pixels := px |} k sample seed 1024 =
  None.
Proof.
  intros Hw. pose proof strips_scale_to_zero as Hall.
  rewrite forallb_forall in Hall.
  specialize (Hall w (wide_sides_complete w Hw)). apply Z.eqb_eq in Hall.
  unfold kmeans_colors, downscale. cbn [height width pixels].
  replace (Z.max 1 w >? 1024) with true by (symmetry; apply Z.gtb_lt; lia).
  replace (Z.max 1 w =? 0) with false by (symmetry; apply Z.eqb_neq; lia).
  destruct (scaled_size 1 w 1024) as [w' h']. cbn [snd] in Hall. subst h'.
  unfold cv_resize. now rewrite andb_false_r.
Qed.

Lemma kmeans_colors_thin_strips_witness :
  kmeans_colors (cv := simple_cv) (rng := simple_rng)
    {| height := 1; width := 2000; pixels := repeat (128, 128, 128) 2000 |}
    6 400000 42 1024 = None.
Proof.
  apply (kmeans_colors_thin_strips (cv := simple_cv) (rng := simple_rng) 2000).
  lia.
Defined.

(** X16. When the width is the long side and lies between 1025 and 65535,
    the downscaled width is 1024 or, where the binary64 product falls just
    below 1024, 1023: a square of side 1122 becomes 1023 x 1023. *)
Theorem downscaled_long_side (h w : Z) :
  0 <= h <= w -> 1024 < w <= 65535 ->
  (fst (scaled_size h w 1024) = 1023 \/ fst (scaled_size h w 1024) = 1024) /\
  scaled_size 1122 1122 1024 = (1023, 1023).
Proof.
  intros Hh Hw. split; [|vm_compute; reflexivity].
  assert (E : fst (scaled_size h w 1024) = long_side w).
  { unfold scaled_size, long_side. rewrite Z.max_r by lia. reflexivity. }
  rewrite E. pose proof long_sides_lose_at_most_one as Hall.
  rewrite forallb_forall in Hall.
  specialize (Hall w (wide_sides_complete w Hw)).
  apply orb_prop in Hall as [H|H]; apply Z.eqb_eq in H; auto.
Qed.

Lemma downscaled_long_side_witness :
  (fst (scaled_size 1080 1920 1024) = 1023 \/
   fst (scaled_size 1080 1920 1024) = 1024) /\
  scaled_size 1122 1122 1024 = (1023, 1023).
Proof. apply (downscaled_long_side 1080 1920); lia. Defined.

(** ** The remote palette *)

Section RegexFacts.

Lemma strip_prefix_has_char (c : ascii) (w s t : string) :
  strip_prefix w s = Some t -> has_char c w = true -> has_char c s = true.
Proof.
  revert s. induction w as [|a w IH]; intros s H Hc; [discriminate|].
  cbn in H. destruct s as [|d s]; [discriminate|].
  destruct (Ascii.eqb_spec a d) as [->|]; [|discriminate].
  cbn in Hc |- *. destruct (Ascii.eqb c d); [reflexivity|]. cbn in *.
  now apply IH.
Qed.

Lemma strip_prefix_blocked (c : ascii) (w s : string) :
  has_char c w = true -> has_char c s = false -> strip_prefix w s = None.
Proof.
  intros Hw Hs. destruct (strip_prefix w s) as [t|] eqn:E; [|reflexivity].
  rewrite (strip_prefix_has_char c w s t E Hw) in Hs. discriminate.
Qed.

(** Both alternatives of the pattern start with a word that ends in a
    backslash. *)
Lemma js_object_pattern_blocked (s : string) (caps : captures)
    (k : string -> captures -> option captures) :
  has_char "\" s = false -> re_match js_object_pattern s caps k = None.
Proof.
  intros Hs. unfold js_object_pattern. cbn [re_match].
  rewrite (strip_prefix_blocked "\" "module\" s eq_refl Hs).
  rewrite (strip_prefix_blocked "\" "export\" s eq_refl Hs). reflexivity.
Qed.

Lemma re_search_blocked (s : string) :
  has_char "\" s = false -> re_search js_object_pattern s = None.
Proof.
  induction s as [|d t IH]; intros Hs; cbn [re_search];
    rewrite js_object_pattern_blocked by exact Hs; [reflexivity|].
  apply IH. cbn in Hs. now apply orb_false_elim in Hs.
Qed.

Lemma extract_js_object_needs_backslash_aux (js_text : string) :
  has_char "\" js_text = false -> _extract_js_object js_text = None.
Proof.
  intros H. unfold _extract_js_object. now rewrite re_search_blocked.
Qed.

End RegexFacts.

(** X17. [_extract_js_object] finds nothing in a text without a backslash:
    the doubled backslashes of its raw pattern demand literal backslashes,
    so JavaScript such as [module.exports = {...}] raises [ValueError]. *)
Theorem extract_js_object_needs_backslash (js_text : string) :
  has_char "\" js_text = false -> _extract_js_object js_text = None.
Proof. apply extract_js_object_needs_backslash_aux. Qed.

Lemma extract_js_object_needs_backslash_witness :
  _extract_js_object colors_js = None.
Proof. apply (extract_js_object_needs_backslash colors_js). reflexivity. Defined.

(** X18. When no response body holds a backslash, every candidate URL is
    given up and the palette fetched is the built-in fallback table. *)
Theorem fetch_falls_back {web : Web} :
  (forall url text, http_get url = Some text -> has_char "\" text = false) ->
  fetch_tailwind_full_palette = FALLBACK_TAILWIND.
Proof.
  intros Hweb. unfold fetch_tailwind_full_palette.
  assert (Htry : forall url, try_url url = None).
  { intros url. unfold try_url.
    destruct (http_get url) as [text|] eqn:E; cbn [bind]; [|reflexivity].
    now rewrite (extract_js_object_needs_backslash_aux text (Hweb url text E)). }
  induction CDN_CANDIDATES as [|url rest IH]; cbn [fetch_from]; [reflexivity|].
  now rewrite Htry.
Qed.

Lemma fetch_falls_back_witness :
  fetch_tailwind_full_palette (web := sample_web) = FALLBACK_TAILWIND.
Proof.
  apply (fetch_falls_back (web := sample_web)).
  intros url text H. injection H as <-. reflexivity.
Defined.

Section AliasFacts.

Lemma dict_pop_absent {V} (k : string) (d : list (string * V)) :
  ~ In k (map fst (dict_pop String.eqb k d)).
Proof.
  unfold dict_pop. intros Hin. apply in_map_iff in Hin.
  destruct Hin as ([k' v] & Hk & Hf). cbn in Hk. subst k'.
  apply filter_In in Hf as [_ Hf]. cbn in Hf.
  now rewrite String.eqb_refl in Hf.
Qed.

Lemma dict_pop_subset {V} (k x : string) (d : list (string * V)) :
  In x (map fst (dict_pop String.eqb k d)) -> In x (map fst d).
Proof.
  unfold dict_pop. intros Hin. apply in_map_iff in Hin.
  destruct Hin as (kv & Hk & Hf). apply filter_In in Hf as [Hf _].
  apply in_map_iff. now exists kv.
Qed.

Lemma drop_aliases_absent (p : palette) (x : string) :
  In x ["lightBlue"; "warmGray"; "blueGray"]%string ->
  ~ In x (map fst (drop_aliases p)).
Proof.
  unfold drop_aliases. intros [<- | [<- | [<- | []]]] Hin.
  - apply dict_pop_subset, dict_pop_subset in Hin.
    now apply dict_pop_absent in Hin.
  - apply dict_pop_subset in Hin. now apply dict_pop_absent in Hin.
  - now apply dict_pop_absent in Hin.
Qed.

End AliasFacts.

(** X19. Whatever the network returns, the palette fetched has no family
    named after the deprecated aliases lightBlue, warmGray and blueGray. *)
Theorem fetched_palette_without_aliases {web : Web} (x : string) :
  In x ["lightBlue"; "warmGray"; "blueGray"]%string ->
  ~ In x (map fst fetch_tailwind_full_palette).
Proof.
  intros Hx. unfold fetch_tailwind_full_palette.
  induction CDN_CANDIDATES as [|url rest IH]; cbn [fetch_from].
  - destruct Hx as [<- | [<- | [<- | []]]]; intros Hin; cbn in Hin;
      repeat (destruct Hin as [Hin | Hin]; [discriminate Hin|]); exact Hin.
  - destruct (try_url url) as [p|] eqn:E; [|exact IH].
    unfold try_url in E.
    destruct (http_get url) as [text|]; cbn [bind] in E; [|discriminate].
    destruct (_extract_js_object text) as [obj|]; cbn [bind] in E; [|discriminate].
    destruct (json5_loads obj) as [raw|]; cbn [bind] in E; [|discriminate].
    destruct (keep_objects raw) as [p0|]; cbn [bind] in E; [|discriminate].
    injection E as <-. now apply drop_aliases_absent.
Qed.

Lemma fetched_palette_without_aliases_witness :
  ~ In "warmGray"%string (map fst (fetch_tailwind_full_palette (web := sample_web))).
Proof.
  apply (fetched_palette_without_aliases (web := sample_web) "warmGray").
  right. left. reflexivity.
Defined.

(** ** Building the palette arrays *)

Section BuildFacts.
Context {cv : OpenCV}.

Lemma mapM_fails {A B} (f : A -> option B) (l : list A) (x : A) :
  In x l -> f x = None -> mapM f l = None.
Proof.
  induction l as [|y t IH]; intros Hin Hx; [destruct Hin|].
  cbn. destruct Hin as [-> | Hin].
  - now rewrite Hx.
  - destruct (f y); cbn; [|reflexivity]. now rewrite (IH Hin Hx).
Qed.

Lemma build_inv (p : palette) (entries : list TWEntry) (lab_arr : list lab) :
  build_entries_and_lab p = Some (entries, lab_arr) ->
  entries = palette_entries p /\
  exists rgbs,
    mapM (fun e => hex_to_rgb (tw_hex e)) entries = Some rgbs /\
    Forall valid_rgb rgbs /\
    rgb_to_lab rgbs = Some lab_arr.
Proof.
  unfold build_entries_and_lab.
  destruct (mapM _ (palette_entries p)) as [rgbs|] eqn:Hm; cbn [bind]; [|discriminate].
  destruct (np_array_uint8 rgbs) as [arr|] eqn:Ha; cbn [bind]; [|discriminate].
  apply np_array_uint8_some in Ha as [-> Hv].
  destruct (rgb_to_lab rgbs) as [l|] eqn:Hl; cbn [bind]; [|discriminate].
  intros [= <- <-]. split; [reflexivity|]. now exists rgbs.
Qed.

End BuildFacts.

(** X20. The fallback table always builds: its 22 families of 3 shades give
    66 entries, every hex string is a well-formed literal, and the Lab
    array has one row per entry. *)
Theorem fallback_palette_builds {cv : OpenCV} :
  exists lab_arr : list lab,
    build_entries_and_lab FALLBACK_TAILWIND =
      Some (palette_entries FALLBACK_TAILWIND, lab_arr) /\
    List.length (palette_entries FALLBACK_TAILWIND) = 66%nat /\
    List.length lab_arr = 66%nat /\
    forallb (fun e => well_formed_hex (tw_hex e))
            (palette_entries FALLBACK_TAILWIND) = true.
Proof.
  assert (Hm : exists rgbs,
             mapM (fun e => hex_to_rgb (tw_hex e)) (palette_entries FALLBACK_TAILWIND)
             = Some rgbs /\ List.length rgbs = 66%nat /\
             np_array_uint8 rgbs = Some rgbs).
  { eexists. split; [vm_compute; reflexivity | split; reflexivity]. }
  destruct Hm as (rgbs & Hm & Hlen & Harr).
  assert (Hne : rgbs <> []) by (intros ->; discriminate Hlen).
  eexists. split; [|split; [reflexivity | split; [|vm_compute; reflexivity]]].
  - unfold build_entries_and_lab. rewrite Hm. cbn [bind]. rewrite Harr. cbn [bind].
    rewrite (rgb_to_lab_map rgbs Hne). reflexivity.
  - now rewrite length_map.
Qed.

(** X21. When the arrays build, the entries are those of the palette in
    order, the Lab array has one row per entry, and row i is the Lab
    conversion of the colour that entry i's hex string decodes to. *)
Theorem build_entries_aligned {cv : OpenCV} (p : palette)
    (entries : list TWEntry) (lab_arr : list lab) (i : nat) (e : TWEntry) :
  build_entries_and_lab p = Some (entries, lab_arr) ->
  nth_error entries i = Some e ->
  entries = palette_entries p /\
  List.length entries = List.length lab_arr /\
  exists c row,
    hex_to_rgb (tw_hex e) = Some c /\ nth_error lab_arr i = Some row /\
    rgb_to_lab [c] = Some [row].
Proof.
  intros H He. apply build_inv in H as (Hent & rgbs & Hm & Hvalid & Hl).
  split; [exact Hent|].
  pose proof (mapM_length _ _ _ Hm) as Hlen1.
  pose proof (rgb_to_lab_length _ _ Hl) as Hlen2.
  split; [congruence|].
  assert (Hi : (i < List.length rgbs)%nat).
  { rewrite Hlen1. apply nth_error_Some. congruence. }
  destruct (nth_error rgbs i) as [c|] eqn:Hc.
  2:{ apply nth_error_None in Hc. lia. }
  apply mapM_Forall2 in Hm.
  pose proof (Forall2_nth_error _ _ _ _ _ _ Hm He Hc) as Hhex. cbn beta in Hhex.
  assert (Hne : rgbs <> []) by (intros ->; destruct i; discriminate).
  rewrite (rgb_to_lab_map rgbs Hne) in Hl. injection Hl as <-.
  exists c. eexists. split; [exact Hhex|]. split.
  - rewrite nth_error_map, Hc. reflexivity.
  - reflexivity.
Qed.

Lemma build_entries_aligned_witness :
  [{| tw_name := "red"; tw_shade := 500; tw_hex := "#ef4444" |}] =
    palette_entries [("red"%string, [(500, "#ef4444"%string)])] /\
  List.length [{| tw_name := "red"; tw_shade := 500; tw_hex := "#ef4444" |}] =
    List.length [(125, 213, 128)%R] /\
  exists c row,
    hex_to_rgb "#ef4444" = Some c /\
    nth_error [(125, 213, 128)%R] 0 = Some row /\
    rgb_to_lab (cv := simple_cv) [c] = Some [row].
Proof.
  apply (build_entries_aligned (cv := simple_cv)
           [("red"%string, [(500, "#ef4444"%string)])]
           [{| tw_name := "red"; tw_shade := 500; tw_hex := "#ef4444" |}]
           [(125, 213, 128)%R] 0
           {| tw_name := "red"; tw_shade := 500; tw_hex := "#ef4444" |});
    reflexivity.
Defined.

(** X22. Building fails when the palette has no entry at all, and as soon
    as one of its hex strings does not decode. *)
Theorem build_rejects_bad_hex {cv : OpenCV} (p : palette) :
  palette_entries p = [] \/
  (exists e, In e (palette_entries p) /\ hex_to_rgb (tw_hex e) = None) ->
  build_entries_and_lab p = None.
Proof.
  unfold build_entries_and_lab. intros [Hnil | (e & Hin & Hbad)].
  - rewrite Hnil. reflexivity.
  - now rewrite (mapM_fails _ _ e Hin Hbad).
Qed.

Lemma build_rejects_bad_hex_witness :
  build_entries_and_lab (cv := simple_cv)
    [("gray"%string, [(400, "#9ca3af"%string); (500, "#fff"%string)])] = None.
Proof.
  apply (build_rejects_bad_hex (cv := simple_cv)
           [("gray"%string, [(400, "#9ca3af"%string); (500, "#fff"%string)])]).
  right. exists {| tw_name := "gray"; tw_shade := 500; tw_hex := "#fff" |}.
  split; [right; left; reflexivity | reflexivity].
Defined.

(** ** Hex strings, further *)

Section MoreHexFacts.

Lemma hex_digits_length (fuel : nat) (n : Z) (acc : string) :
  (String.length acc < String.length (hex_digits fuel n acc))%nat.
Proof.
  revert n acc. induction fuel as [|f IH]; intros n acc; cbn [hex_digits].
  - cbn. lia.
  - destruct (n / 16 =? 0); [cbn; lia|].
    specialize (IH (n / 16) (String (hex_char (n mod 16)) acc)). cbn in IH. lia.
Qed.

Lemma to_hex_long (n : Z) : 256 <= n -> (3 <= String.length (to_hex n))%nat.
Proof.
  intros Hn. unfold to_hex.
  assert (Hlog : 8 <= Z.log2 n) by (apply Z.log2_le_pow2; lia).
  destruct (Z.to_nat (Z.log2 n)) as [|[|f]] eqn:E; try lia.
  cbn [hex_digits].
  replace (n / 16 =? 0) with false
    by (symmetry; apply Z.eqb_neq; Z.div_mod_to_equations; lia).
  replace (n / 16 / 16 =? 0) with false
    by (symmetry; apply Z.eqb_neq; Z.div_mod_to_equations; lia).
  match goal with
  | |- context [hex_digits f ?m ?acc] => pose proof (hex_digits_length f m acc) as H
  end.
  cbn in H. lia.
Qed.

Lemma format_02x_length (n : Z) : (2 <= String.length (format_02x n))%nat.
Proof.
  unfold format_02x. destruct (n <? 0).
  - pose proof (hex_digits_length (Z.to_nat (Z.log2 (- n))) (- n) EmptyString) as H.
    unfold to_hex. cbn in *. lia.
  - pose proof (hex_digits_length (Z.to_nat (Z.log2 n)) n EmptyString) as H.
    fold (to_hex n) in H. cbn in H.
    destruct (String.length (to_hex n) <? 2)%nat eqn:E; cbn.
    + lia.
    + apply Nat.ltb_ge in E. exact E.
Qed.

(** A channel that prints as two hex digits is a byte. *)
Lemma format_02x_two_digits (n : Z) (a b : ascii) :
  format_02x n = String a (String b EmptyString) ->
  is_hex_digit a = true -> is_uint8 n.
Proof.
  intros E Ha. unfold is_uint8.
  destruct (Z.ltb_spec n 0) as [Hneg|Hpos].
  - unfold format_02x in E. replace (n <? 0) with true in E
      by (symmetry; now apply Z.ltb_lt).
    injection E as <- _. discriminate Ha.
  - split; [exact Hpos|]. destruct (Z.le_gt_cases n 255) as [H|H]; [exact H|].
    exfalso. pose proof (to_hex_long n ltac:(lia)) as Hlen.
    unfold format_02x in E. replace (n <? 0) with false in E
      by (symmetry; apply Z.ltb_ge; lia).
    replace (String.length (to_hex n) <? 2)%nat with false in E
      by (symmetry; apply Nat.ltb_ge; lia).
    rewrite E in Hlen. cbn in Hlen. lia.
Qed.

Lemma append_length (s t : string) :
  String.length (s ++ t) = (String.length s + String.length t)%nat.
Proof. induction s as [|c s IH]; cbn; [reflexivity | now rewrite IH]. Qed.

Lemma length_two (s : string) :
  String.length s = 2%nat -> exists a b, s = String a (String b EmptyString).
Proof.
  destruct s as [|a [|b [|c s]]]; cbn; try discriminate. intros _. now exists a, b.
Qed.

End MoreHexFacts.

Lemma rgb_to_hex_valid (c : rgb) :
  valid_rgb c ->
  well_formed_hex (rgb_to_hex c) = true /\ lower (rgb_to_hex c) = rgb_to_hex c.
Proof.
  destruct c as [[r g] b].
  { intros (Hr & Hg & Hb).
    assert (Hch : forall n, is_uint8 n ->
              exists x y, format_02x n = String x (String y EmptyString) /\
                is_hex_digit x = true /\ is_hex_digit y = true /\
                lower_char x = x /\ lower_char y = y).
    { intros n Hn. apply all_uint8_complete in Hn.
      assert (Hall : forallb
                (fun n => match format_02x n with
                          | String x (String y EmptyString) =>
                              is_hex_digit x && is_hex_digit y &&
                              Ascii.eqb (lower_char x) x && Ascii.eqb (lower_char y) y
                          | _ => false
                          end) all_uint8 = true) by (vm_compute; reflexivity).
      rewrite forallb_forall in Hall. specialize (Hall n Hn).
      destruct (format_02x n) as [|x [|y [|? ?]]]; try discriminate.
      exists x, y.
      repeat match type of Hall with
             | (_ && _)%bool = true => apply andb_prop in Hall as [Hall ?]
             end.
      repeat split; trivial; now apply Ascii.eqb_eq. }
    cbn [rgb_to_hex].
    destruct (Hch r Hr) as (r1 & r2 & -> & ? & ? & ? & ?).
    destruct (Hch g Hg) as (g1 & g2 & -> & ? & ? & ? & ?).
    destruct (Hch b Hb) as (b1 & b2 & -> & ? & ? & ? & ?).
    cbn [rgb_to_hex append well_formed_hex forallb lower].
    split.
    - change (is_hash "#") with true.
      repeat (apply andb_true_intro; split); trivial.
    - rewrite lower_hash. congruence. }
Qed.

Lemma hex_decode_encode (c : rgb) :
  valid_rgb c -> hex_to_rgb (rgb_to_hex c) = Some c.
Proof.
  destruct c as [[r g] b]. intros (Hr & Hg & Hb).
  destruct (format_02x_channel r Hr) as (r1 & r2 & Er & Hr1 & Ir).
  destruct (format_02x_channel g Hg) as (g1 & g2 & Eg & _ & Ig).
  destruct (format_02x_channel b Hb) as (b1 & b2 & Eb & _ & Ib).
  unfold rgb_to_hex, hex_to_rgb. rewrite Er, Eg, Eb. cbn [append lstrip_by].
  change (is_hash "#") with true. cbn iota.
  rewrite (hex_digit_not_hash r1 Hr1).
  unfold slice2. cbn [substring]. rewrite Ir, Ig, Ib. reflexivity.
Qed.

(** X23. [rgb_to_hex] prints a well-formed ["#rrggbb"] literal exactly for
    the colours with every channel in [0,255], and that literal is in
    lower case; any other triple prints as something else. *)
Theorem rgb_to_hex_well_formed_iff (c : rgb) :
  (well_formed_hex (rgb_to_hex c) = true <-> valid_rgb c) /\
  (valid_rgb c -> lower (rgb_to_hex c) = rgb_to_hex c).
Proof.
  pose proof (rgb_to_hex_valid c) as Hvalid.
  destruct c as [[r g] b].
  split; [split|].
  - intros Hwf.
    pose proof (format_02x_length r) as Lr.
    pose proof (format_02x_length g) as Lg.
    pose proof (format_02x_length b) as Lb.
    assert (Hlen : String.length (rgb_to_hex (r, g, b)) = 7%nat).
    { destruct (rgb_to_hex (r, g, b)) as [|h [|a1 [|a2 [|a3 [|a4 [|a5 [|a6 [|? ?]]]]]]]];
        try discriminate Hwf. reflexivity. }
    cbn [rgb_to_hex String.length] in Hlen. rewrite !append_length in Hlen.
    destruct (length_two (format_02x r)) as (r1 & r2 & Er); [lia|].
    destruct (length_two (format_02x g)) as (g1 & g2 & Eg); [lia|].
    destruct (length_two (format_02x b)) as (b1 & b2 & Eb); [lia|].
    cbn [rgb_to_hex] in Hwf. rewrite Er, Eg, Eb in Hwf.
    cbn [append well_formed_hex forallb] in Hwf.
    repeat match type of Hwf with
           | (_ && _)%bool = true => apply andb_prop in Hwf as [? Hwf]
           end.
    repeat split; eapply format_02x_two_digits; eassumption.
  - apply Hvalid.
  - apply Hvalid.
Qed.

(** X24. A string with fewer than five characters after its leading [#]
    signs, such as the shorthand ["#fff"], is rejected. *)
Theorem hex_to_rgb_short (hex_str : string) :
  (String.length (lstrip_by is_hash hex_str) <= 4)%nat ->
  hex_to_rgb hex_str = None.
Proof.
  intros Hlen. unfold hex_to_rgb.
  set (h := lstrip_by is_hash hex_str) in *.
  assert (E : slice2 h 4 = EmptyString).
  { unfold slice2.
    destruct h as [|a [|b [|c [|d [|e t]]]]]; cbn in Hlen |- *; try reflexivity. lia. }
  rewrite E. destruct (int16 (slice2 h 0)); cbn [bind]; [|reflexivity].
  destruct (int16 (slice2 h 2)); reflexivity.
Qed.

Lemma hex_to_rgb_short_witness : hex_to_rgb "#fff" = None.
Proof. apply (hex_to_rgb_short "#fff"). cbn. lia. Defined.

(** X25. Decoding looks at the first six characters after the leading [#]
    signs only: whatever follows a well-formed literal, such as an alpha
    pair, is ignored, and so is an extra leading [#]. *)
Theorem hex_to_rgb_ignores_tail (s t : string) :
  well_formed_hex s = true ->
  hex_to_rgb (s ++ t) = hex_to_rgb s /\
  hex_to_rgb (String "#" (s ++ t)) = hex_to_rgb s.
Proof.
  intros Hs.
  destruct s as [|h [|a [|b [|c [|d [|e [|f [|? ?]]]]]]]]; try discriminate.
  unfold well_formed_hex in Hs. apply andb_prop in Hs as [Hh Hs].
  apply Ascii.eqb_eq in Hh. subst h. cbn [forallb] in Hs.
  apply andb_prop in Hs as [Ha _].
  unfold hex_to_rgb. cbn [append lstrip_by]. change (is_hash "#") with true.
  cbn iota. rewrite (hex_digit_not_hash a Ha).
  unfold slice2. cbn [substring].
  assert (E0 : substring 0 0 t = EmptyString) by (destruct t; reflexivity).
  rewrite E0. split; reflexivity.
Qed.

Lemma hex_to_rgb_ignores_tail_witness :
  hex_to_rgb ("#ef4444" ++ "80") = hex_to_rgb "#ef4444" /\
  hex_to_rgb (String "#" ("#ef4444" ++ "80")) = hex_to_rgb "#ef4444".
Proof. apply (hex_to_rgb_ignores_tail "#ef4444" "80"). reflexivity. Defined.

(** ** Letter case of hex strings *)

Section CaseFacts.

Definition same_channel (x y : option Z) : bool :=
  match x, y with
  | Some m, Some n => m =? n
  | _, _ => false
  end.

(** Two hex digits read the same in either letter case. *)
Definition case_ok (a b : ascii) : bool :=
  if is_hex_digit a && is_hex_digit b then
    is_hex_digit (upper_char a) && is_hex_digit (lower_char a) &&
    same_channel (int16 (String (upper_char a) (String (upper_char b) EmptyString)))
                 (int16 (String a (String b EmptyString))) &&
    same_channel (int16 (String (lower_char a) (String (lower_char b) EmptyString)))
                 (int16 (String a (String b EmptyString)))
  else true.

Lemma case_ok_all :
  forallb (fun a => forallb (case_ok a) all_ascii) all_ascii = true.
Proof. vm_compute. reflexivity. Qed.

Lemma same_channel_eq (x y : option Z) : same_channel x y = true -> x = y.
Proof.
  destruct x as [m|], y as [n|]; cbn; try discriminate.
  intros H. apply Z.eqb_eq in H. now subst.
Qed.

Lemma int16_case (a b : ascii) :
  is_hex_digit a = true -> is_hex_digit b = true ->
  is_hex_digit (upper_char a) = true /\ is_hex_digit (lower_char a) = true /\
  int16 (String (upper_char a) (String (upper_char b) EmptyString)) =
    int16 (String a (String b EmptyString)) /\
  int16 (String (lower_char a) (String (lower_char b) EmptyString)) =
    int16 (String a (String b EmptyString)).
Proof.
  intros Ha Hb. pose proof case_ok_all as Hall.
  rewrite forallb_forall in Hall.
  specialize (Hall a (all_ascii_complete a)).
  rewrite forallb_forall in Hall.
  specialize (Hall b (all_ascii_complete b)).
  unfold case_ok in Hall. rewrite Ha, Hb in Hall. cbn [andb] in Hall.
  apply andb_prop in Hall as [Hall Hl]. apply andb_prop in Hall as [Hall Hu].
  apply andb_prop in Hall as [Hua Hla].
  repeat split; trivial; now apply same_channel_eq.
Qed.

Lemma hex_to_rgb_six (a b c d e f : ascii) :
  is_hex_digit a = true ->
  hex_to_rgb (String "#" (String a (String b (String c (String d
                (String e (String f EmptyString))))))) =
  (r <- int16 (String a (String b EmptyString)) ;;
   g <- int16 (String c (String d EmptyString)) ;;
   b' <- int16 (String e (String f EmptyString)) ;;
   Some (r, g, b')).
Proof.
  intros Ha. unfold hex_to_rgb. cbn [lstrip_by]. change (is_hash "#") with true.
  cbn iota. rewrite (hex_digit_not_hash a Ha). reflexivity.
Qed.

Lemma hex_to_rgb_any_case (s : string) :
  well_formed_hex s = true ->
  hex_to_rgb (upper s) = hex_to_rgb s /\ hex_to_rgb (lower s) = hex_to_rgb s.
Proof.
  intros Hs.
  destruct s as [|h [|a [|b [|c [|d [|e [|f [|? ?]]]]]]]]; try discriminate.
  unfold well_formed_hex in Hs. apply andb_prop in Hs as [Hh Hs].
  apply Ascii.eqb_eq in Hh. subst h. cbn [forallb] in Hs.
  repeat match type of Hs with
         | (_ && _)%bool = true => apply andb_prop in Hs as [? Hs]
         end.
  destruct (int16_case a b) as (Hua & Hla & Eu1 & El1); trivial.
  destruct (int16_case c d) as (_ & _ & Eu2 & El2); trivial.
  destruct (int16_case e f) as (_ & _ & Eu3 & El3); trivial.
  cbn [upper lower].
  change (upper_char "#") with "#"%char. change (lower_char "#") with "#"%char.
  rewrite !hex_to_rgb_six by trivial.
  rewrite Eu1, Eu2, Eu3, El1, El2, El3. split; reflexivity.
Qed.

End CaseFacts.

(** X26. Decoding does not depend on letter case: a well-formed literal
    decodes the same in upper and in lower case, and the upper-case form
    of an encoded colour, as the palette cards show and copy it, decodes
    to that colour. *)
Theorem hex_to_rgb_case_insensitive (s : string) (c : rgb) :
  well_formed_hex s = true -> valid_rgb c ->
  hex_to_rgb (upper s) = hex_to_rgb s /\
  hex_to_rgb (lower s) = hex_to_rgb s /\
  hex_to_rgb (upper (rgb_to_hex c)) = Some c.
Proof.
  intros Hs Hc. destruct (hex_to_rgb_any_case s Hs) as [Hu Hl].
  split; [exact Hu|]. split; [exact Hl|].
  destruct (rgb_to_hex_valid c Hc) as [Hwf _].
  destruct (hex_to_rgb_any_case _ Hwf) as [Hu' _].
  rewrite Hu'. now apply hex_decode_encode.
Qed.

Lemma hex_to_rgb_case_insensitive_witness :
  hex_to_rgb (upper "#eF4444") = hex_to_rgb "#eF4444" /\
  hex_to_rgb (lower "#eF4444") = hex_to_rgb "#eF4444" /\
  hex_to_rgb (upper (rgb_to_hex (239, 68, 68))) = Some (239, 68, 68).
Proof.
  apply (hex_to_rgb_case_insensitive "#eF4444" (239, 68, 68)).
  - reflexivity.
  - unfold valid_rgb, is_uint8. lia.
Defined.

(** ** Palette colours match themselves *)

(** X28. Every colour of a built palette is matched at distance 0, under
    either metric, by an entry whose own colour has the same Lab row: the
    entry itself or an earlier one of the same Lab colour. *)
Theorem palette_colour_matches_itself {cv : OpenCV} (p : palette)
    (entries : list TWEntry) (lab_arr : list lab) (i : nat) (e : TWEntry)
    (method : string) :
  build_entries_and_lab p = Some (entries, lab_arr) ->
  nth_error entries i = Some e ->
  exists (c c' : rgb) (m : TWMatch),
    hex_to_rgb (tw_hex e) = Some c /\
    nearest_tailwind c entries lab_arr method = Some m /\
    deltaE m = 0%R /\
    hex_to_rgb (hex m) = Some c' /\
    rgb_to_lab [c'] = rgb_to_lab [c].
Proof.
  intros H He. apply build_inv in H as (Hent & rgbs & Hm & Hvalid & Hl).
  pose proof (mapM_length _ _ _ Hm) as Hlen1.
  pose proof (rgb_to_lab_length _ _ Hl) as Hlen2.
  assert (Hi : (i < List.length rgbs)%nat).
  { rewrite Hlen1. apply nth_error_Some. congruence. }
  destruct (nth_error rgbs i) as [c|] eqn:Hc.
  2:{ apply nth_error_None in Hc. lia. }
  apply mapM_Forall2 in Hm.
  pose proof (Forall2_nth_error _ _ _ _ _ _ Hm He Hc) as Hhex. cbn beta in Hhex.
  assert (Hne : rgbs <> []) by (intros ->; destruct i; discriminate).
  rewrite (rgb_to_lab_map rgbs Hne) in Hl. injection Hl as <-.
  set (conv := fun c0 => astype_float32
                 (bgr2lab_8u (astype_uint8_px (reverse_channels c0)))) in *.
  assert (Hsingle : forall c0, rgb_to_lab [c0] = Some [conv c0]).
  { intros c0. now rewrite rgb_to_lab_map. }
  destruct (exact_hit c entries (map conv rgbs) method (conv c))
    as (k & e' & Hk & He' & _ & Hmatch).
  - rewrite Forall_forall in Hvalid. eapply Hvalid, nth_error_In, Hc.
  - rewrite length_map. congruence.
  - apply Hsingle.
  - apply in_map. eapply nth_error_In. exact Hc.
  - rewrite nth_error_map in Hk.
    destruct (nth_error rgbs k) as [c'|] eqn:Hc'; [|discriminate].
    cbn in Hk. injection Hk as Hk.
    pose proof (Forall2_nth_error _ _ _ _ _ _ Hm He' Hc') as Hhex'.
    cbn beta in Hhex'.
    exists c, c'. eexists. split; [exact Hhex|]. split; [exact Hmatch|].
    cbn [deltaE hex]. split; [reflexivity|]. split; [exact Hhex'|].
    rewrite !Hsingle. now rewrite Hk.
Qed.

Lemma palette_colour_matches_itself_witness :
  exists (c c' : rgb) (m : TWMatch),
    hex_to_rgb "#ef4444" = Some c /\
    nearest_tailwind (cv := simple_cv) c
      [{| tw_name := "red"; tw_shade := 500; tw_hex := "#ef4444" |}]
      [(125, 213, 128)%R] "DE2000" = Some m /\
    deltaE m = 0%R /\
    hex_to_rgb (hex m) = Some c' /\
    rgb_to_lab (cv := simple_cv) [c'] = rgb_to_lab (cv := simple_cv) [c].
Proof.
  apply (palette_colour_matches_itself (cv := simple_cv)
           [("red"%string, [(500, "#ef4444"%string)])]
           [{| tw_name := "red"; tw_shade := 500; tw_hex := "#ef4444" |}]
           [(125, 213, 128)%R] 0
           {| tw_name := "red"; tw_shade := 500; tw_hex := "#ef4444" |}
           "DE2000");
    reflexivity.
Defined.

(** ** Integers that do not fit a byte *)

Section OverflowFacts.


End OverflowFacts.


